(** * Colour-file resolution of the Hiero integration: EDL/CDL parsing and
      priority matching.

    The development embeds, function by function, the text-processing core of
    [client/ayon_hiero/api/lib.py] ([regex_parse_edl_events],
    [otio_parse_edl_events], [parse_edl_events], [parse_cdl]) and of
    [client/ayon_hiero/plugins/publish/collect_color_file.py] ([get_files],
    [CollectColorFile.get_color_file], [CollectColorFile.priority_color_file]).

    Conventions of the embedding.
    - Text is a [string] of 8-bit characters.  The character classes, [lower]
      and the numeric conversions follow Python on the ASCII range; a
      character above 127 is treated as an ordinary symbol.
    - A Python float is represented by the exact rational value of its
      decimal literal ([Q]); rounding to binary64 is not modelled, no
      statement below depends on it.
    - A Python exception is a value of [exn]; a call that may raise returns
      a [result].
    - The file system and the OpenTimelineIO reader are inputs. *)

From Stdlib Require Import String Ascii List Bool Arith NArith ZArith QArith Lia.
From Stdlib Require Import DecimalString Permutation Sorted.
Import ListNotations.

Local Close Scope Q_scope.
Local Open Scope string_scope.
Local Open Scope list_scope.

(* ================================================================== *)
(** ** Characters and the [str] methods the code uses *)

Module Text.

Definition code (c : ascii) : N := N_of_ascii c.

Definition in_range (lo hi : N) (c : ascii) : bool :=
  (lo <=? code c)%N && (code c <=? hi)%N.

Definition is_digit : ascii -> bool := in_range 48 57.
Definition is_upper : ascii -> bool := in_range 65 90.
Definition is_lower : ascii -> bool := in_range 97 122.
Definition is_alnum (c : ascii) : bool := is_digit c || is_upper c || is_lower c.

(** [\w] *)
Definition is_word (c : ascii) : bool := is_alnum c || Ascii.eqb c "_".

(** [\s]: TAB, LF, VT, FF, CR, the separators FS, GS, RS, US, and the
    blank. *)
Definition is_space (c : ascii) : bool :=
  in_range 9 13 c || in_range 28 32 c.

(** [[\n\r]] *)
Definition is_newline (c : ascii) : bool :=
  Ascii.eqb c "010" || Ascii.eqb c "013".

Definition is_char (x : ascii) (c : ascii) : bool := Ascii.eqb c x.

Definition lower_char (c : ascii) : ascii :=
  if is_upper c then ascii_of_N (code c + 32) else c.

(** [str.lower] *)
Fixpoint lower (s : string) : string :=
  match s with
  | EmptyString => EmptyString
  | String c t => String (lower_char c) (lower t)
  end.

(** [reversed], with an accumulator. *)
Fixpoint rev_onto (s acc : string) : string :=
  match s with
  | EmptyString => acc
  | String c t => rev_onto t (String c acc)
  end.

Definition rev (s : string) : string := rev_onto s "".

Fixpoint take (n : nat) (s : string) : string :=
  match n, s with
  | S n', String c t => String c (take n' t)
  | _, _ => ""
  end.


(** [s.startswith(p)], returning what follows the prefix. *)
Fixpoint strip_prefix (p s : string) : option string :=
  match p, s with
  | EmptyString, _ => Some s
  | String a p', String b s' => if Ascii.eqb a b then strip_prefix p' s' else None
  | String _ _, EmptyString => None
  end.

Definition startswith (s p : string) : bool :=
  match strip_prefix p s with Some _ => true | None => false end.

(** [s.endswith(p)] *)
Definition endswith (s p : string) : bool := startswith (rev s) (rev p).

(** [s.find(sep)] as the pair (text before, text after) the first
    occurrence. *)
Fixpoint cut (sep s : string) {struct s} : option (string * string) :=
  match strip_prefix sep s with
  | Some rest => Some ("", rest)
  | None =>
      match s with
      | EmptyString => None
      | String c t =>
          match cut sep t with
          | Some (l, r) => Some (String c l, r)
          | None => None
          end
      end
  end.

(** [s.split(sep)[0]] and [s.split(sep, 1)[0]]: the text before the first
    occurrence of a non-empty separator, or all of [s]. *)
Definition before_first (sep s : string) : string :=
  match cut sep s with Some (l, _) => l | None => s end.

(** [s.replace(old, "")] for a non-empty [old]: every occurrence, left to
    right, without overlap. *)
Fixpoint remove_all (old s : string) (fuel : nat) : string :=
  match fuel with
  | O => s
  | S fuel' =>
      match cut old s with
      | Some (l, r) => l ++ remove_all old r fuel'
      | None => s
      end
  end.

Definition replace_with_empty (s old : string) : string :=
  remove_all old s (String.length s).

(** [s.rfind(c)] for one character, as the pair (text before, text after)
    its last occurrence. *)
Fixpoint rcut (c : ascii) (s : string) : option (string * string) :=
  match s with
  | EmptyString => None
  | String a t =>
      match rcut c t with
      | Some (l, r) => Some (String a l, r)
      | None => if Ascii.eqb a c then Some ("", t) else None
      end
  end.

(** [str.isdigit] *)
Fixpoint all_digits (s : string) : bool :=
  match s with
  | EmptyString => true
  | String c t => is_digit c && all_digits t
  end.

Definition isdigit (s : string) : bool :=
  match s with EmptyString => false | _ => all_digits s end.

(** The white space [int] and [float] skip around an ASCII literal: TAB, LF,
    VT, FF, CR and the blank, without the four separators. *)
Definition is_blank (c : ascii) : bool :=
  in_range 9 13 c || in_range 32 32 c.

Fixpoint lstrip (s : string) : string :=
  match s with
  | String c t => if is_blank c then lstrip t else s
  | EmptyString => s
  end.

(** The literal inside its surrounding white space. *)
Definition strip (s : string) : string := rev (lstrip (rev (lstrip s))).

(** Lexicographic order on code points, the order of [sorted] on [str]. *)
Fixpoint leb (s t : string) : bool :=
  match s, t with
  | EmptyString, _ => true
  | String _ _, EmptyString => false
  | String a s', String b t' =>
      if (code a <? code b)%N then true
      else if (code b <? code a)%N then false
      else leb s' t'
  end.

End Text.

(* ================================================================== *)
(** ** Numeric conversions *)

Module Num.

Import Text.

Definition digit_val (c : ascii) : Z := (Z.of_N (code c) - 48)%Z.

(** Value of a run of decimal digits, most significant first. *)
Fixpoint digits_val (acc : Z) (s : string) : Z :=
  match s with
  | EmptyString => acc
  | String c t => digits_val (10 * acc + digit_val c)%Z t
  end.

(** Digits with single underscores between them, as [int] and [float]
    accept: [Some] of the digits with the underscores removed. *)
Fixpoint grouped_digits (s : string) (after_digit : bool) : option string :=
  match s with
  | EmptyString => if after_digit then Some "" else None
  | String c t =>
      if is_digit c then
        match grouped_digits t true with
        | Some d => Some (String c d)
        | None => None
        end
      else if Ascii.eqb c "_" && after_digit then
        match t with
        | String c' _ => if is_digit c' then grouped_digits t false else None
        | EmptyString => None
        end
      else None
  end.

Definition split_sign (s : string) : bool * string :=
  match s with
  | String "-" t => (true, t)
  | String "+" t => (false, t)
  | _ => (false, s)
  end.

(** [int(s)] for a [str]: surrounding white space is dropped, then an
    optional sign and decimal digits; [None] stands for [ValueError]. *)
Definition py_int (s : string) : option Z :=
  let (neg, body) := split_sign (strip s) in
  match grouped_digits body false with
  | Some d => Some (if neg then (- digits_val 0 d)%Z else digits_val 0 d)
  | None => None
  end.

(** [str(n)] for an [int]. *)
Definition py_str_of_int (n : Z) : string :=
  NilZero.string_of_int (Z.to_int n).

(** [float(s)] on the decimal forms [digits], [digits.], [digits.digits]
    and [.digits] with an optional sign, which are the only valid forms the
    character classes of the patterns below can capture; [None] stands for
    [ValueError]. *)
Definition py_float (s : string) : option Q :=
  let (neg, body) := split_sign (strip s) in
  let parts :=
    match cut "." body with
    | Some (i, f) => (i, f)
    | None => (body, "")
    end in
  let (i, f) := parts in
  let ok :=
    match i, f with
    | EmptyString, EmptyString => false
    | _, _ =>
        match (if String.eqb i "" then Some "" else grouped_digits i false),
              (if String.eqb f "" then Some "" else grouped_digits f false) with
        | Some _, Some _ => true
        | _, _ => false
        end
    end in
  if ok then
    let strip_us := fun x => replace_with_empty x "_" in
    let i' := strip_us i in
    let f' := strip_us f in
    let m := digits_val 0 (i' ++ f') in
    let q := Qred (Qmake m (Z.to_pos (10 ^ Z.of_nat (String.length f')))) in
    Some (if neg then Qopp q else q)
  else None.

End Num.

(* ================================================================== *)
(** ** Regular expressions: the subset of [re] the patterns are written in *)

Module Re.

Import Text.

(** Abstract syntax.  A pattern of the source is transcribed constructor by
    constructor; the comment next to each constructor gives the concrete
    syntax it stands for. *)
Inductive regex : Type :=
| Chars (p : ascii -> bool)            (* a character class *)
| Lit (s : string)                     (* literal text *)
| Cat (r1 r2 : regex)                  (* r1r2 *)
| Or (r1 r2 : regex)                   (* r1|r2 *)
| Repeat (greedy : bool) (lo : nat) (hi : option nat) (r : regex)
                                       (* r{lo,hi}, r{lo,}, lazy when not greedy *)
| Group (name : string) (r : regex)    (* (?P<name>r); (r) with the empty name *)
| Ahead (r : regex)                    (* (?=r) *)
| Behind (p : ascii -> bool)           (* (?<=c) for a one-character class *)
| NotBehind (p : ascii -> bool)        (* (?<!c) for a one-character class *)
| WordEdge                             (* \b *)
| EndText.                             (* \Z *)

Definition opt (r : regex) : regex := Repeat true 0 (Some 1) r.      (* r? *)
Definition star (r : regex) : regex := Repeat true 0 None r.         (* r* *)
Definition plus (r : regex) : regex := Repeat true 1 None r.         (* r+ *)
Definition lazy_star (r : regex) : regex := Repeat false 0 None r.   (* r*? *)
Definition times (lo hi : nat) (r : regex) : regex := Repeat true lo (Some hi) r.
Definition at_least (lo : nat) (r : regex) : regex := Repeat true lo None r.

Fixpoint cat_all (rs : list regex) : regex :=
  match rs with
  | [] => Lit ""
  | [r] => r
  | r :: rs' => Cat r (cat_all rs')
  end.

(** The matcher's position in the subject: the text already passed (most
    recent character first), the text ahead, and the groups closed so far
    (most recent first). *)
Record cursor : Type := Cursor {
  seen : string;
  todo : string;
  caps : list (string * string)
}.

Definition step (c : cursor) (a : ascii) (rest : string) : cursor :=
  Cursor (String a (seen c)) rest (caps c).

Definition prev_is (p : ascii -> bool) (c : cursor) : bool :=
  match seen c with String a _ => p a | EmptyString => false end.

Definition next_is (p : ascii -> bool) (c : cursor) : bool :=
  match todo c with String a _ => p a | EmptyString => false end.

Definition at_word_edge (c : cursor) : bool :=
  xorb (prev_is is_word c) (next_is is_word c).

Definition within (hi : option nat) (n : nat) : bool :=
  match hi with Some h => (n <? h)%nat | None => true end.

(** Text consumed between an earlier cursor and a later one. *)
Definition consumed (c0 c1 : cursor) : string :=
  rev (take (String.length (seen c1) - String.length (seen c0)) (seen c1)).

Definition close_group (name : string) (c0 c1 : cursor) : cursor :=
  Cursor (seen c1) (todo c1) ((name, consumed c0 c1) :: caps c1).

Fixpoint pass_lit (s : string) (c : cursor) : option cursor :=
  match s with
  | EmptyString => Some c
  | String a s' =>
      match todo c with
      | String b rest => if Ascii.eqb a b then pass_lit s' (step c b rest) else None
      | EmptyString => None
      end
  end.

(** The iterations of a repetition, for a matcher [body] of what is
    repeated: [n] iterations are done; a greedy repetition tries one more
    before it tries to stop, a lazy one the other way round.  An iteration
    counts only if it consumed text, which is how [re] treats all the
    repeated bodies of the patterns below, none of which can match the
    empty text; the fuel, one more than the length of the text ahead, is
    then never exhausted. *)
Fixpoint repeat_loop
  (body : cursor -> (cursor -> option cursor) -> option cursor)
  (greedy : bool) (lo : nat) (hi : option nat)
  (k : cursor -> option cursor) (fuel n : nat) (c : cursor) {struct fuel}
  : option cursor :=
  match fuel with
  | O => if (lo <=? n)%nat then k c else None
  | S fuel' =>
      let again (_ : unit) :=
        if within hi n then
          body c (fun c' =>
            if (String.length (todo c') <? String.length (todo c))%nat
            then repeat_loop body greedy lo hi k fuel' (S n) c' else None)
        else None in
      let stop (_ : unit) := if (lo <=? n)%nat then k c else None in
      if greedy then
        match again tt with Some m => Some m | None => stop tt end
      else
        match stop tt with Some m => Some m | None => again tt end
  end.

(** Backtracking matcher in continuation-passing style: [run r c k] matches
    [r] at [c] and hands every way of doing so to [k], in the order [re]
    tries them, until [k] accepts one. *)
Fixpoint run (r : regex) (c : cursor) (k : cursor -> option cursor)
  {struct r} : option cursor :=
  match r with
  | Chars p =>
      match todo c with
      | String a rest => if p a then k (step c a rest) else None
      | EmptyString => None
      end
  | Lit s =>
      match pass_lit s c with
      | Some c' => k c'
      | None => None
      end
  | Cat r1 r2 => run r1 c (fun c' => run r2 c' k)
  | Or r1 r2 =>
      match run r1 c k with
      | Some m => Some m
      | None => run r2 c k
      end
  | Repeat greedy lo hi body =>
      repeat_loop (run body) greedy lo hi k (S (String.length (todo c))) 0 c
  | Group name body => run body c (fun c' => k (close_group name c c'))
  | Ahead body =>
      match run body c Some with
      | Some _ => k c
      | None => None
      end
  | Behind p => if prev_is p c then k c else None
  | NotBehind p => if prev_is p c then None else k c
  | WordEdge => if at_word_edge c then k c else None
  | EndText => match todo c with EmptyString => k c | _ => None end
  end.

(** A match object: where it starts, the matched text ([m.group()]), the
    groups, and the subject on either side of the match. *)
Record rmatch : Type := Match {
  m_before : string;      (* text before the match, most recent first *)
  m_text : string;
  m_groups : list (string * string);
  m_after : string
}.

Definition match_at (r : regex) (before after : string) : option rmatch :=
  let c0 := Cursor before after [] in
  match run r c0 Some with
  | Some c1 => Some (Match before (consumed c0 c1) (caps c1) (todo c1))
  | None => None
  end.

(** Leftmost match at or after the current position. *)
Fixpoint scan (r : regex) (before after : string) {struct after}
  : option rmatch :=
  match match_at r before after with
  | Some m => Some m
  | None =>
      match after with
      | EmptyString => None
      | String a t => scan r (String a before) t
      end
  end.

(** [re.search(r, s)] *)
Definition search (r : regex) (s : string) : option rmatch := scan r "" s.

(** [m.group(name)] of a group that took part in the match. *)
Fixpoint lookup (name : string) (gs : list (string * string)) : string :=
  match gs with
  | [] => ""
  | (n, v) :: gs' => if String.eqb n name then v else lookup name gs'
  end.

Definition group (m : rmatch) (name : string) : string :=
  lookup name (m_groups m).

(** [re.finditer(r, s)] for a pattern that never matches the empty text:
    each search resumes where the previous match ended. *)
Fixpoint find_from (fuel : nat) (r : regex) (before after : string)
  : list rmatch :=
  match fuel with
  | O => []
  | S fuel' =>
      match scan r before after with
      | None => []
      | Some m =>
          match m_text m with
          | EmptyString => [m]
          | _ => m :: find_from fuel' r (rev_onto (m_text m) (m_before m)) (m_after m)
          end
      end
  end.

Definition finditer (r : regex) (s : string) : list rmatch :=
  find_from (S (String.length s)) r "" s.

End Re.

(* ================================================================== *)
(** ** Python values, exceptions and dictionaries *)

Module Py.

(** The exceptions the modelled functions can raise. *)
Inductive exn : Type :=
| UnicodeDecodeError
| ValueError
| OSError
| UnboundLocalError
| IndexError
| KeyError
| Exception.

Inductive result (A : Type) : Type :=
| Ok (a : A)
| Raise (e : exn).

Arguments Ok {A} a.
Arguments Raise {A} e.

Definition bind {A B : Type} (m : result A) (f : A -> result B) : result B :=
  match m with
  | Ok a => f a
  | Raise e => Raise e
  end.

Definition of_option {A : Type} (e : exn) (o : option A) : result A :=
  match o with Some a => Ok a | None => Raise e end.

(** A number or a string, for the fields that hold either. *)
Inductive value : Type :=
| PInt (n : Z)
| PFloat (q : Q)
| PStr (s : string).

(** [v == 1.0] *)
Definition equals_one (v : value) : bool :=
  match v with
  | PInt n => (n =? 1)%Z
  | PFloat q => Qeq_bool q 1
  | PStr _ => false
  end.

(** Keys of an [events] dictionary: the regex parser uses [str], the OTIO
    parser [int]. *)
Inductive key : Type :=
| KStr (s : string)
| KInt (n : Z).

Definition key_eqb (a b : key) : bool :=
  match a, b with
  | KStr s, KStr t => String.eqb s t
  | KInt n, KInt m => (n =? m)%Z
  | _, _ => false
  end.

(** [d[k] = v] on an insertion-ordered dictionary: an existing key keeps its
    place and takes the new value, a new key goes last. *)
Fixpoint dict_set {V : Type} (k : key) (v : V) (d : list (key * V))
  : list (key * V) :=
  match d with
  | [] => [(k, v)]
  | (k', v') :: d' =>
      if key_eqb k' k then (k', v) :: d' else (k', v') :: dict_set k v d'
  end.

Fixpoint dict_get {V : Type} (k : key) (d : list (key * V)) : option V :=
  match d with
  | [] => None
  | (k', v) :: d' => if key_eqb k' k then Some v else dict_get k d'
  end.

(** [d.get(k)] on a dictionary with [str] keys. *)
Fixpoint str_get {V : Type} (k : string) (d : list (string * V)) : option V :=
  match d with
  | [] => None
  | (k', v) :: d' => if String.eqb k' k then Some v else str_get k d'
  end.

(** [sorted(l, key=key)] for an integer key: a stable sort, equal keys stay
    in their original order. *)
Fixpoint insert_by {A : Type} (key : A -> Z) (x : A) (l : list A) : list A :=
  match l with
  | [] => [x]
  | y :: l' =>
      if (key x <=? key y)%Z then x :: l else y :: insert_by key x l'
  end.

Definition sorted_by {A : Type} (key : A -> Z) (l : list A) : list A :=
  fold_right (insert_by key) [] l.

(** [sorted(l)] for a list of [str]. *)
Fixpoint insert_str (x : string) (l : list string) : list string :=
  match l with
  | [] => [x]
  | y :: l' => if Text.leb x y then x :: l else y :: insert_str x l'
  end.

Definition sorted_str (l : list string) : list string :=
  fold_right insert_str [] l.

(** [l.remove(x)] when [x in l]: the first occurrence goes. *)
Fixpoint remove_first (x : string) (l : list string) : list string :=
  match l with
  | [] => []
  | y :: l' => if String.eqb y x then l' else y :: remove_first x l'
  end.

(** [x in l] for a list of [str]. *)
Definition mem (x : string) (l : list string) : bool :=
  existsb (String.eqb x) l.

End Py.

Notation "x <- m ;; f" := (Py.bind m (fun x => f))
  (at level 61, m at next level, right associativity).

(* ================================================================== *)
(** ** [api/lib.py]: the EDL and CDL parsers *)

Module Lib.

Import Text Num Re Py.

(** One colour decision of an EDL event: the [slope], [offset], [power] and
    [sat] keys, which an event dictionary holds together or not at all. *)
Record color : Type := Color {
  slope : list Q;
  offset : list Q;
  power : list Q;
  sat : value
}.

(** An entry of [edl["events"]]. *)
Record event : Type := Event {
  tape : string;
  clip_name : string;
  LOC : string;
  grade : option color
}.

(** The dictionary both EDL parsers return. *)
Record edl : Type := Edl {
  events : list (key * event);
  first_entry : Z;
  last_entry : Z
}.

(** The dictionary [parse_cdl] returns, and the [cdl] member of a match of
    [priority_color_file] (which has no ["file"] key when it comes from an
    EDL event). *)
Record cdl : Type := Cdl {
  cdl_slope : option (list Q);
  cdl_offset : option (list Q);
  cdl_power : option (list Q);
  cdl_sat : option value;
  cdl_file : option string
}.

(** *** Patterns of [regex_parse_edl_events] *)

Definition any_char (_ : ascii) : bool := true.
Definition dot (c : ascii) : bool := negb (Ascii.eqb c "010").
Definition non_space (c : ascii) : bool := negb (is_space c).

Definition digit := Chars is_digit.
Definition space := Chars is_space.
Definition chr (c : ascii) := Chars (is_char c).

(** Source: "(?<=[\n\r])(?P<edit>\d+\s+[\s\S]*?)(?=([\n\r]+\d+)|\Z)" *)
Definition edit_pattern : regex :=
  cat_all
    [ Behind is_newline;
      Group "edit" (cat_all [plus digit; plus space; lazy_star (Chars any_char)]);
      Ahead (Or (Group "" (cat_all [plus (Chars is_newline); plus digit]))
                EndText) ].

(** Source: "[-]?\d+[.]\d{4,6}" *)
Definition sop_number : regex :=
  cat_all [opt (chr "-"); plus digit; chr "."; times 4 6 digit].

(** Source: "[(]\s?(?P<a>n)\s+(?P<b>n)\s+(?P<c>n)\s?[)]\s?", with n the number above *)
Definition sop_triple (a b c : string) : regex :=
  cat_all
    [ chr "("; opt space; Group a sop_number; plus space; Group b sop_number;
      plus space; Group c sop_number; opt space; chr ")"; opt space ].

(** Source: "[*]\s?ASC[_]SOP\s+" followed by the three triples
    sR sG sB, oR oG oB and pR pG pB. *)
Definition sop_pattern : regex :=
  cat_all
    [ chr "*"; opt space; Lit "ASC"; chr "_"; Lit "SOP"; plus space;
      sop_triple "sR" "sG" "sB"; sop_triple "oR" "oG" "oB";
      sop_triple "pR" "pG" "pB" ].

(** Source: "[*]\s?ASC_SAT\s+" and the group sat, which is "\d+[.]*\d*". *)
Definition sat_pattern : regex :=
  cat_all
    [ chr "*"; opt space; Lit "ASC_SAT"; plus space;
      Group "sat" (cat_all [plus digit; star (chr "."); star digit]) ].

(** Source: "\d+\s*", the group source, which is "[\S]*", and a
    lookahead for "\s*". *)
Definition tape_pattern : regex :=
  cat_all
    [ plus digit; star space; Group "source" (star (Chars non_space));
      Ahead (star space) ].

(** Source: "[*]\s?FROM[ ]*CLIP[ ]*NAME:\s*(?P<clip_name>.+)" *)
Definition clip_name_pattern : regex :=
  cat_all
    [ chr "*"; opt space; Lit "FROM"; star (chr " "); Lit "CLIP";
      star (chr " "); Lit "NAME:"; star space;
      Group "clip_name" (plus (Chars dot)) ].

(** The token grammar shared by [loc_pattern] and [shot_pattern], over the
    class w of component characters:
    "(?<!_)(?P<LOC>w{3,4}_((?<=_)w{3,4}_){1,2}w{3,4}(?<!_)(_w{1,}){0,})" *)
Definition token (w : ascii -> bool) : regex :=
  cat_all
    [ NotBehind (is_char "_");
      Group "LOC"
        (cat_all
           [ times 3 4 (Chars w); chr "_";
             times 1 2 (Group "" (cat_all [Behind (is_char "_");
                                           times 3 4 (Chars w); chr "_"]));
             times 3 4 (Chars w);
             NotBehind (is_char "_");
             at_least 0 (Group "" (cat_all [chr "_"; at_least 1 (Chars w)])) ]) ].

(** Source: "[*]\s?LOC:\s?.+\b", the token over "[\w]", and "\b". *)
Definition loc_pattern : regex :=
  cat_all
    [ chr "*"; opt space; Lit "LOC:"; opt space; plus (Chars dot); WordEdge;
      token is_word; WordEdge ].

(** *** Pattern of [otio_parse_edl_events]

    The source writes the pattern as two adjacent literals, the token
    over "[a-zA-Z0-9]" split before its "{1,2}", the second literal ending
    in backslash-b.  Only the first literal carries the raw prefix r, so in
    the second one that escape is the backspace character, code 8, and not
    the word-boundary assertion. *)
Definition backspace : ascii := ascii_of_N 8.

Definition shot_pattern : regex :=
  cat_all [ token is_alnum; Lit (String backspace "") ].

(** *** Patterns of [parse_cdl] *)

(** The class "[-,\d,.]": minus, comma, digit, full stop. *)
Definition cdl_char (c : ascii) : bool :=
  is_char "-" c || is_char "," c || is_digit c || is_char "." c.

(** Source, for a tag t: "<t>", the group a, "[ ]{1}", the group b,
    "[ ]{1}", the group c, "</t>"; the groups a and c are "[-,\d,.]*" and
    the group b is "[-,\d,.]+". *)
Definition cdl_triple (tag a b c : string) : regex :=
  cat_all
    [ Lit ("<" ++ tag ++ ">"); Group a (star (Chars cdl_char));
      times 1 1 (chr " "); Group b (plus (Chars cdl_char));
      times 1 1 (chr " "); Group c (star (Chars cdl_char));
      Lit ("</" ++ tag ++ ">") ].

Definition slope_pattern : regex := cdl_triple "slope" "sR" "sG" "sB".
Definition offset_pattern : regex := cdl_triple "offset" "oR" "oG" "oB".
Definition power_pattern : regex := cdl_triple "power" "pR" "pG" "pB".

(** Source: "<saturation\>(?P<sat>[-,\d,.]+)</saturation\>", where the
    escaped angle bracket is the bracket itself. *)
Definition saturation_pattern : regex :=
  cat_all
    [ Lit "<saturation>"; Group "sat" (plus (Chars cdl_char));
      Lit "</saturation>" ].

(** *** What the parsers read

    A clip of an OpenTimelineIO timeline, reduced to what
    [otio_parse_edl_events] looks at: [clip.name], [clip.metadata["cdl"]]
    (with its optional ["asc_sop"] and ["asc_sat"] members), the names of
    [clip.markers] and [clip.metadata["cmx_3600"]["reel"]]. *)
Record otio_sop : Type := OtioSop {
  sop_slope : list Q;
  sop_offset : list Q;
  sop_power : list Q
}.

Record otio_cdl : Type := OtioCdl {
  asc_sop : option otio_sop;
  asc_sat : option Q
}.

Record clip : Type := Clip {
  name : string;
  meta_cdl : option otio_cdl;
  markers : list string;
  reel : option string
}.

(** A child of a track: a clip or anything else (gap, transition). *)
Inductive child : Type :=
| IsClip (c : clip)
| NotClip.

(** [timeline.tracks], each track given by [each_child()]. *)
Definition timeline : Type := list (list child).

(** The world outside the program: the files and the OTIO reader. *)
Record world : Type := World {
  (* open(path, "r").read() *)
  read_text : string -> result string;
  (* otio.adapters.read_from_file(path, ignore_timecode_mismatch=True) *)
  otio_read : string -> result timeline;
  (* glob(path + "/*") *)
  glob_children : string -> list string;
  (* os.path.isdir, os.path.isfile *)
  isdir : string -> bool;
  isfile : string -> bool;
  (* int(datetime.fromtimestamp(os.path.getctime(x)).strftime("%Y%m%d")) *)
  ctime_day : string -> Z;
  (* [(str(p), str(p.resolve())) for p in Path(path).glob("**/*")] *)
  rglob : string -> list (string * string)
}.

(** *** [regex_parse_edl_events] *)

(** [x.split(" ", 1)[0]] *)
Definition leading_field (x : string) : string := before_first " " x.

(** [int(x.split(" ", 1)[0])] *)
Definition entry_number (x : string) : result Z :=
  of_option ValueError (py_int (leading_field x)).

(** [tuple(map(float, (m.group(a), m.group(b), ...)))] *)
Fixpoint floats (m : rmatch) (names : list string) : result (list Q) :=
  match names with
  | [] => Ok []
  | n :: names' =>
      x <- of_option ValueError (py_float (group m n)) ;;
      xs <- floats m names' ;;
      Ok (x :: xs)
  end.

(** [m.group(name) if m else ""] for [m = re.search(r, text)] *)
Definition group_or_empty (r : regex) (name text : string) : string :=
  match search r text with
  | Some m => group m name
  | None => ""
  end.

(** The [slope, offset, power] of an edit: all [None] unless the SOP pattern
    is found. *)
Definition edit_sop (edit_value : string)
  : result (option (list Q * list Q * list Q)) :=
  match search sop_pattern edit_value with
  | Some m =>
      s <- floats m ["sR"; "sG"; "sB"] ;;
      o <- floats m ["oR"; "oG"; "oB"] ;;
      p <- floats m ["pR"; "pG"; "pB"] ;;
      Ok (Some (s, o, p))
  | None => Ok None
  end.

(** [sat_match.group("sat") if sat_match else 1] *)
Definition edit_sat (edit_value : string) : value :=
  match search sat_pattern edit_value with
  | Some m => PStr (group m "sat")
  | None => PInt 1
  end.

(** One iteration of the loop over the edits. *)
Definition edit_step (color_edits_only : bool) (evs : list (key * event))
  (edit_value : string) : result (list (key * event)) :=
  sop <- edit_sop edit_value ;;
  n <- entry_number edit_value ;;
  let entry := KStr (py_str_of_int n) in
  let clip_name_value := group_or_empty clip_name_pattern "clip_name" edit_value in
  let tape_value := group_or_empty tape_pattern "source" edit_value in
  let loc_value := group_or_empty loc_pattern "LOC" edit_value in
  match sop with
  | Some (s, o, p) =>
      Ok (dict_set entry
            (Event tape_value clip_name_value loc_value
               (Some (Color s o p (edit_sat edit_value)))) evs)
  | None =>
      if color_edits_only then Ok evs
      else Ok (dict_set entry (Event tape_value clip_name_value loc_value None) evs)
  end.

Fixpoint edit_loop (color_edits_only : bool) (evs : list (key * event))
  (edits : list string) : result (list (key * event)) :=
  match edits with
  | [] => Ok evs
  | e :: edits' =>
      evs' <- edit_step color_edits_only evs e ;;
      edit_loop color_edits_only evs' edits'
  end.

(** The blocks the loop visits: [edit_match.group("edit")] for each match
    of [re.finditer(edit_pattern, edl_data)]. *)
Definition edits_of (edl_data : string) : list string :=
  map (fun m => group m "edit") (finditer edit_pattern edl_data).

Definition regex_parse_edl_events (w : world) (path : string)
  (color_edits_only : bool) : result edl :=
  edl_data <- read_text w path ;;
  first <- match search edit_pattern edl_data with
           | Some m => entry_number (m_text m)
           | None => Ok 1%Z
           end ;;
  let edits := edits_of edl_data in
  evs <- edit_loop color_edits_only [] edits ;;
  (* [edit_value] is the variable of the loop: unbound if it never ran *)
  final <- match List.rev edits with
           | [] => Raise UnboundLocalError
           | edit_value :: _ => entry_number edit_value
           end ;;
  Ok (Edl evs first final).

(** *** [otio_parse_edl_events] *)

(** [sep.join(parts)] *)
Fixpoint join (sep : string) (parts : list string) : string :=
  match parts with
  | [] => ""
  | [x] => x
  | x :: parts' => x ++ sep ++ join sep parts'
  end.

(** [if cdl:] for [cdl = clip.metadata.get("cdl")]: a dictionary that is
    present and not empty. *)
Definition nonempty_cdl (c : clip) : option otio_cdl :=
  match meta_cdl c with
  | Some d =>
      match asc_sop d, asc_sat d with
      | None, None => None
      | _, _ => Some d
      end
  | None => None
  end.

(** [cdl.get("asc_sat") or 1.0] *)
Definition otio_sat (d : otio_cdl) : value :=
  match asc_sat d with
  | Some q => if Qeq_bool q 0 then PFloat 1 else PFloat q
  | None => PFloat 1
  end.

Definition otio_loc (c : clip) : string :=
  match markers c with
  | [] => ""
  | ms => group_or_empty shot_pattern "LOC" (join " " (" " :: ms))
  end.

Definition otio_tape (c : clip) : string :=
  match reel c with Some r => r | None => "" end.

(** One iteration of the loop over [timeline.tracks[0].each_child()]; the
    state is [entry_count] and [edl["events"]]. *)
Definition otio_step (color_edits_only : bool)
  (st : Z * list (key * event)) (ch : child)
  : result (Z * list (key * event)) :=
  match ch with
  | NotClip => Ok st
  | IsClip c =>
      let entry_count := (fst st + 1)%Z in
      let store g :=
        Ok (entry_count,
            dict_set (KInt entry_count)
              (Event (otio_tape c) (name c) (otio_loc c) g) (snd st)) in
      match nonempty_cdl c with
      | Some d =>
          match asc_sop d with
          | Some sop =>
              store (Some (Color (sop_slope sop) (sop_offset sop)
                             (sop_power sop) (otio_sat d)))
          | None => Raise KeyError
          end
      | None =>
          if color_edits_only then Ok (entry_count, snd st) else store None
      end
  end.

Fixpoint otio_loop (color_edits_only : bool) (st : Z * list (key * event))
  (children : list child) : result (Z * list (key * event)) :=
  match children with
  | [] => Ok st
  | ch :: children' =>
      st' <- otio_step color_edits_only st ch ;;
      otio_loop color_edits_only st' children'
  end.

Definition otio_parse_edl_events (w : world) (path : string)
  (color_edits_only : bool) : result edl :=
  tracks <- otio_read w path ;;
  if (1 <? List.length tracks)%nat then Raise Exception
  else
    match tracks with
    | [] => Raise IndexError
    | track0 :: _ =>
        st <- otio_loop color_edits_only (0%Z, []) track0 ;;
        Ok (Edl (snd st) 1%Z (fst st))
    end.

(** *** [parse_edl_events]; [None] is the [False] it returns on failure. *)
Definition parse_edl_events (w : world) (color_file : string)
  (color_edits_only : bool) : option edl :=
  match otio_parse_edl_events w color_file color_edits_only with
  | Ok e => Some e
  | Raise UnicodeDecodeError => None
  | Raise _ =>
      match regex_parse_edl_events w color_file color_edits_only with
      | Ok e => Some e
      | Raise _ => None
      end
  end.

(** *** [parse_cdl] *)

Definition cdl_floats (r : regex) (names : list string) (cdl_data : string)
  : result (option (list Q)) :=
  match search r cdl_data with
  | Some m => xs <- floats m names ;; Ok (Some xs)
  | None => Ok None
  end.

Definition parse_cdl (w : world) (path : string) : result cdl :=
  raw <- read_text w path ;;
  let cdl_data := lower raw in
  s <- cdl_floats slope_pattern ["sR"; "sG"; "sB"] cdl_data ;;
  o <- cdl_floats offset_pattern ["oR"; "oG"; "oB"] cdl_data ;;
  p <- cdl_floats power_pattern ["pR"; "pG"; "pB"] cdl_data ;;
  st <- match search saturation_pattern cdl_data with
        | Some m =>
            q <- of_option ValueError (py_float (group m "sat")) ;;
            Ok (Some (PFloat q))
        | None => Ok None
        end ;;
  Ok (Cdl s o p st (Some path)).

End Lib.

(* ================================================================== *)
(** ** [os.path] and [pathlib] *)

Module Path.

Import Text.

(** [os.path.basename] *)
Definition basename (p : string) : string :=
  match rcut "/" p with
  | Some (_, r) => r
  | None => p
  end.

Fixpoint all_slashes (s : string) : bool :=
  match s with
  | EmptyString => true
  | String c t => Ascii.eqb c "/" && all_slashes t
  end.

Fixpoint lstrip_slashes (s : string) : string :=
  match s with
  | String "/" t => lstrip_slashes t
  | _ => s
  end.

(** [os.path.dirname]: the head up to the last slash, without its trailing
    slashes unless it consists of slashes only. *)
Definition dirname (p : string) : string :=
  match rcut "/" p with
  | Some (l, _) =>
      if all_slashes l then l ++ "/" else rev (lstrip_slashes (rev l))
  | None => ""
  end.

Fixpoint all_dots (s : string) : bool :=
  match s with
  | EmptyString => true
  | String c t => Ascii.eqb c "." && all_dots t
  end.

(** [os.path.splitext(name)[0]] for a name without a slash: the text before
    the last dot, provided a character other than a dot precedes it. *)
Definition splitext_root (name : string) : string :=
  match rcut "." name with
  | Some (l, _) => if all_dots l then name else l
  | None => name
  end.

(** [PurePath.suffix] without its dot ([path.suffix.replace(".", "")]), or
    [None] when the suffix is empty: the final component has a last dot
    that is neither its first nor its last character. *)
Definition suffix (p : string) : option string :=
  match rcut "." (basename p) with
  | Some (String _ _, String c r) => Some (String c r)
  | _ => None
  end.

End Path.

(* ================================================================== *)
(** ** [plugins/publish/collect_color_file.py] *)

Module Collect.

Import Text Num Re Py Lib Path.

Definition LUTS_3D : list string := ["cube"; "3dl"; "csp"; "lut"].
Definition LUTS_2D : list string := ["ccc"; "cc"; "cdl"].
Definition COLOR_FILE_EXTS : list string := LUTS_2D ++ LUTS_3D ++ ["edl"].

(** *** [get_files] *)

(** [files.setdefault(ext, [p]).append(p)]: a new extension starts with the
    path listed twice. *)
Fixpoint add_file (ext p : string) (files : list (string * list string))
  : list (string * list string) :=
  match files with
  | [] => [(ext, [p; p])]
  | (e, ps) :: files' =>
      if String.eqb e ext then (e, ps ++ [p]) :: files'
      else (e, ps) :: add_file ext p files'
  end.

(** The loop body, for a path found by the glob and its resolved form. *)
Definition get_files_step (filters : list string)
  (files : list (string * list string)) (found : string * string)
  : list (string * list string) :=
  match suffix (fst found) with
  | Some ext => if mem ext filters then add_file ext (snd found) files else files
  | None => files
  end.

Definition get_files (w : world) (package_path : string)
  (filters : list string) : list (string * list string) :=
  fold_left (get_files_step filters) (rglob w package_path) [].

(** *** [CollectColorFile.priority_color_file] *)

Definition has_color_suffix (s : string) : bool :=
  endswith s "_ccc" || endswith s "_cc" || endswith s "_cdl".

(** [s.replace("_ccc", "").replace("_cc", "").replace("_cdl", "")] *)
Definition drop_color_tags (s : string) : string :=
  replace_with_empty (replace_with_empty (replace_with_empty s "_ccc") "_cc") "_cdl".

Definition no_color (s : string) : string :=
  if has_color_suffix s then drop_color_tags s else s.

(** [os.path.splitext(os.path.basename(color_file))[0].lower()] *)
Definition file_stem (color_file : string) : string :=
  lower (splitext_root (basename color_file)).

(** Name match priority of a file that is not an EDL; [source_name] is
    already lower case, [item_name] is as the caller gave it. *)
Definition name_priority (source_name source_name_no_color item_name
  color_file : string) : option Z :=
  let color_file_name := file_stem color_file in
  if String.eqb source_name color_file_name then Some 0%Z
  else if String.eqb item_name color_file_name then Some 8%Z
  else if String.eqb source_name_no_color (no_color color_file_name)
       then Some 4%Z
       else None.

(** Type priority. *)
Definition type_priority (color_ext : string) : Z :=
  if String.eqb color_ext "cc" then 0%Z
  else if String.eqb color_ext "ccc" then 1%Z
  else if String.eqb color_ext "cdl" then 3%Z
  else 0%Z.

(** An element of [matches]: [(priority, cdl, color_file)]. *)
Definition candidate : Type := Z * cdl * string.

Definition priority_of (m : candidate) : Z := fst (fst m).
Definition file_of (m : candidate) : string := snd m.

(** The [cdl] dictionary built from an EDL event; its keys are read with
    [edl_event["slope"]], which raises when the event has no grade. *)
Definition event_cdl (ev : event) : result cdl :=
  match grade ev with
  | Some g =>
      Ok (Cdl (Some (slope g)) (Some (offset g)) (Some (power g))
            (Some (sat g)) None)
  | None => Raise KeyError
  end.

Definition loc_priority (source_name item_name : string) (ev : event)
  : option Z :=
  let loc_name := lower (LOC ev) in
  if String.eqb source_name loc_name then Some 2%Z
  else if String.eqb item_name loc_name then Some 10%Z
  else None.

(** The loop over the events of one EDL. *)
Fixpoint edl_matches (source_name item_name color_file : string)
  (evs : list (key * event)) (matches : list candidate)
  : result (list candidate) :=
  match evs with
  | [] => Ok matches
  | (_, ev) :: evs' =>
      c <- event_cdl ev ;;
      match loc_priority source_name item_name ev with
      | Some priority =>
          edl_matches source_name item_name color_file evs'
            (matches ++ [(priority, c, color_file)])
      | None => edl_matches source_name item_name color_file evs' matches
      end
  end.

(** The body of the loop over the files of one extension. *)
Definition file_matches (w : world) (source_name source_name_no_color
  item_name color_ext color_file : string) (matches : list candidate)
  : result (list candidate) :=
  if negb (String.eqb color_ext "edl") then
    match name_priority source_name source_name_no_color item_name color_file with
    | Some priority =>
        c <- parse_cdl w color_file ;;
        Ok (matches ++ [((priority + type_priority color_ext)%Z, c, color_file)])
    | None => Ok matches
    end
  else
    match parse_edl_events w color_file true with
    | None => Ok matches                    (* warning logged, [continue] *)
    | Some edits =>
        edl_matches source_name item_name color_file (events edits) matches
    end.

Fixpoint files_matches (w : world) (source_name source_name_no_color
  item_name color_ext : string) (ext_color_files : list string)
  (matches : list candidate) : result (list candidate) :=
  match ext_color_files with
  | [] => Ok matches
  | color_file :: rest =>
      matches' <- file_matches w source_name source_name_no_color item_name
                    color_ext color_file matches ;;
      files_matches w source_name source_name_no_color item_name color_ext
        rest matches'
  end.

(** The loop over the extensions, in the order of [exts]. *)
Fixpoint exts_matches (w : world) (color_files : list (string * list string))
  (source_name source_name_no_color item_name : string) (exts : list string)
  (matches : list candidate) : result (list candidate) :=
  match exts with
  | [] => Ok matches
  | color_ext :: exts' =>
      matches' <-
        match str_get color_ext color_files with
        | Some ext_color_files =>
            files_matches w source_name source_name_no_color item_name
              color_ext ext_color_files matches
        | None => Ok matches
        end ;;
      exts_matches w color_files source_name source_name_no_color item_name
        exts' matches'
  end.

(** All of [matches], for a given order of the extensions. *)
Definition collect_matches (w : world) (exts : list string)
  (color_files : list (string * list string)) (item_name source_name : string)
  : result (list candidate) :=
  let source_name := lower source_name in
  exts_matches w color_files source_name (no_color source_name) item_name
    exts [].

(** [sorted(matches, key=lambda x: x[0])[0]], or [None] for the triple
    [(None, None, None)]. *)
Definition best (matches : list candidate) : option candidate :=
  match sorted_by priority_of matches with
  | [] => None
  | m :: _ => Some m
  end.

Definition priority_color_file (w : world)
  (color_files : list (string * list string)) (item_name source_name : string)
  : result (option candidate) :=
  matches <- collect_matches w COLOR_FILE_EXTS color_files item_name source_name ;;
  Ok (best matches).

(** *** [CollectColorFile.get_color_file] *)

(** Source: "/incoming/\d+/" *)
Definition incoming_pattern : regex :=
  cat_all [Lit "/incoming/"; plus digit; chr "/"].

(** [re.split(incoming_pattern, source_path)]: [None] when the list has one
    element, else its element of index 1, the text between the first
    occurrence and the next one (or the end). *)
Definition incoming_split_1 (source_path : string) : option string :=
  match search incoming_pattern source_path with
  | None => None
  | Some m =>
      let rest := m_after m in
      match scan incoming_pattern (rev_onto (m_text m) (m_before m)) rest with
      | None => Some rest
      | Some m2 =>
          Some (take (String.length rest - String.length (m_text m2)
                      - String.length (m_after m2)) rest)
      end
  end.

(** [s.split(sep)[0]]; an empty separator raises. *)
Definition split_head (s sep : string) : result string :=
  if String.eqb sep "" then Raise ValueError else Ok (before_first sep s).

(** The sort key of a package directory: [int(name)] when the name is made
    of digits, else the day of its creation time as the integer YYYYMMDD. *)
Definition package_key (w : world) (x : string) : Z :=
  if isdigit (basename x) then digits_val 0 (basename x) else ctime_day w x.

(** [incoming_packages] *)
Definition incoming_packages (w : world) (incoming_path : string)
  : list string :=
  filter (isdir w) (sorted_str (glob_children w incoming_path)).

(** The value of [sorted_incoming] when the loop starts, or [None] when the
    function returns early because the path has no incoming directory. *)
Definition package_order (w : world) (source_path : string)
  : result (option (list string)) :=
  match incoming_split_1 source_path with
  | None => Ok None
  | Some package_path_end =>
      let package_name := before_first "/" package_path_end in
      dated_incoming <- split_head source_path package_name ;;
      let package_path := (dated_incoming ++ package_name)%string in
      let incoming_path :=
        dirname (before_first ("/" ++ package_name)%string source_path) in
      let packages := incoming_packages w incoming_path in
      let sorted_incoming := sorted_by (package_key w) packages in
      if isfile w package_path then
        let package_path := dirname package_path in
        Ok (Some (package_path ::
                  (if mem package_path packages
                   then remove_first package_path sorted_incoming
                   else sorted_incoming)))
      else Ok (Some sorted_incoming)
  end.

(** [if color_file:] on the result of [priority_color_file]. *)
Definition found (r : option candidate) : bool :=
  match r with
  | Some m => negb (String.eqb (file_of m) "")
  | None => false
  end.

(** The loop over [sorted_incoming]; [last] is the triple assigned by the
    previous iteration. *)
Fixpoint scan_packages (w : world) (item_name source_name : string)
  (paths : list string) (last : option candidate)
  : result (option candidate) :=
  match paths with
  | [] => Ok last
  | path :: paths' =>
      r <- priority_color_file w (get_files w path COLOR_FILE_EXTS)
             item_name source_name ;;
      if found r then Ok r
      else scan_packages w item_name source_name paths' r
  end.

Definition get_color_file (w : world) (source_path item_name
  source_name : string) : result (option candidate) :=
  order <- package_order w source_path ;;
  match order with
  | None => Ok None
  | Some sorted_incoming =>
      scan_packages w item_name source_name sorted_incoming None
  end.

End Collect.

(* ================================================================== *)
(** ** Sample inputs *)

Module Samples.

Import Text Num Re Py Lib Path Collect.

Definition newline : string := String "010" "".

(** Colour correction texts. *)
Definition full_cdl_text : string :=
  "<ColorCorrection><SOPNode><Slope>1.01 1.0 0.99</Slope><Offset>0 0 0.002</Offset><Power>1 1 1</Power></SOPNode><SatNode><Saturation>1.05</Saturation></SatNode></ColorCorrection>".

Definition slope_only_text : string :=
  "<ColorCorrection><SOPNode><Slope>1.01 1.0 0.99</Slope></SOPNode></ColorCorrection>".

Definition no_saturation_text : string :=
  "<ColorCorrection><SOPNode><Slope>1.01 1.0 0.99</Slope><Offset>0 0 0.002</Offset><Power>1 1 1</Power></SOPNode></ColorCorrection>".

(** A slope element whose third number is missing: [float("")] raises. *)
Definition broken_cdl_text : string :=
  "<ColorCorrection><SOPNode><Slope>1.01 1.0 </Slope></SOPNode></ColorCorrection>".

(** What [parse_cdl] makes of [full_cdl_text] read from [path]. *)
Definition full_cdl (path : string) : cdl :=
  Cdl (Some [Qmake 101 100; Qmake 1 1; Qmake 99 100])
      (Some [Qmake 0 1; Qmake 0 1; Qmake 1 500])
      (Some [Qmake 1 1; Qmake 1 1; Qmake 1 1])
      (Some (PFloat (Qmake 21 20))) (Some path).

(** A disk: the files that exist, as text or as bytes that do not decode. *)
Inductive content : Type :=
| Text (s : string)
| Binary.

Definition read_from (disk : list (string * content)) (path : string)
  : result string :=
  match str_get path disk with
  | Some (Text s) => Ok s
  | Some Binary => Raise UnicodeDecodeError
  | None => Raise OSError
  end.

(** The OTIO reader on such a disk: it fails to decode what does not
    decode, and otherwise answers as [parsed] says. *)
Definition otio_from (disk : list (string * content))
  (parsed : string -> result timeline) (path : string) : result timeline :=
  match str_get path disk with
  | Some Binary => Raise UnicodeDecodeError
  | Some (Text _) => parsed path
  | None => Raise OSError
  end.

Definition children_from (dirs : list (string * list string)) (path : string)
  : list string :=
  match str_get path dirs with Some l => l | None => [] end.

Definition is_file_of (disk : list (string * content)) (path : string) : bool :=
  match str_get path disk with Some _ => true | None => false end.

(** A world with the given files, directory listings and OTIO answers;
    every listed child that is not a file is a directory. *)
Definition world_of (disk : list (string * content))
  (dirs : list (string * list string)) (day : string -> Z)
  (parsed : string -> result timeline) : world :=
  World (read_from disk) (otio_from disk parsed) (children_from dirs)
        (fun p => negb (is_file_of disk p)) (is_file_of disk) day
        (fun _ => []).

Definition no_otio (_ : string) : result timeline := Raise Exception.
Definition no_tracks (_ : string) : result timeline := Ok [].

(** *** The priority example: three grade files next to each other *)

Definition example_files : list (string * list string) :=
  [("cc", ["shotA.cc"]); ("ccc", ["shotA.ccc"]); ("cdl", ["shot01.cdl"])].

Definition example_world : world :=
  world_of [("shotA.cc", Text full_cdl_text); ("shotA.ccc", Text full_cdl_text);
            ("shot01.cdl", Text full_cdl_text)] [] (fun _ => 0%Z) no_otio.

(** *** Two look-up tables of the same name *)

Definition lut_files : list (string * list string) :=
  [("csp", ["/in/shota.csp"]); ("cube", ["/in/shota.cube"])].

Definition lut_world : world :=
  world_of [("/in/shota.csp", Text full_cdl_text);
            ("/in/shota.cube", Text full_cdl_text)] [] (fun _ => 0%Z) no_otio.

(** *** An EDL with a graded event and a plain one *)

Definition cut_text : string :=
  "TITLE: demo" ++ newline ++
  "001  A001 V C 01:00:00:00 01:00:05:00 01:00:00:00 01:00:05:00" ++ newline ++
  "* FROM CLIP NAME: plate_a.mov" ++ newline ++
  "* LOC: 01:00:00:00 YELLOW  abc_101_010" ++ newline ++
  "* ASC_SOP (1.0100 1.0000 0.9900)(0.0000 0.0000 0.0020)(1.0000 1.0000 1.0000)" ++ newline ++
  "002  A002 V C 01:00:05:00 01:00:09:00 01:00:05:00 01:00:09:00" ++ newline ++
  "* FROM CLIP NAME: plate_b.mov" ++ newline.

(** The same file seen by a world whose OTIO reader fails on it, so that
    the regex parser is used, and by one whose reader returns two clips. *)
Definition cut_world : world :=
  world_of [("/in/cut.edl", Text cut_text)] [] (fun _ => 0%Z) no_otio.

Definition cut_clips : timeline :=
  [[ IsClip (Clip "plate_a.mov"
               (Some (OtioCdl
                        (Some (OtioSop [Qmake 101 100; Qmake 1 1; Qmake 99 100]
                                       [Qmake 0 1; Qmake 0 1; Qmake 1 500]
                                       [Qmake 1 1; Qmake 1 1; Qmake 1 1]))
                        None))
               ["abc_101_010"] (Some "A001"));
     NotClip;
     IsClip (Clip "plate_b.mov" None [] (Some "A002")) ]].

Definition cut_otio_world : world :=
  world_of [("/in/cut.edl", Text cut_text)] [] (fun _ => 0%Z)
    (fun _ => Ok cut_clips).

(** What [parse_edl_events] returns for it, with and without the filter. *)
Definition cut_color_edl : edl :=
  Eval vm_compute in
    match parse_edl_events cut_world "/in/cut.edl" true with
    | Some r => r
    | None => Edl [] 0 0
    end.

Definition cut_full_edl : edl :=
  Eval vm_compute in
    match parse_edl_events cut_world "/in/cut.edl" false with
    | Some r => r
    | None => Edl [] 0 0
    end.

(** *** Grade files read on their own *)

Definition grade_world (text : string) : world :=
  world_of [("/in/grade.cc", Text text)] [] (fun _ => 0%Z) no_otio.

(** *** An EDL without events, and one that does not decode *)

Definition header_text : string :=
  "TITLE: demo" ++ newline ++ "FCM: NON-DROP FRAME" ++ newline.

(** For a text without events the OTIO reader returns a timeline that has
    no track. *)
Definition header_world : world :=
  world_of [("/in/cut.edl", Text header_text)] [] (fun _ => 0%Z) no_tracks.

Definition binary_world : world :=
  world_of [("/in/cut.edl", Binary)] [] (fun _ => 0%Z) no_tracks.

(** *** Locator comments and marker names *)

Definition loc_comment (token : string) : string :=
  "* LOC: 01:00:00:00 YELLOW  " ++ token.

Definition marked_clip (marker : string) : clip :=
  Clip "plate_a.mov" None [marker] (Some "A001").

(** *** Grade files of which one cannot be parsed *)

Definition pair_files : list (string * list string) :=
  [("cc", ["/in/shota.cc"]); ("ccc", ["/in/shota.ccc"])].

Definition undecodable_cc_world : world :=
  world_of [("/in/shota.cc", Binary); ("/in/shota.ccc", Text full_cdl_text)]
    [] (fun _ => 0%Z) no_otio.

Definition malformed_cc_world : world :=
  world_of [("/in/shota.cc", Text broken_cdl_text);
            ("/in/shota.ccc", Text full_cdl_text)]
    [] (fun _ => 0%Z) no_otio.

Definition with_edl_files : list (string * list string) :=
  [("ccc", ["/in/shota.ccc"]); ("edl", ["/in/cut.edl"])].

Definition undecodable_edl_world : world :=
  world_of [("/in/cut.edl", Binary); ("/in/shota.ccc", Text full_cdl_text)]
    [] (fun _ => 0%Z) no_otio.

(** *** A grade file named after the shot *)

Definition shot_files : list (string * list string) :=
  [("cdl", ["/in/shot01.cdl"])].

Definition shot_world : world :=
  world_of [("/in/shot01.cdl", Text full_cdl_text)] [] (fun _ => 0%Z) no_otio.

(** *** Three incoming packages *)

Definition incoming_dirs : list (string * list string) :=
  [("/proj/show/incoming",
    ["/proj/show/incoming/20240303"; "/proj/show/incoming/20240101";
     "/proj/show/incoming/20240202"])].

(** Media inside a sub-directory of the package of 2 February. *)
Definition nested_source : string :=
  "/proj/show/incoming/20240202/pkgA/plate.exr".




End Samples.

(* ================================================================== *)
(** ** Notions used to state the properties *)

Module Props.

Import Text Num Re Py Lib Path Collect.


(** The first element of least key, found without sorting. *)
Fixpoint first_least {A : Type} (key : A -> Z) (l : list A) : option A :=
  match l with
  | [] => None
  | x :: l' =>
      match first_least key l' with
      | Some m => if (key x <=? key m)%Z then Some x else Some m
      | None => Some x
      end
  end.

(** The files in the order [priority_color_file] visits them when it goes
    through the extensions [exts]: each with its extension. *)
Definition traversal (exts : list string)
  (color_files : list (string * list string)) : list (string * string) :=
  flat_map
    (fun ext =>
       match str_get ext color_files with
       | Some ext_color_files => map (pair ext) ext_color_files
       | None => []
       end) exts.

(** What one visited file adds to [matches]. *)
Definition contribution (w : world) (item_name source_name : string)
  (visit : string * string) : result (list candidate) :=
  file_matches w (lower source_name) (no_color (lower source_name)) item_name
    (fst visit) (snd visit) [].

(** The order of the extensions as the specification gives it. *)
Definition stated_exts : list string :=
  ["cc"; "ccc"; "csp"; "cube"; "3dl"; "lut"; "cdl"; "edl"].

(** The key and the dictionary an edit block of an EDL stands for in the
    regex parser: the value [edl["events"][entry]] takes when the block is
    recorded. *)
Definition edit_entry (edit_value : string) : result (key * event) :=
  sop <- edit_sop edit_value ;;
  n <- entry_number edit_value ;;
  Ok (KStr (py_str_of_int n),
      Event (group_or_empty tape_pattern "source" edit_value)
            (group_or_empty clip_name_pattern "clip_name" edit_value)
            (group_or_empty loc_pattern "LOC" edit_value)
            (match sop with
             | Some (s, o, p) => Some (Color s o p (edit_sat edit_value))
             | None => None
             end)).

(** The dictionary a clip stands for in the OTIO parser. *)
Definition clip_event (c : clip) : result event :=
  match nonempty_cdl c with
  | Some d =>
      match asc_sop d with
      | Some sop =>
          Ok (Event (otio_tape c) (name c) (otio_loc c)
                (Some (Color (sop_slope sop) (sop_offset sop) (sop_power sop)
                         (otio_sat d))))
      | None => Raise KeyError
      end
  | None => Ok (Event (otio_tape c) (name c) (otio_loc c) None)
  end.

(** The clips among the children of a track. *)
Fixpoint clips_of (children : list child) : list clip :=
  match children with
  | [] => []
  | IsClip c :: children' => c :: clips_of children'
  | NotClip :: children' => clips_of children'
  end.

(** An event carries a colour decision. *)
Definition colored (ev : event) : bool :=
  match grade ev with Some _ => true | None => false end.

(** An event is recorded: always when it carries a colour decision, and
    otherwise unless only colour edits are asked for. *)
Definition kept (color_edits_only : bool) (ev : event) : bool :=
  colored ev || negb color_edits_only.

(** Events numbered from [n + 1] on, as the OTIO parser keys them. *)
Fixpoint number_from (n : Z) (evs : list event) : list (key * event) :=
  match evs with
  | [] => []
  | ev :: evs' => (KInt (n + 1), ev) :: number_from (n + 1) evs'
  end.

(** The entries that are recorded. *)
Definition recorded (color_edits_only : bool) (kvs : list (key * event))
  : list (key * event) :=
  filter (fun kv => kept color_edits_only (snd kv)) kvs.

(** Every key of the dictionary is an [int] not above [n]. *)
Definition keys_below (n : Z) (evs : list (key * event)) : Prop :=
  forall kv, In kv evs -> exists j, fst kv = KInt j /\ (j <= n)%Z.

(** *** What a pattern denotes

    [sem r c c'] says that [r] can take the matcher from the cursor [c] to
    the cursor [c'], whatever the order in which [run] tries the ways of
    doing so. *)
Fixpoint iter (R : cursor -> cursor -> Prop) (n : nat) (c c' : cursor) : Prop :=
  match n with
  | O => c' = c
  | S n' => exists c1, R c c1 /\ iter R n' c1 c'
  end.

Definition at_most (hi : option nat) (n : nat) : Prop :=
  match hi with Some h => (n <= h)%nat | None => True end.

Fixpoint sem (r : regex) (c c' : cursor) {struct r} : Prop :=
  match r with
  | Chars p =>
      exists a rest, todo c = String a rest /\ p a = true /\ c' = step c a rest
  | Lit s => pass_lit s c = Some c'
  | Cat r1 r2 => exists c1, sem r1 c c1 /\ sem r2 c1 c'
  | Or r1 r2 => sem r1 c c' \/ sem r2 c c'
  | Repeat _ lo hi body =>
      exists n, (lo <= n)%nat /\ at_most hi n /\ iter (sem body) n c c'
  | Group name body => exists c1, sem body c c1 /\ c' = close_group name c c1
  | Ahead body => (exists c1, sem body c c1) /\ c' = c
  | Behind p => prev_is p c = true /\ c' = c
  | NotBehind p => prev_is p c = false /\ c' = c
  | WordEdge => at_word_edge c = true /\ c' = c
  | EndText => todo c = "" /\ c' = c
  end.

(** A matcher that treats alike two continuations that agree everywhere. *)
Definition respects (body : cursor -> (cursor -> option cursor) -> option cursor)
  : Prop :=
  forall c k k', (forall c', k c' = k' c') -> body c k = body c k'.

(** The whole subject a cursor is in. *)
Definition subject (c : cursor) : string := rev_onto (seen c) (todo c).

(** [c'] is further along the same subject than [c]. *)
Definition further (c c' : cursor) : Prop :=
  exists s, todo c = (s ++ todo c')%string /\ seen c' = rev_onto s (seen c).

(** [l] occurs in [s]. *)
Definition contains (s l : string) : Prop :=
  exists a b, s = (a ++ l ++ b)%string.

(** A sufficient syntactic reason for every match of [r] to contain the
    literal [l]. *)
Fixpoint requires (l : string) (r : regex) : bool :=
  match r with
  | Lit s => String.eqb s l
  | Cat r1 r2 => requires l r1 || requires l r2
  | Or r1 r2 => requires l r1 && requires l r2
  | Repeat _ lo _ body => (0 <? lo)%nat && requires l body
  | Group _ body => requires l body
  | _ => false
  end.

(** A colour dictionary with slope, offset and power all set, and one with
    nothing set. *)
Definition complete (c : cdl) : Prop :=
  cdl_slope c <> None /\ cdl_offset c <> None /\ cdl_power c <> None.

Definition no_decision (c : cdl) : Prop :=
  cdl_slope c = None /\ cdl_offset c = None /\ cdl_power c = None
  /\ cdl_sat c = None.




(** What [get_color_file] computes for one package directory. *)
Definition package_result (w : world) (item_name source_name path : string)
  : result (option candidate) :=
  priority_color_file w (get_files w path COLOR_FILE_EXTS) item_name source_name.

End Props.

(* ================================================================== *)
(** ** Further notions: listings, winners, parser results *)

Module Notions.

Import Text Num Re Py Lib Path Collect Props.

(** The resolved paths of the files found under a package whose suffix is
    [ext], in the order of the glob. *)
Definition has_suffix (ext : string) (found : string * string) : bool :=
  match suffix (fst found) with
  | Some e => String.eqb e ext
  | None => false
  end.

Definition files_of_ext (w : world) (package_path ext : string) : list string :=
  map snd (filter (has_suffix ext) (rglob w package_path)).

(** A list with its first element repeated; no list at all when empty. *)
Definition listed_twice (l : list string) : option (list string) :=
  match l with
  | [] => None
  | f :: fs => Some (f :: f :: fs)
  end.

(** The same listing with every file once: a dictionary with one entry for
    each extension of [filters]. *)
Definition plain_files (w : world) (package_path : string)
  (filters : list string) : list (string * list string) :=
  map (fun ext => (ext, files_of_ext w package_path ext)) filters.

(** The priorities a grade file can obtain, and those of an EDL event. *)
Definition file_priorities : list Z := [0; 1; 3; 4; 5; 7; 8; 9; 11]%Z.
Definition edl_priorities : list Z := [2; 10]%Z.

(** The better of two optional candidates, the first one on a tie. *)
Definition pick {A : Type} (key : A -> Z) (a b : option A) : option A :=
  match a, b with
  | Some x, Some y => if (key x <=? key y)%Z then Some x else Some y
  | Some x, None => Some x
  | None, _ => b
  end.

(** Two outcomes of collecting matches that lead to the same answer: the
    same exception, or lists with the same best match. *)
Definition same_answer (r1 r2 : result (list candidate)) : Prop :=
  match r1, r2 with
  | Ok l1, Ok l2 => first_least priority_of l1 = first_least priority_of l2
  | Raise e1, Raise e2 => e1 = e2
  | _, _ => False
  end.

(** The matches of the files of one extension, on their own. *)
Definition ext_result (w : world) (source_name source_name_no_color
  item_name : string) (color_files : list (string * list string))
  (color_ext : string) : result (list candidate) :=
  match str_get color_ext color_files with
  | Some fs =>
      files_matches w source_name source_name_no_color item_name color_ext fs []
  | None => Ok []
  end.

(** The dictionary obtained by storing entries one after the other. *)
Definition as_dict (kvs : list (key * event)) : list (key * event) :=
  fold_left (fun d kv => dict_set (fst kv) (snd kv) d) kvs [].

End Notions.

(* ================================================================== *)
(** ** Packages with files in them *)

Module Cases.

Import Text Num Re Py Lib Path Collect Props Samples.

(** The recursive glob of a package, from a table of the files under each
    package; every path is its own resolved form. *)
Definition listing_from (tree : list (string * list string)) (path : string)
  : list (string * string) :=
  map (fun p => (p, p)) (children_from tree path).

(** A world with files, directory listings and package contents. *)
Definition delivery_of (disk : list (string * content))
  (dirs tree : list (string * list string)) : world :=
  World (read_from disk) (otio_from disk no_otio) (children_from dirs)
        (fun p => negb (is_file_of disk p)) (is_file_of disk) (fun _ => 0%Z)
        (listing_from tree).

Definition old_grade : string :=
  "/proj/show/incoming/20240101/grades/shota.ccc".

Definition old_notes : string :=
  "/proj/show/incoming/20240101/grades/notes.txt".

Definition delivery_tree : list (string * list string) :=
  [("/proj/show/incoming/20240101", [old_notes; old_grade]);
   ("/proj/show/incoming/20240202", [nested_source])].

(** The three packages, with a grade file for the source in the oldest. *)
Definition graded_world : world :=
  delivery_of [(nested_source, Binary); (old_grade, Text full_cdl_text);
               (old_notes, Text "keep")]
    incoming_dirs delivery_tree.

(** The same, the grade file holding a malformed number. *)
Definition spoiled_world : world :=
  delivery_of [(nested_source, Binary); (old_grade, Text broken_cdl_text);
               (old_notes, Text "keep")]
    incoming_dirs delivery_tree.

(** Media that is not under an incoming directory. *)
Definition library_source : string := "/proj/show/library/plates/plate.exr".

(** What the OTIO parser returns for the cut with two clips, with the
    filter. *)
Definition cut_otio_color_edl : edl :=
  Eval vm_compute in
    match otio_parse_edl_events cut_otio_world "/in/cut.edl" true with
    | Ok r => r
    | Raise _ => Edl [] 0 0
    end.

(** A cut in which two blocks carry the number 1. *)
Definition twice_text : string :=
  "TITLE: demo" ++ newline ++
  "001  A001 V C 01:00:00:00 01:00:05:00 01:00:00:00 01:00:05:00" ++ newline ++
  "* FROM CLIP NAME: plate_a.mov" ++ newline ++
  "001  A002 V C 01:00:05:00 01:00:09:00 01:00:05:00 01:00:09:00" ++ newline ++
  "* FROM CLIP NAME: plate_b.mov" ++ newline.

Definition twice_world : world :=
  world_of [("/in/cut.edl", Text twice_text)] [] (fun _ => 0%Z) no_otio.

Definition twice_edl : edl :=
  Eval vm_compute in
    match regex_parse_edl_events twice_world "/in/cut.edl" false with
    | Ok r => r
    | Raise _ => Edl [] 0 0
    end.

(** The priorities that can be obtained without a match on the shot name. *)
Definition source_priorities : list Z := [0; 1; 2; 3; 4; 5; 7]%Z.

End Cases.

(* ================================================================== *)
(** ** The dialog for a missing colour file, and [process] *)

Module Dialog.

Import Text Num Re Py Lib Path Collect.

(** [d[k] = v] on an insertion-ordered dictionary with [str] keys. *)
Fixpoint str_set {V : Type} (k : string) (v : V) (d : list (string * V))
  : list (string * V) :=
  match d with
  | [] => [(k, v)]
  | (k', v') :: d' =>
      if String.eqb k' k then (k', v) :: d' else (k', v') :: str_set k v d'
  end.

(** [s.rsplit(".", 1)[-1]] *)
Definition last_field (s : string) : string :=
  match rcut "." s with
  | Some (_, r) => r
  | None => s
  end.

(** Source: "\/proj\/.*\/incoming", where the escaped slash is the slash
    itself; it is used with [re.match], at the start of the path. *)
Definition show_incoming_pattern : regex :=
  cat_all [Lit "/proj/"; star (Chars dot); Lit "/incoming"].

(** [re.match(r, s)] as a truth value. *)
Definition matches_start (r : regex) (s : string) : bool :=
  match match_at r "" s with
  | Some _ => true
  | None => false
  end.

(** *** [MissingColorFile.set_edl_info]

    What the widgets show for the value of the entry spin box: nothing is
    done while [self.edl] is empty or [False]; otherwise the event is looked
    up under the [int] the spin box holds, and its colour decision is shown
    when its slope is not empty. *)
Record edl_view : Type := View {
  tape_name : string;
  clip_name_text : string;
  loc_name : string;
  sops : option color
}.

Definition set_edl_info (parsed : option edl) (event_number : Z)
  : result (option edl_view) :=
  match parsed with
  | Some d =>
      event_info <- of_option KeyError (dict_get (KInt event_number) (events d)) ;;
      Ok (Some (View (tape event_info) (clip_name event_info) (LOC event_info)
                  (match grade event_info with
                   | Some g => match slope g with [] => None | _ => Some g end
                   | None => None
                   end)))
  | None => Ok None
  end.

(** *** The dictionaries stored as [shot_grade] *)

Inductive info_value : Type :=
| IParsed (c : cdl)                     (* the cdl of [get_color_file] *)
| IGrade (slope_ offset_ power_ : list value) (sat_ : value)
                                        (* a cdl written out in the dialog *)
| IStr (s : string)
| IBool (b : bool)
| IInt (n : Z).

(** A dictionary with [str] keys, in insertion order. *)
Definition info : Type := list (string * info_value).

(** [not d] *)
Definition is_empty (d : info) : bool :=
  match d with [] => true | _ => false end.

(** *** The dialog

    The widgets the handlers read. *)
Record form : Type := Form {
  file_path_input : string;
  entry_number_value : Z;
  slope_r_input : string;
  slope_g_input : string;
  slope_b_input : string;
  offset_r_input : string;
  offset_g_input : string;
  offset_b_input : string;
  power_r_input : string;
  power_g_input : string;
  power_b_input : string;
  sat_input : string
}.

(** The attributes of a dialog object that the handlers assign.  [data] is
    an attribute of the class, a dictionary shared by all the dialogs:
    [own_data] is [None] until a handler assigns [self.data], and reads and
    item assignments of [self.data] go to the dictionary of the class until
    then. *)
Record dialog : Type := Dlg {
  own_data : option info;
  ignore_grade : bool
}.

(** A dialog as [MissingColorFile(...)] creates it. *)
Definition new_dialog : dialog := Dlg None false.

(** The state the handlers work on: the dictionary of the class and the
    dialog object. *)
Definition state : Type := (info * dialog)%type.

(** [self.data] *)
Definition data_of (st : state) : info :=
  match own_data (snd st) with
  | Some d => d
  | None => fst st
  end.

(** [self.data[k] = v] *)
Definition store (k : string) (v : info_value) (st : state) : state :=
  match own_data (snd st) with
  | Some d => (fst st, Dlg (Some (str_set k v d)) (ignore_grade (snd st)))
  | None => (str_set k v (fst st), snd st)
  end.

(** What a handler leaves the dialog in: still open, accepted or
    rejected. *)
Inductive signal : Type :=
| Open
| Accepted
| Rejected.

Definition blank_cdl : info_value :=
  IGrade [PInt 1; PInt 1; PInt 1] [PInt 0; PInt 0; PInt 0]
         [PInt 1; PInt 1; PInt 1] (PInt 1).

Definition blank_grade (st : state) : state * signal :=
  (store "type" (IStr "ccc")
     (store "ignore" (IBool false)
        (store "path" (IStr "")
           (store "cdl" blank_cdl st))),
   Accepted).

Definition set_ignore (st : state) : state * signal :=
  (store "ignore" (IBool true) (fst st, Dlg (own_data (snd st)) true),
   Accepted).

(** The cdl [set_data] reads from the inputs. *)
Definition form_cdl (f : form) : info_value :=
  IGrade [PStr (slope_r_input f); PStr (slope_g_input f); PStr (slope_b_input f)]
         [PStr (offset_r_input f); PStr (offset_g_input f); PStr (offset_b_input f)]
         [PStr (power_r_input f); PStr (power_g_input f); PStr (power_b_input f)]
         (PStr (sat_input f)).

Definition set_data (f : form) (st : state) : state :=
  let file_path := file_path_input f in
  let color_ext := last_field file_path in
  let data := if String.eqb color_ext "edl" then [("cdl", form_cdl f)] else [] in
  let data :=
    str_set "ignore" (IBool (ignore_grade (snd st)))
      (str_set "type" (IStr color_ext)
         (str_set "event" (IInt (entry_number_value f))
            (str_set "path" (IStr file_path) data))) in
  (fst st, Dlg (Some data) (ignore_grade (snd st))).

(** [self.data["cdl"]["slope"][0] == "NA"] on what [set_data] stored. *)
Definition no_color_data (f : form) : bool := String.eqb (slope_r_input f) "NA".

Definition check_and_accept (w : world) (f : form) (st : state)
  : state * signal :=
  let color_file_path := file_path_input f in
  let color_file_path_ext := last_field color_file_path in
  if negb (isfile w color_file_path) then (st, Open)
  else if negb (matches_start show_incoming_pattern color_file_path)
  then (st, Open)
  else if negb (mem color_file_path_ext COLOR_FILE_EXTS) then (st, Open)
  else
    let st' := set_data f st in
    if String.eqb color_file_path_ext "edl" && no_color_data f
    then (st', Open)
    else (st', Accepted).

Definition cancel (st : state) : state * signal :=
  ((fst st, Dlg (Some []) (ignore_grade (snd st))), Rejected).

(** What the user does: a button is pressed, with the inputs as they are at
    that moment for the Accept button, or the window is closed. *)
Inductive press : Type :=
| PressAccept (f : form)
| PressBlank
| PressIgnore
| PressCancel
| CloseWindow.

Definition handle (w : world) (p : press) (st : state) : state * signal :=
  match p with
  | PressAccept f => check_and_accept w f st
  | PressBlank => blank_grade st
  | PressIgnore => set_ignore st
  | PressCancel => cancel st
  | CloseWindow => (st, Rejected)
  end.

(** [dialog.exec()]: the presses are handled until one closes the dialog;
    [None] while it is still open. *)
Fixpoint exec (w : world) (st : state) (presses : list press)
  : option (state * bool) :=
  match presses with
  | [] => None
  | p :: presses' =>
      match handle w p st with
      | (st', Open) => exec w st' presses'
      | (st', Accepted) => Some (st', true)
      | (st', Rejected) => Some (st', false)
      end
  end.

(** *** [CollectColorFile.process] *)

(** What [process] reads from the instance. *)
Record plate : Type := Plate {
  item_name : string;
  source_name : string;
  source_path : string
}.

(** The object stored as [instance.data["shot_grade"]]: a dictionary of its
    own, or the dictionary of the dialog class itself. *)
Inductive grade_ref : Type :=
| Own (d : info)
| ClassData.

(** The dictionary a reference stands for, given the dictionary of the
    class as it is now. *)
Definition deref (cls : info) (r : grade_ref) : info :=
  match r with
  | Own d => d
  | ClassData => cls
  end.

(** [color_info] for a file the lookup found. *)
Definition found_info (c : cdl) (color_file : string) : info :=
  let color_ext := last_field color_file in
  let color_info :=
    if String.eqb color_ext "edl" then [("cdl", IParsed c)] else [] in
  str_set "ignore" (IBool false)
    (str_set "type" (IStr color_ext)
       (str_set "path" (IStr color_file) color_info)).

(** The lookup [process] does before it shows the dialog. *)
Definition lookup (w : world) (p : plate) : result (option candidate) :=
  if matches_start show_incoming_pattern (source_path p)
  then get_color_file w (source_path p) (item_name p) (source_name p)
  else Ok None.

(** [dialog.data] as an object. *)
Definition dialog_data (st : state) : grade_ref :=
  match own_data (snd st) with
  | Some d => Own d
  | None => ClassData
  end.

(** The part of [process] that shows the dialog, [color_info] being empty
    so far: [None] while the dialog is open. *)
Definition ask (w : world) (cls : info) (presses : list press)
  : option (info * result grade_ref) :=
  match exec w (cls, new_dialog) presses with
  | None => None
  | Some (st, dialog_result) =>
      let color_info := if dialog_result then dialog_data st else Own [] in
      if is_empty (deref (fst st) color_info)
      then Some (fst st, Raise Exception)
      else Some (fst st, Ok color_info)
  end.

(** [process], for the dictionary of the dialog class as it is when the
    call starts and what the user does if the dialog is shown: the
    dictionary of the class afterwards, and the exception raised or the
    object stored as shot grade. *)
Definition process (w : world) (cls : info) (p : plate) (presses : list press)
  : option (info * result grade_ref) :=
  match lookup w p with
  | Raise e => Some (cls, Raise e)
  | Ok (Some (_, c, color_file)) =>
      if negb (String.eqb color_file "")
      then Some (cls, Ok (Own (found_info c color_file)))
      else ask w cls presses
  | Ok None => ask w cls presses
  end.

End Dialog.

(* ================================================================== *)
(** ** Track items, names and hierarchy in [lib] *)

Module Items.

Import Text Num Re Py Lib Path Dialog.

(** *** [is_overlapping] *)

(** What the function reads of a track item. *)
Record track_item : Type := TrackItem {
  timelineIn : Z;
  timelineOut : Z
}.

Definition is_overlapping (ti_test ti_original : track_item) (strict : bool)
  : bool :=
  let covering_exp :=
    (timelineIn ti_test <=? timelineIn ti_original)%Z
    && (timelineOut ti_test >=? timelineOut ti_original)%Z in
  if strict then covering_exp
  else
    let inside_exp :=
      (timelineIn ti_test >=? timelineIn ti_original)%Z
      && (timelineOut ti_test <=? timelineOut ti_original)%Z in
    let overlaying_right_exp :=
      (timelineIn ti_test <? timelineOut ti_original)%Z
      && (timelineOut ti_test >=? timelineOut ti_original)%Z in
    let overlaying_left_exp :=
      (timelineOut ti_test >? timelineIn ti_original)%Z
      && (timelineIn ti_test <=? timelineIn ti_original)%Z in
    covering_exp || inside_exp || overlaying_right_exp || overlaying_left_exp.

(** *** [split_by_client_version] *)

(** Source: "[/_.]v\d+" with [re.IGNORECASE], under which the letter
    matches in either case. *)
Definition version_mark (c : ascii) : bool :=
  is_char "/" c || is_char "_" c || is_char "." c.

Definition letter_v (c : ascii) : bool := Ascii.eqb (lower_char c) "v".

Definition version_pattern : regex :=
  cat_all [Chars version_mark; Chars letter_v; plus digit].

(** [re.findall(r, s)] for a pattern without groups. *)
Definition findall (r : regex) (s : string) : list string :=
  map m_text (finditer r s).

(** [s.split(sep)] for a separator that is not empty. *)
Fixpoint split_on (sep s : string) (fuel : nat) : list string :=
  match fuel with
  | O => [s]
  | S fuel' =>
      match cut sep s with
      | Some (l, r) => l :: split_on sep r fuel'
      | None => [s]
      end
  end.

Definition split (s sep : string) : list string :=
  split_on sep s (String.length s).

(** [None] is the value returned when [matches[0]] raises. *)
Definition split_by_client_version (s : string) : option (list string) :=
  match findall version_pattern s with
  | [] => None
  | first :: _ => Some (split s first)
  end.

(** [split_by_client_version(name)[0] or name] in
    [create_nuke_workfile_clips]; subscripting [None] raises a
    [TypeError]. *)
Inductive named : Type :=
| Name (s : string)
| TypeError.

Definition split_name (name : string) : named :=
  match split_by_client_version name with
  | None => TypeError
  | Some parts =>
      match parts with
      | [] => Name name
      | p :: _ => if String.eqb p "" then Name name else Name p
      end
  end.

(** *** [get_sequence_pattern_and_padding] *)








(** *** [get_entity_hierarchy], [get_hierarchy_data],
    [get_hierarchy_parents]

    The environment [get_hierarchy_env] returns is a dictionary from names
    to text. *)
Definition truthy (s : string) : bool := negb (String.eqb s "").

Definition set_if (key : string) (o : option string)
  (d : list (string * string)) : list (string * string) :=
  match o with
  | Some v => if truthy v then str_set key v d else d
  | None => d
  end.

Definition get_entity_hierarchy (hierarchy_env : list (string * string))
  : list (string * string) :=
  let folder_entities := [] in
  let folder_entities :=
    set_if "episode" (str_get "EPISODE" hierarchy_env) folder_entities in
  let folder_entities :=
    set_if "sequence" (str_get "SEQ" hierarchy_env) folder_entities in
  let folder_entities :=
    set_if "shot" (str_get "SHOT" hierarchy_env) folder_entities in
  let folder :=
    match str_get "ASSET_TYPE" hierarchy_env with
    | Some v => if truthy v then "asset" else "shots"
    | None => "shots"
    end in
  str_set "folder" folder folder_entities.

Definition get_hierarchy_data (hierarchy_env : list (string * string))
  (track_name : string) : list (string * string) :=
  str_set "track" track_name (get_entity_hierarchy hierarchy_env).

(** An element of [parents]. *)
Record parent : Type := Parent {
  folder_type : string;
  entity_name : string
}.

Definition get_hierarchy_parents (hierarchy_data : list (string * string))
  : list parent :=
  let parents_types := ["folder"; "episode"; "sequence"] in
  flat_map
    (fun kv => if mem (fst kv) parents_types
               then [Parent (fst kv) (snd kv)] else [])
    hierarchy_data.

(** The parent an entry of the environment gives: none when the entry is
    missing or empty. *)
Definition parent_if (folder_type_ : string) (o : option string)
  : list parent :=
  match o with
  | Some v => if truthy v then [Parent folder_type_ v] else []
  | None => []
  end.

Definition folder_of (hierarchy_env : list (string * string)) : string :=
  match str_get "ASSET_TYPE" hierarchy_env with
  | Some v => if truthy v then "asset" else "shots"
  | None => "shots"
  end.

(** *** [set_framing_info] *)

(** What the function reads of the track item; the handle lengths are
    numbers that [int] truncates. *)
Record framed_item : Type := FramedItem {
  handleInLength : Q;
  handleOutLength : Q;
  duration : Z
}.

(** [int(q)] for a number: towards zero. *)
Definition truncate (q : Q) : Z := Z.quot (Qnum q) (Z.pos (Qden q)).

(** [int(v)] *)
Definition int_of (v : value) : result Z :=
  match v with
  | PInt n => Ok n
  | PFloat q => Ok (truncate q)
  | PStr s => of_option ValueError (py_int s)
  end.

(** [d[k]] *)
Definition item {V : Type} (k : string) (d : list (string * V)) : result V :=
  of_option KeyError (str_get k d).

Definition is_str (v : value) (s : string) : bool :=
  match v with
  | PStr t => String.eqb t s
  | _ => false
  end.

Definition set_framing_info (cut_info : list (string * value))
  (track_item_ : framed_item) : result (list (string * value)) :=
  v <- item "cut_in" cut_info ;;
  cut_in <- int_of v ;;
  let cut_info := str_set "cut_in" (PInt cut_in) cut_info in
  let cut_range :=
    match str_get "cut_range" cut_info with
    | Some v => v
    | None => PStr "True"
    end in
  cut_info <-
    (if is_str cut_range "False" then
       Ok (str_set "tail_handles"
             (PInt (truncate (handleOutLength track_item_)))
             (str_set "head_handles"
                (PInt (truncate (handleInLength track_item_))) cut_info))
     else
       h <- item "head_handles" cut_info ;;
       head <- int_of h ;;
       let cut_info := str_set "head_handles" (PInt head) cut_info in
       t <- item "tail_handles" cut_info ;;
       tail <- int_of t ;;
       Ok (str_set "tail_handles" (PInt tail) cut_info)) ;;
  Ok (str_set "cut_out" (PInt (cut_in + duration track_item_ - 1)) cut_info).

End Items.

(* ================================================================== *)
(** ** Notions and samples for the dialog *)

Module Sessions.

Import Text Num Re Py Lib Path Collect Samples Cases Dialog.

(** A path is one the Accept button lets through. *)
Definition checked (w : world) (f : string) : Prop :=
  isfile w f = true
  /\ matches_start show_incoming_pattern f = true
  /\ In (last_field f) COLOR_FILE_EXTS.

(** What holds of the dictionary of a dialog while the dialog is open. *)
Definition sound_own (w : world) (d : info) : Prop :=
  forall f, str_get "path" d = Some (IStr f) -> f <> "" ->
    checked w f
    /\ str_get "type" d = Some (IStr (last_field f))
    /\ (last_field f = "edl" ->
        exists fm, str_get "cdl" d = Some (form_cdl fm)).

Definition sound_state (w : world) (st : state) : Prop :=
  ignore_grade (snd st) = false
  /\ forall d, own_data (snd st) = Some d -> sound_own w d.

(** A plate in the package of 2 February, and one outside the show's
    incoming directory. *)
Definition nested_plate : plate := Plate "shot010" "shota" nested_source.
Definition library_plate : plate := Plate "shot010" "shota" library_source.

(** The inputs when the file of the oldest package is picked by hand, and
    what [set_data] makes of them. *)
Definition grade_form : form :=
  Form old_grade 1 "NA" "NA" "NA" "NA" "NA" "NA" "NA" "NA" "NA" "NA".

Definition picked_data : info :=
  Eval vm_compute in
    match own_data (snd (set_data grade_form ([], new_dialog))) with
    | Some d => d
    | None => []
    end.

(** A cut info tag as it is read, with text values, and what
    [set_framing_info] makes of it for an item of 48 frames. *)
Definition plain_tag : list (string * value) :=
  [("cut_in", PStr "1001"); ("head_handles", PStr "8");
   ("tail_handles", PStr "8"); ("cut_range", PStr "True")].

Definition framed_tag : list (string * value) :=
  Eval vm_compute in
    match Items.set_framing_info plain_tag (Items.FramedItem (17 # 2) 8 48) with
    | Ok d => d
    | Raise _ => []
    end.

End Sessions.

(* ================================================================== *)
(** ** Facts about [sorted] and the choice of the best match *)

Module SortFacts.

Import Py Lib Collect Props.

Section Stable.

Context {A : Type} (key : A -> Z).





Lemma head_insert_by (x : A) (l : list A) :
  hd_error (insert_by key x l) =
  match hd_error l with
  | Some m => if (key x <=? key m)%Z then Some x else Some m
  | None => Some x
  end.
Proof.
  destruct l as [|y l]; simpl; [reflexivity|].
  destruct (key x <=? key y)%Z; reflexivity.
Qed.

Lemma head_sorted_by (l : list A) :
  hd_error (sorted_by key l) = first_least key l.
Proof.
  induction l as [|x l IH]; simpl; [reflexivity|].
  rewrite head_insert_by, IH. reflexivity.
Qed.

(** The first least element splits the list: everything before it has a
    strictly larger key, nothing after it has a smaller one. *)
Lemma first_least_split (l : list A) (m : A) :
  first_least key l = Some m ->
  exists l1 l2,
    l = l1 ++ m :: l2 /\
    Forall (fun x => (key m < key x)%Z) l1 /\
    Forall (fun x => (key m <= key x)%Z) l2.
Proof.
  revert m. induction l as [|x l IH]; simpl; intros m H; [discriminate|].
  destruct (first_least key l) as [m'|] eqn:E.
  - destruct (IH m' eq_refl) as (l1 & l2 & -> & H1 & H2).
    destruct (key x <=? key m')%Z eqn:L; inversion H; subst m; clear H.
    + apply Z.leb_le in L. exists [], (l1 ++ m' :: l2). repeat split.
      * constructor.
      * apply Forall_app. split.
        -- eapply Forall_impl; [|exact H1]. simpl. intros; lia.
        -- constructor; [exact L|].
           eapply Forall_impl; [|exact H2]. simpl. intros; lia.
    + apply Z.leb_gt in L. exists (x :: l1), l2. repeat split.
      * constructor; [lia | exact H1].
      * exact H2.
  - inversion H; subst m; clear H. destruct l as [|y l].
    + exists [], []. repeat split; constructor.
    + simpl in E. destruct (first_least key l) as [m''|];
        [destruct (key y <=? key m'')%Z|]; discriminate.
Qed.

Lemma first_least_none (l : list A) : first_least key l = None -> l = [].
Proof.
  destruct l as [|x l]; simpl; [reflexivity|].
  destruct (first_least key l) as [m|]; [destruct (key x <=? key m)%Z|]; discriminate.
Qed.

End Stable.

Lemma best_first_least (matches : list candidate) :
  best matches = first_least priority_of matches.
Proof.
  unfold best. rewrite <- head_sorted_by.
  destruct (sorted_by priority_of matches); reflexivity.
Qed.

End SortFacts.

(* ================================================================== *)
(** ** The priority example *)

Module PriorityExample.

Import Text Num Re Py Lib Path Collect Props Samples SortFacts.

(** C1, as the code has it.  For the source name shotA_cc, the shot name
    shot01 and the files shotA.cc, shotA.ccc and shot01.cdl, whatever the
    three files parse to: the stems of shotA.cc and shotA.ccc differ from
    the lower-cased source name shota_cc and equal only its form without
    the colour tag, which is worth 4, so that the matches are shotA.ccc at
    4 + 1 = 5, shotA.cc at 4 + 0 = 4 and shot01.cdl at 8 + 3 = 11, and the
    triple returned is shotA.cc with priority 4. *)
Theorem priority_example (w : world) (c_cc c_ccc c_cdl : cdl) :
  parse_cdl w "shotA.cc" = Ok c_cc ->
  parse_cdl w "shotA.ccc" = Ok c_ccc ->
  parse_cdl w "shot01.cdl" = Ok c_cdl ->
  collect_matches w COLOR_FILE_EXTS example_files "shot01" "shotA_cc"
    = Ok [ (5%Z, c_ccc, "shotA.ccc"); (4%Z, c_cc, "shotA.cc");
           (11%Z, c_cdl, "shot01.cdl") ]
  /\ priority_color_file w example_files "shot01" "shotA_cc"
    = Ok (Some (4%Z, c_cc, "shotA.cc")).
Proof.
  intros Hcc Hccc Hcdl.
  assert (M : collect_matches w COLOR_FILE_EXTS example_files "shot01" "shotA_cc"
    = Ok [ (5%Z, c_ccc, "shotA.ccc"); (4%Z, c_cc, "shotA.cc");
           (11%Z, c_cdl, "shot01.cdl") ]).
  { cbv -[parse_cdl parse_edl_events].
    rewrite Hccc. cbv -[parse_cdl parse_edl_events].
    rewrite Hcc. cbv -[parse_cdl parse_edl_events].
    rewrite Hcdl. reflexivity. }
  split; [exact M|].
  unfold priority_color_file. rewrite M. reflexivity.
Qed.

Lemma priority_example_witness :
  priority_color_file example_world example_files "shot01" "shotA_cc"
  = Ok (Some (4%Z, full_cdl "shotA.cc", "shotA.cc")).
Proof.
  apply (priority_example example_world (full_cdl "shotA.cc")
           (full_cdl "shotA.ccc") (full_cdl "shot01.cdl"));
    vm_compute; reflexivity.
Defined.

(** C1 as stated fails: on that input the triple returned does not have
    priority 0. *)
Lemma priority_example_not_zero :
  ~ (exists c,
       priority_color_file example_world example_files "shot01" "shotA_cc"
       = Ok (Some (0%Z, c, "shotA.cc"))).
Proof.
  intros [c H]. vm_compute in H. discriminate H.
Qed.

End PriorityExample.

(* ================================================================== *)
(** ** The order of [matches] and the tie-break *)

Module Traversal.

Import Text Num Re Py Lib Path Collect Props Samples SortFacts.

Lemma bind_ok {A B : Type} (m : result A) (f : A -> result B) (b : B) :
  (x <- m ;; f x) = Ok b -> exists a, m = Ok a /\ f a = Ok b.
Proof.
  destruct m as [a|e]; simpl; intros H; [eauto | discriminate].
Qed.

Section Loop.

Variable w : world.
Variables source_name source_name_no_color item_name : string.

Lemma edl_matches_app (color_file : string) (evs : list (key * event))
  (acc : list candidate) :
  edl_matches source_name item_name color_file evs acc =
  (new <- edl_matches source_name item_name color_file evs [] ;; Ok (acc ++ new)).
Proof.
  revert acc. induction evs as [|[k ev] evs IH]; intros acc; simpl.
  - rewrite app_nil_r. reflexivity.
  - destruct (event_cdl ev) as [c|e]; simpl; [|reflexivity].
    destruct (loc_priority source_name item_name ev) as [p|].
    + rewrite IH. rewrite (IH [_]).
      destruct (edl_matches source_name item_name color_file evs []) as [new|e];
        simpl; [|reflexivity].
      rewrite <- app_assoc. reflexivity.
    + apply IH.
Qed.

Lemma file_matches_app (color_ext color_file : string) (acc : list candidate) :
  file_matches w source_name source_name_no_color item_name color_ext
    color_file acc =
  (new <- file_matches w source_name source_name_no_color item_name color_ext
            color_file [] ;;
   Ok (acc ++ new)).
Proof.
  unfold file_matches.
  destruct (negb (color_ext =? "edl")%string).
  - destruct (name_priority _ _ _ _) as [p|]; simpl.
    + destruct (parse_cdl w color_file) as [c|e]; reflexivity.
    + rewrite app_nil_r. reflexivity.
  - destruct (parse_edl_events w color_file true) as [edits|]; simpl.
    + apply edl_matches_app.
    + rewrite app_nil_r. reflexivity.
Qed.

Lemma files_matches_concat (color_ext : string) (fs : list string)
  (acc r : list candidate) :
  files_matches w source_name source_name_no_color item_name color_ext fs acc
    = Ok r ->
  exists per,
    Forall2 (fun f ms =>
               file_matches w source_name source_name_no_color item_name
                 color_ext f [] = Ok ms) fs per
    /\ r = acc ++ concat per.
Proof.
  revert acc. induction fs as [|f fs IH]; intros acc; simpl; intros H.
  - inversion H; subst. exists []. split; [constructor|].
    simpl. rewrite app_nil_r. reflexivity.
  - apply bind_ok in H. destruct H as (acc' & H1 & H2).
    rewrite file_matches_app in H1. apply bind_ok in H1.
    destruct H1 as (new & Hn & E). inversion E; subst acc'; clear E.
    destruct (IH _ H2) as (per & HF & ->).
    exists (new :: per). split; [constructor; assumption|].
    simpl. rewrite app_assoc. reflexivity.
Qed.

Lemma exts_matches_concat (color_files : list (string * list string))
  (exts : list string) (acc r : list candidate) :
  exts_matches w color_files source_name source_name_no_color item_name exts acc
    = Ok r ->
  exists per,
    Forall2 (fun visit ms =>
               file_matches w source_name source_name_no_color item_name
                 (fst visit) (snd visit) [] = Ok ms)
            (traversal exts color_files) per
    /\ r = acc ++ concat per.
Proof.
  revert acc. induction exts as [|ext exts IH]; intros acc; simpl; intros H.
  - inversion H; subst. exists []. split; [constructor|].
    simpl. rewrite app_nil_r. reflexivity.
  - apply bind_ok in H. destruct H as (acc' & H1 & H2).
    destruct (IH _ H2) as (per2 & HF2 & ->).
    destruct (str_get ext color_files) as [fs|].
    + apply files_matches_concat in H1. destruct H1 as (per1 & HF1 & ->).
      exists (per1 ++ per2). split.
      * apply Forall2_app; [|exact HF2].
        clear -HF1. induction HF1; simpl; constructor; assumption.
      * rewrite concat_app, app_assoc. reflexivity.
    + inversion H1; subst acc'. exists per2. split; [exact HF2 | reflexivity].
Qed.

End Loop.

(** C6, as the code has it.  The extensions are visited in the order
    ccc, cc, cdl, cube, 3dl, csp, lut, edl and the files of an extension in
    the order of their list; [matches] is the concatenation, in that order,
    of what each visited file contributes; the triple returned is the first
    element of [matches] of least priority, so that of two candidates of
    equal priority the one met first wins; and the result is a function of
    the inputs. *)
Theorem tie_break_first_met (w : world)
  (color_files : list (string * list string)) (item_name source_name : string)
  (matches : list candidate) :
  collect_matches w COLOR_FILE_EXTS color_files item_name source_name
    = Ok matches ->
  COLOR_FILE_EXTS = ["ccc"; "cc"; "cdl"; "cube"; "3dl"; "csp"; "lut"; "edl"]
  /\ (exists per,
        Forall2 (fun visit ms => contribution w item_name source_name visit = Ok ms)
                (traversal COLOR_FILE_EXTS color_files) per
        /\ matches = concat per)
  /\ priority_color_file w color_files item_name source_name = Ok (best matches)
  /\ (best matches = None -> matches = [])
  /\ (forall m, best matches = Some m ->
        exists l1 l2,
          matches = l1 ++ m :: l2
          /\ Forall (fun x => (priority_of m < priority_of x)%Z) l1
          /\ Forall (fun x => (priority_of m <= priority_of x)%Z) l2)
  /\ (forall r1 r2,
        priority_color_file w color_files item_name source_name = r1 ->
        priority_color_file w color_files item_name source_name = r2 ->
        r1 = r2).
Proof.
  intros H. split; [reflexivity|]. split.
  - unfold collect_matches in H. apply exts_matches_concat in H.
    destruct H as (per & HF & ->). exists per. split; [exact HF | reflexivity].
  - split; [unfold priority_color_file; rewrite H; reflexivity|].
    rewrite best_first_least. split; [apply first_least_none|]. split.
    + intros m Hm. apply first_least_split. exact Hm.
    + intros r1 r2 <- <-. reflexivity.
Qed.

Lemma tie_break_first_met_witness :
  exists m,
    priority_color_file lut_world lut_files "shot010" "shota" = Ok (Some m)
    /\ file_of m = "/in/shota.cube".
Proof.
  destruct (tie_break_first_met lut_world lut_files "shot010" "shota"
              [ (0%Z, full_cdl "/in/shota.cube", "/in/shota.cube");
                (0%Z, full_cdl "/in/shota.csp", "/in/shota.csp") ])
    as (_ & _ & H & _).
  - vm_compute. reflexivity.
  - eexists. split; [exact H | reflexivity].
Defined.

(** C6 as stated fails: with a .csp and a .cube file of the same name, both
    of priority 0, the code returns the .cube file, met first in its own
    order, while the stated order cc, ccc, csp, cube, ... meets the .csp
    file first. *)
Lemma stated_extension_order_refuted :
  ~ (priority_color_file lut_world lut_files "shot010" "shota"
     = (ms <- collect_matches lut_world stated_exts lut_files "shot010" "shota" ;;
        Ok (best ms))).
Proof.
  vm_compute. discriminate.
Qed.

End Traversal.

(* ================================================================== *)
(** ** The matcher finds only what the pattern denotes *)

Module ReFacts.

Import Text Num Re Py Lib Path Collect Props.

Lemma repeat_loop_sound
  (body : cursor -> (cursor -> option cursor) -> option cursor)
  (R : cursor -> cursor -> Prop)
  (Hbody : forall c k m, body c k = Some m -> exists c', R c c' /\ k c' = Some m)
  (greedy : bool) (lo : nat) (hi : option nat) (k : cursor -> option cursor)
  (m : cursor) :
  forall fuel n c,
    repeat_loop body greedy lo hi k fuel n c = Some m ->
    at_most hi n ->
    exists j c', (lo <= n + j)%nat /\ at_most hi (n + j)
                 /\ iter R j c c' /\ k c' = Some m.
Proof.
  assert (Stop : forall n c, (if (lo <=? n)%nat then k c else None) = Some m ->
                   at_most hi n ->
                   exists j c', (lo <= n + j)%nat /\ at_most hi (n + j)
                                /\ iter R j c c' /\ k c' = Some m).
  { intros n c H Hn. destruct (lo <=? n)%nat eqn:E; [|discriminate].
    apply Nat.leb_le in E. exists 0%nat, c. rewrite Nat.add_0_r.
    repeat split; auto. }
  induction fuel as [|fuel IH]; intros n c H Hn; simpl in H.
  - apply Stop; assumption.
  - assert (Again :
      (if within hi n then
         body c (fun c' =>
           if (String.length (todo c') <? String.length (todo c))%nat
           then repeat_loop body greedy lo hi k fuel (S n) c' else None)
       else None) = Some m ->
      exists j c', (lo <= n + j)%nat /\ at_most hi (n + j)
                   /\ iter R j c c' /\ k c' = Some m).
    { intros HA. destruct (within hi n) eqn:W; [|discriminate].
      apply Hbody in HA. destruct HA as (c1 & R1 & HA).
      destruct (String.length (todo c1) <? String.length (todo c))%nat;
        [|discriminate].
      assert (Hn' : at_most hi (S n)).
      { unfold within in W. unfold at_most. destruct hi as [h|]; [|exact I].
        apply Nat.ltb_lt in W. lia. }
      destruct (IH _ _ HA Hn') as (j & c' & L & U & It & K).
      exists (S j), c'. rewrite <- plus_n_Sm. repeat split; auto.
      exists c1. auto. }
    destruct greedy.
    + match type of H with
      | match ?a with _ => _ end = _ => destruct a as [x|] eqn:HA
      end.
      * inversion H; subst x. apply Again. reflexivity.
      * apply Stop; assumption.
    + match type of H with
      | match ?a with _ => _ end = _ => destruct a as [x|] eqn:HS
      end.
      * inversion H; subst x. apply Stop; assumption.
      * apply Again. exact H.
Qed.

Theorem run_sound (r : regex) :
  forall c k m, run r c k = Some m -> exists c', sem r c c' /\ k c' = Some m.
Proof.
  induction r as [p|s|r1 IH1 r2 IH2|r1 IH1 r2 IH2|g lo hi body IH|name body IH
                 |body IH|p|p| |]; intros c k m H;
    [simpl in H|simpl in H|simpl in H|simpl in H| |simpl in H|simpl in H
    |simpl in H|simpl in H|simpl in H|simpl in H].
  - destruct (todo c) as [|a rest] eqn:E; [discriminate|].
    destruct (p a) eqn:P; [|discriminate].
    exists (step c a rest). split; [|exact H]. exists a, rest. auto.
  - destruct (pass_lit s c) as [c'|] eqn:E; [|discriminate].
    exists c'. auto.
  - apply IH1 in H. destruct H as (c1 & S1 & H).
    apply IH2 in H. destruct H as (c2 & S2 & H).
    exists c2. split; [exists c1; auto | exact H].
  - destruct (run r1 c k) as [x|] eqn:E.
    + inversion H; subst x. apply IH1 in E. destruct E as (c' & S1 & K).
      exists c'. split; [left; exact S1 | exact K].
    + apply IH2 in H. destruct H as (c' & S2 & K).
      exists c'. split; [right; exact S2 | exact K].
  - change (repeat_loop (run body) g lo hi k (S (String.length (todo c))) 0 c
            = Some m) in H.
    apply (repeat_loop_sound _ (sem body) IH) in H.
    + destruct H as (j & c' & L & U & It & K).
      exists c'. split; [|exact K]. exists j. auto.
    + destruct hi; simpl; [lia | exact I].
  - apply IH in H. destruct H as (c1 & S1 & K).
    exists (close_group name c c1). split; [exists c1; auto | exact K].
  - destruct (run body c Some) as [x|] eqn:E; [|discriminate].
    apply IH in E. destruct E as (c1 & S1 & _).
    exists c. split; [split; [exists c1; exact S1 | reflexivity] | exact H].
  - destruct (prev_is p c) eqn:E; [|discriminate]. exists c. simpl. auto.
  - destruct (prev_is p c) eqn:E; [discriminate|]. exists c. simpl. auto.
  - destruct (at_word_edge c) eqn:E; [|discriminate]. exists c. simpl. auto.
  - destruct (todo c) eqn:E; [|discriminate]. exists c. simpl. auto.
Qed.

(** *** Cursors move forward in one subject *)

Lemma append_assoc (a b c : string) :
  ((a ++ b) ++ c)%string = (a ++ b ++ c)%string.
Proof.
  induction a as [|x a IH]; simpl; [reflexivity | rewrite IH; reflexivity].
Qed.

Lemma append_empty_r (a : string) : (a ++ "")%string = a.
Proof.
  induction a as [|x a IH]; simpl; [reflexivity | rewrite IH; reflexivity].
Qed.

Lemma rev_onto_app (a b acc : string) :
  rev_onto (a ++ b)%string acc = rev_onto b (rev_onto a acc).
Proof.
  revert acc. induction a as [|x a IH]; intros acc; simpl; [reflexivity | apply IH].
Qed.

Lemma rev_onto_append (a acc rest : string) :
  rev_onto (rev_onto a acc) rest = rev_onto acc (a ++ rest)%string.
Proof.
  revert acc. induction a as [|x a IH]; intros acc; simpl; [reflexivity|].
  rewrite IH. reflexivity.
Qed.

Lemma further_refl (c : cursor) : further c c.
Proof. exists ""%string. split; reflexivity. Qed.

Lemma further_trans (a b c : cursor) : further a b -> further b c -> further a c.
Proof.
  intros (s & T1 & S1) (t & T2 & S2). exists (s ++ t)%string. split.
  - rewrite T1, T2, append_assoc. reflexivity.
  - rewrite S2, S1, rev_onto_app. reflexivity.
Qed.

Lemma further_step (c : cursor) (a : ascii) (rest : string) :
  todo c = String a rest -> further c (step c a rest).
Proof.
  intros E. exists (String a ""). split; [exact E | reflexivity].
Qed.

Lemma pass_lit_spec (s : string) :
  forall c c', pass_lit s c = Some c' ->
    todo c = (s ++ todo c')%string /\ seen c' = rev_onto s (seen c)
    /\ caps c' = caps c.
Proof.
  induction s as [|a s IH]; intros c c' H; simpl in H.
  - inversion H; subst. simpl. auto.
  - destruct (todo c) as [|b rest] eqn:E; [discriminate|].
    destruct (Ascii.eqb a b) eqn:Eab; [|discriminate].
    apply Ascii.eqb_eq in Eab. subst b.
    apply IH in H. simpl in H. destruct H as (T & S & C).
    simpl. rewrite T. auto.
Qed.

Lemma iter_further (R : cursor -> cursor -> Prop)
  (HR : forall c c', R c c' -> further c c') :
  forall n c c', iter R n c c' -> further c c'.
Proof.
  induction n as [|n IH]; simpl; intros c c' H.
  - subst c'. apply further_refl.
  - destruct H as (c1 & R1 & It).
    eapply further_trans; [apply HR, R1 | apply IH, It].
Qed.

Lemma sem_further (r : regex) : forall c c', sem r c c' -> further c c'.
Proof.
  induction r as [p|s|r1 IH1 r2 IH2|r1 IH1 r2 IH2|g lo hi body IH|name body IH
                 |body IH|p|p| |]; intros c c' H; simpl in H.
  - destruct H as (a & rest & E & _ & ->). apply further_step, E.
  - apply pass_lit_spec in H. destruct H as (T & S & _).
    exists s. auto.
  - destruct H as (c1 & S1 & S2).
    eapply further_trans; [apply IH1, S1 | apply IH2, S2].
  - destruct H as [H|H]; [apply IH1, H | apply IH2, H].
  - destruct H as (n & _ & _ & It). eapply iter_further; [exact IH | exact It].
  - destruct H as (c1 & S1 & ->). apply IH in S1.
    destruct S1 as (s & T & S). exists s. simpl. auto.
  - destruct H as (_ & ->). apply further_refl.
  - destruct H as (_ & ->). apply further_refl.
  - destruct H as (_ & ->). apply further_refl.
  - destruct H as (_ & ->). apply further_refl.
  - destruct H as (_ & ->). apply further_refl.
Qed.

Lemma further_subject (c c' : cursor) : further c c' -> subject c' = subject c.
Proof.
  intros (s & T & S). unfold subject. rewrite S, T.
  apply rev_onto_append.
Qed.

(** *** Literals a match must contain *)

(** *** Literals a match must contain *)

Lemma contains_later (a s l : string) :
  contains s l -> contains (a ++ s)%string l.
Proof.
  intros (x & y & ->). exists (a ++ x)%string, y.
  rewrite append_assoc. reflexivity.
Qed.

Lemma requires_sound (l : string) (r : regex) :
  requires l r = true ->
  forall c c', sem r c c' -> contains (todo c) l.
Proof.
  induction r as [p|s|r1 IH1 r2 IH2|r1 IH1 r2 IH2|g lo hi body IH|name body IH
                 |body IH|p|p| |]; simpl; intros Hr c c' H; try discriminate.
  - apply String.eqb_eq in Hr. subst s.
    apply pass_lit_spec in H. destruct H as (T & _ & _).
    exists ""%string, (todo c'). exact T.
  - destruct H as (c1 & S1 & S2).
    apply orb_true_iff in Hr. destruct Hr as [Hr|Hr].
    + exact (IH1 Hr _ _ S1).
    + apply sem_further in S1. destruct S1 as (s & T & _). rewrite T.
      apply contains_later. exact (IH2 Hr _ _ S2).
  - apply andb_true_iff in Hr. destruct Hr as [Hr1 Hr2].
    destruct H as [H|H]; [exact (IH1 Hr1 _ _ H) | exact (IH2 Hr2 _ _ H)].
  - apply andb_true_iff in Hr. destruct Hr as [Hlo Hr].
    apply Nat.ltb_lt in Hlo. destruct H as (n & L & _ & It).
    destruct n as [|n]; [lia|]. simpl in It. destruct It as (c1 & S1 & _).
    exact (IH Hr _ _ S1).
  - destruct H as (c1 & S1 & _). exact (IH Hr _ _ S1).
Qed.

Lemma match_at_sem (r : regex) (before after : string) (m : rmatch) :
  match_at r before after = Some m ->
  exists c', sem r (Cursor before after []) c'.
Proof.
  unfold match_at. intros H.
  destruct (run r (Cursor before after []) Some) as [c1|] eqn:E; [|discriminate].
  apply run_sound in E. destruct E as (c' & S & _). exists c'. exact S.
Qed.

(** A successful scan starts its match somewhere in the text ahead. *)
Lemma scan_sem (r : regex) (after : string) :
  forall before m,
    scan r before after = Some m ->
    exists skipped rest c',
      after = (skipped ++ rest)%string
      /\ sem r (Cursor (rev_onto skipped before) rest []) c'.
Proof.
  induction after as [|a after IH]; intros before m H; simpl in H.
  - destruct (match_at r before "") as [x|] eqn:E; [|discriminate].
    apply match_at_sem in E. destruct E as (c' & S).
    exists ""%string, ""%string, c'. auto.
  - destruct (match_at r before (String a after)) as [x|] eqn:E.
    + apply match_at_sem in E. destruct E as (c' & S).
      exists ""%string, (String a after), c'. auto.
    + apply IH in H. destruct H as (skipped & rest & c' & -> & S).
      exists (String a skipped), rest, c'. auto.
Qed.

(** A text in which no match of [r] can start has no match. *)
Lemma search_contains (r : regex) (l : string) :
  (forall c c', sem r c c' -> contains (todo c) l) ->
  forall s, ~ contains s l -> search r s = None.
Proof.
  intros Hr s Hn. destruct (search r s) as [m|] eqn:E; [|reflexivity].
  exfalso. apply Hn. unfold search in E. apply scan_sem in E.
  destruct E as (skipped & rest & c' & -> & S).
  apply contains_later. exact (Hr _ _ S).
Qed.

(** A text that lacks a literal the pattern requires has no match. *)
Theorem search_requires (l : string) (r : regex) (s : string) :
  requires l r = true -> ~ contains s l -> search r s = None.
Proof.
  intros Hr. apply search_contains. exact (requires_sound _ _ Hr).
Qed.

(** [cut] finds every occurrence: a way to decide [contains]. *)
Lemma strip_prefix_app (l b : string) : strip_prefix l (l ++ b)%string = Some b.
Proof.
  induction l as [|x l IH]; simpl; [reflexivity|].
  rewrite Ascii.eqb_refl. exact IH.
Qed.

Lemma contains_cut (s l : string) : contains s l -> cut l s <> None.
Proof.
  intros (a & b & ->). induction a as [|x a IH].
  - simpl. destruct l; simpl.
    + destruct b; discriminate.
    + rewrite Ascii.eqb_refl, strip_prefix_app.
      destruct (l ++ b)%string; discriminate.
  - simpl.
    destruct (strip_prefix l (String x (a ++ l ++ b))); [discriminate|].
    destruct (cut l (a ++ l ++ b)%string) as [[u v]|]; [discriminate | exact IH].
Qed.

Lemma cut_none_not_contains (s l : string) : cut l s = None -> ~ contains s l.
Proof.
  intros H C. exact (contains_cut _ _ C H).
Qed.



(** *** The fuel of a repetition is enough *)

Lemma repeat_loop_ext
  (body : cursor -> (cursor -> option cursor) -> option cursor)
  (Hbody : respects body) (greedy : bool) (lo : nat) (hi : option nat)
  (k k' : cursor -> option cursor) :
  (forall c', k c' = k' c') ->
  forall fuel n c,
    repeat_loop body greedy lo hi k fuel n c
    = repeat_loop body greedy lo hi k' fuel n c.
Proof.
  intros Hk. induction fuel as [|fuel IH]; intros n c; simpl.
  - rewrite Hk. reflexivity.
  - rewrite Hk.
    rewrite (Hbody c _ (fun c' =>
               if (String.length (todo c') <? String.length (todo c))%nat
               then repeat_loop body greedy lo hi k' fuel (S n) c' else None)).
    + reflexivity.
    + intros c'. destruct (_ <? _)%nat; [apply IH | reflexivity].
Qed.

Lemma run_ext (r : regex) : respects (run r).
Proof.
  induction r as [p|s|r1 IH1 r2 IH2|r1 IH1 r2 IH2|g lo hi body IH|name body IH
                 |body IH|p|p| |]; intros c k k' Hk; simpl.
  - destruct (todo c) as [|a rest]; [reflexivity|].
    destruct (p a); [apply Hk | reflexivity].
  - destruct (pass_lit s c); [apply Hk | reflexivity].
  - apply IH1. intros c'. apply IH2. exact Hk.
  - rewrite (IH1 c k k' Hk), (IH2 c k k' Hk). reflexivity.
  - change (repeat_loop (run body) g lo hi k (S (String.length (todo c))) 0 c
            = repeat_loop (run body) g lo hi k' (S (String.length (todo c))) 0 c).
    apply repeat_loop_ext; assumption.
  - apply IH. intros c'. apply Hk.
  - destruct (run body c Some); [apply Hk | reflexivity].
  - destruct (prev_is p c); [apply Hk | reflexivity].
  - destruct (prev_is p c); [reflexivity | apply Hk].
  - destruct (at_word_edge c); [apply Hk | reflexivity].
  - destruct (todo c); [apply Hk | reflexivity].
Qed.

(** With more fuel than there are characters ahead, the amount of fuel does
    not matter: the loop of [run] never stops for lack of it. *)
Lemma repeat_loop_fuel
  (body : cursor -> (cursor -> option cursor) -> option cursor)
  (Hbody : respects body) (greedy : bool) (lo : nat) (hi : option nat)
  (k : cursor -> option cursor) :
  forall f1 f2 n c,
    (String.length (todo c) < f1)%nat ->
    (String.length (todo c) < f2)%nat ->
    repeat_loop body greedy lo hi k f1 n c
    = repeat_loop body greedy lo hi k f2 n c.
Proof.
  induction f1 as [|f1 IH]; intros f2 n c H1 H2; [lia|].
  destruct f2 as [|f2]; [lia|]. simpl.
  rewrite (Hbody c _ (fun c' =>
             if (String.length (todo c') <? String.length (todo c))%nat
             then repeat_loop body greedy lo hi k f2 (S n) c' else None)).
  - reflexivity.
  - intros c'.
    destruct (String.length (todo c') <? String.length (todo c))%nat eqn:E;
      [|reflexivity].
    apply Nat.ltb_lt in E. apply IH; lia.
Qed.

Lemma run_repeat_fuel (greedy : bool) (lo : nat) (hi : option nat)
  (body : regex) (c : cursor) (k : cursor -> option cursor) (fuel : nat) :
  (String.length (todo c) < fuel)%nat ->
  run (Repeat greedy lo hi body) c k
  = repeat_loop (run body) greedy lo hi k fuel 0 c.
Proof.
  intros H.
  change (repeat_loop (run body) greedy lo hi k (S (String.length (todo c))) 0 c
          = repeat_loop (run body) greedy lo hi k fuel 0 c).
  apply repeat_loop_fuel; [apply run_ext | lia | exact H].
Qed.
End ReFacts.

(* ================================================================== *)
(** ** The events the EDL parsers return *)

Module Events.

Import Text Num Re Py Lib Path Collect Props Samples SortFacts Traversal ReFacts.

Lemma key_eqb_eq (a b : key) : key_eqb a b = true -> a = b.
Proof.
  destruct a, b; simpl; intros H; try discriminate.
  - apply String.eqb_eq in H. congruence.
  - apply Z.eqb_eq in H. congruence.
Qed.

Lemma key_eqb_refl (a : key) : key_eqb a a = true.
Proof.
  destruct a; simpl; [apply String.eqb_refl | apply Z.eqb_refl].
Qed.

Section Dict.

Context {V : Type}.

Lemma dict_set_in (k : key) (v : V) (d : list (key * V)) (kv : key * V) :
  In kv (dict_set k v d) -> kv = (k, v) \/ In kv d.
Proof.
  induction d as [|[k' v'] d IH]; simpl.
  - intros [<-|[]]. left. reflexivity.
  - destruct (key_eqb k' k) eqn:E; simpl.
    + apply key_eqb_eq in E. subst k'. intros [<-|H]; auto.
    + intros [<-|H]; auto. destruct (IH H); auto.
Qed.

Lemma dict_get_set_same (k : key) (v : V) (d : list (key * V)) :
  dict_get k (dict_set k v d) = Some v.
Proof.
  induction d as [|[k' v'] d IH]; simpl.
  - rewrite key_eqb_refl. reflexivity.
  - destruct (key_eqb k' k) eqn:E; simpl; rewrite E; [reflexivity | exact IH].
Qed.

Lemma dict_get_set_keeps (k k0 : key) (v : V) (d : list (key * V)) :
  dict_get k0 d <> None -> dict_get k0 (dict_set k v d) <> None.
Proof.
  induction d as [|[k' v'] d IH]; simpl; [congruence|].
  destruct (key_eqb k' k) eqn:E; simpl;
    destruct (key_eqb k' k0); try congruence. exact IH.
Qed.

Lemma dict_get_in (k : key) (d : list (key * V)) (v : V) :
  dict_get k d = Some v -> In (k, v) d.
Proof.
  induction d as [|[k' v'] d IH]; simpl; [discriminate|].
  destruct (key_eqb k' k) eqn:E.
  - apply key_eqb_eq in E. intros H. inversion H; subst. left. reflexivity.
  - intros H. right. exact (IH H).
Qed.

End Dict.

(** *** The regex parser *)

Lemma edit_step_entry (c : bool) (evs : list (key * event)) (e : string) :
  edit_step c evs e =
  (kv <- edit_entry e ;;
   if kept c (snd kv) then Ok (dict_set (fst kv) (snd kv) evs) else Ok evs).
Proof.
  unfold edit_step, edit_entry.
  destruct (edit_sop e) as [[[[s o] p]|]|x]; simpl; try reflexivity;
    destruct (entry_number e) as [n|x]; simpl; try reflexivity.
  unfold kept, colored; simpl. destruct c; reflexivity.
Qed.


Lemma edit_loop_spec (c : bool) (edits : list string) :
  forall evs evs',
    edit_loop c evs edits = Ok evs' ->
    (forall kv, In kv evs' ->
       In kv evs \/
       exists e, In e edits /\ edit_entry e = Ok kv /\ kept c (snd kv) = true)
    /\ (forall e, In e edits ->
          exists kv, edit_entry e = Ok kv /\
            (kept c (snd kv) = true -> dict_get (fst kv) evs' <> None))
    /\ (forall k, dict_get k evs <> None -> dict_get k evs' <> None).
Proof.
  induction edits as [|e edits IH]; simpl; intros evs evs' H.
  - inversion H; subst evs'. repeat split; auto. intros e [].
  - apply bind_ok in H. destruct H as (evs1 & Hs & Hl).
    rewrite edit_step_entry in Hs. apply bind_ok in Hs.
    destruct Hs as (kv0 & He & Hk).
    destruct (IH _ _ Hl) as (A & B & C).
    destruct (kept c (snd kv0)) eqn:K; inversion Hk; subst evs1; clear Hk.
    + repeat split.
      * intros kv Hin. destruct (A kv Hin) as [Hin'|(e' & I & E & K')].
        -- apply dict_set_in in Hin'. destruct Hin' as [->|Hin']; [|auto].
           right. exists e. rewrite <- surjective_pairing. auto.
        -- right. exists e'. auto.
      * intros e' [<-|Hin].
        -- exists kv0. split; [exact He|]. intros _.
           apply C. rewrite dict_get_set_same. discriminate.
        -- exact (B e' Hin).
      * intros k Hk. apply C. apply dict_get_set_keeps. exact Hk.
    + repeat split.
      * intros kv Hin. destruct (A kv Hin) as [Hin'|(e' & I & E & K')]; auto.
        right. exists e'. auto.
      * intros e' [<-|Hin].
        -- exists kv0. split; [exact He|]. congruence.
        -- exact (B e' Hin).
      * exact C.
Qed.

Lemma regex_events_spec (w : world) (path : string) (c : bool) (r : edl) :
  regex_parse_edl_events w path c = Ok r ->
  exists text,
    read_text w path = Ok text
    /\ (forall kv, In kv (events r) ->
          exists e, In e (edits_of text) /\ edit_entry e = Ok kv
                    /\ kept c (snd kv) = true)
    /\ (forall e, In e (edits_of text) ->
          exists kv, edit_entry e = Ok kv /\
            (kept c (snd kv) = true -> dict_get (fst kv) (events r) <> None)).
Proof.
  unfold regex_parse_edl_events. intros H.
  apply bind_ok in H. destruct H as (text & Hr & H). exists text.
  split; [exact Hr|].
  apply bind_ok in H. destruct H as (first & _ & H).
  apply bind_ok in H. destruct H as (evs & Hl & H).
  apply bind_ok in H. destruct H as (final & _ & H).
  inversion H; subst r; clear H. simpl.
  destruct (edit_loop_spec _ _ _ _ Hl) as (A & B & _). split.
  - intros kv Hin. destruct (A kv Hin) as [[]|Hx]. exact Hx.
  - exact B.
Qed.

(** *** The OTIO parser *)

Section FreshKeys.

Context {V : Type}.

Lemma dict_set_in_new (k : key) (v : V) (d : list (key * V)) :
  In (k, v) (dict_set k v d).
Proof.
  induction d as [|[k' v'] d IH]; simpl; [auto|].
  destruct (key_eqb k' k) eqn:E; simpl.
  - apply key_eqb_eq in E. subst k'. auto.
  - auto.
Qed.

Lemma dict_set_in_old (k : key) (v : V) (d : list (key * V)) (kv : key * V) :
  In kv d -> key_eqb (fst kv) k = false -> In kv (dict_set k v d).
Proof.
  induction d as [|[k' v'] d IH]; simpl; [tauto|].
  intros [<-|H] F.
  - simpl in F. rewrite F. left. reflexivity.
  - destruct (key_eqb k' k); simpl; auto.
Qed.

End FreshKeys.

Lemma otio_step_event (co : bool) (st : Z * list (key * event)) (c : clip) :
  otio_step co st (IsClip c) =
  (ev <- clip_event c ;;
   if kept co ev
   then Ok ((fst st + 1)%Z, dict_set (KInt (fst st + 1)) ev (snd st))
   else Ok ((fst st + 1)%Z, snd st)).
Proof.
  unfold otio_step, clip_event, kept, colored.
  destruct (nonempty_cdl c) as [d|]; simpl.
  - destruct (asc_sop d); reflexivity.
  - destruct co; reflexivity.
Qed.


Lemma otio_loop_spec (co : bool) (children : list child) :
  forall n evs n' evs',
    otio_loop co (n, evs) children = Ok (n', evs') ->
    keys_below n evs ->
    (forall kv, In kv evs' ->
       In kv evs \/
       exists cl, In cl (clips_of children) /\ clip_event cl = Ok (snd kv)
                  /\ kept co (snd kv) = true)
    /\ (forall cl, In cl (clips_of children) ->
          exists ev, clip_event cl = Ok ev /\
            (kept co ev = true -> exists k, In (k, ev) evs'))
    /\ (forall kv, In kv evs -> In kv evs')
    /\ keys_below n' evs'
    /\ n' = (n + Z.of_nat (List.length (clips_of children)))%Z.
Proof.
  induction children as [|ch children IH]; simpl; intros n evs n' evs' H Hb.
  - inversion H; subst. split; [auto|]. split; [intros cl []|].
    split; [auto|]. split; [exact Hb | lia].
  - apply bind_ok in H. destruct H as ([n1 evs1] & Hs & Hl).
    destruct ch as [c|].
    + rewrite otio_step_event in Hs. apply bind_ok in Hs.
      destruct Hs as (ev0 & He & Hk). simpl in Hk.
      assert (Hn1 : n1 = (n + 1)%Z)
        by (destruct (kept co ev0); inversion Hk; reflexivity).
      subst n1.
      assert (Hb1 : keys_below (n + 1) evs1).
      { destruct (kept co ev0); inversion Hk; subst evs1; intros kv Hin.
        - apply dict_set_in in Hin. destruct Hin as [->|Hin].
          + exists (n + 1)%Z. split; [reflexivity | lia].
          + destruct (Hb kv Hin) as (j & E & L). exists j. split; [exact E | lia].
        - destruct (Hb kv Hin) as (j & E & L). exists j. split; [exact E | lia]. }
      destruct (IH _ _ _ _ Hl Hb1) as (A & B & C & D & E).
      repeat split.
      * intros kv Hin. destruct (A kv Hin) as [Hin'|(cl & I & Ev & K)].
        -- destruct (kept co ev0) eqn:K0; inversion Hk; subst evs1; clear Hk.
           ++ apply dict_set_in in Hin'. destruct Hin' as [->|Hin']; [|auto].
              right. exists c. simpl. auto.
           ++ auto.
        -- right. exists cl. simpl. auto.
      * intros cl [<-|Hin].
        -- exists ev0. split; [exact He|]. intros K0. rewrite K0 in Hk.
           inversion Hk; subst evs1. exists (KInt (n + 1)).
           apply C. apply dict_set_in_new.
        -- exact (B cl Hin).
      * intros kv Hin. apply C.
        destruct (kept co ev0); inversion Hk; subst evs1; [|exact Hin].
        apply dict_set_in_old; [exact Hin|].
        destruct (Hb kv Hin) as (j & Ej & L). rewrite Ej. simpl.
        apply Z.eqb_neq. lia.
      * exact D.
      * simpl. lia.
    + simpl in Hs. inversion Hs; subst n1 evs1.
      exact (IH _ _ _ _ Hl Hb).
Qed.

Lemma otio_events_spec (w : world) (path : string) (co : bool) (r : edl) :
  otio_parse_edl_events w path co = Ok r ->
  exists track,
    otio_read w path = Ok [track]
    /\ (forall kv, In kv (events r) ->
          exists cl, In cl (clips_of track) /\ clip_event cl = Ok (snd kv)
                     /\ kept co (snd kv) = true)
    /\ (forall cl, In cl (clips_of track) ->
          exists ev, clip_event cl = Ok ev /\
            (kept co ev = true -> exists k, In (k, ev) (events r)))
    /\ last_entry r = Z.of_nat (List.length (clips_of track)).
Proof.
  unfold otio_parse_edl_events. intros H.
  apply bind_ok in H. destruct H as (tracks & Hr & H).
  destruct tracks as [|track [|t2 tracks]]; simpl in H; try discriminate.
  exists track. split; [exact Hr|].
  apply bind_ok in H. destruct H as ([n evs] & Hl & H).
  inversion H; subst r; clear H. simpl.
  assert (Hb : keys_below 0 []) by (intros kv []).
  destruct (otio_loop_spec _ _ _ _ _ _ Hl Hb) as (A & B & _ & _ & E).
  repeat split.
  - intros kv Hin. destruct (A kv Hin) as [[]|Hx]. exact Hx.
  - exact B.
  - lia.
Qed.

(** *** The events in order *)

Lemma key_eqb_neq (a b : key) : a <> b -> key_eqb a b = false.
Proof.
  intros H. destruct (key_eqb a b) eqn:E; [|reflexivity].
  apply key_eqb_eq in E. contradiction.
Qed.

Lemma dict_set_fresh {V : Type} (k : key) (v : V) (d : list (key * V)) :
  (forall kv, In kv d -> fst kv <> k) -> dict_set k v d = d ++ [(k, v)].
Proof.
  induction d as [|[k' v'] d IH]; simpl; intros H; [reflexivity|].
  rewrite (key_eqb_neq k' k) by (apply (H (k', v')); left; reflexivity).
  rewrite IH by (intros kv Hin; apply H; right; exact Hin). reflexivity.
Qed.



Lemma otio_loop_exact (co : bool) (children : list child) :
  forall n evs n' evs',
    otio_loop co (n, evs) children = Ok (n', evs') ->
    keys_below n evs ->
    exists l,
      Forall2 (fun cl ev => clip_event cl = Ok ev) (clips_of children) l
      /\ evs' = evs ++ recorded co (number_from n l).
Proof.
  induction children as [|ch children IH]; simpl; intros n evs n' evs' H Hb.
  - inversion H; subst. exists []. split; [constructor|].
    simpl. rewrite app_nil_r. reflexivity.
  - apply bind_ok in H. destruct H as ([n1 evs1] & Hs & Hl).
    destruct ch as [c|].
    + rewrite otio_step_event in Hs. apply bind_ok in Hs.
      destruct Hs as (ev0 & He & Hk). simpl in Hk.
      assert (Hfresh : forall kv, In kv evs -> fst kv <> KInt (n + 1)).
      { intros kv Hin. destruct (Hb kv Hin) as (j & Ej & L). rewrite Ej.
        intros Q. inversion Q. lia. }
      assert (Hn1 : n1 = (n + 1)%Z)
        by (destruct (kept co ev0); inversion Hk; reflexivity).
      subst n1.
      assert (Hb1 : keys_below (n + 1) evs1).
      { destruct (kept co ev0); inversion Hk; subst evs1; intros kv Hin.
        - apply dict_set_in in Hin. destruct Hin as [->|Hin].
          + exists (n + 1)%Z. split; [reflexivity | lia].
          + destruct (Hb kv Hin) as (j & E & L). exists j. split; [exact E | lia].
        - destruct (Hb kv Hin) as (j & E & L). exists j. split; [exact E | lia]. }
      destruct (IH _ _ _ _ Hl Hb1) as (l & HF & ->).
      exists (ev0 :: l). split; [constructor; assumption|].
      unfold recorded. simpl.
      destruct (kept co ev0) eqn:K; inversion Hk; subst evs1; clear Hk.
      * rewrite (dict_set_fresh _ _ _ Hfresh), <- app_assoc. reflexivity.
      * reflexivity.
    + simpl in Hs. inversion Hs; subst n1 evs1. exact (IH _ _ _ _ Hl Hb).
Qed.

Lemma otio_events_exact (w : world) (path : string) (co : bool) (r : edl) :
  otio_parse_edl_events w path co = Ok r ->
  exists track l,
    otio_read w path = Ok [track]
    /\ Forall2 (fun cl ev => clip_event cl = Ok ev) (clips_of track) l
    /\ events r = recorded co (number_from 0 l).
Proof.
  unfold otio_parse_edl_events. intros H.
  apply bind_ok in H. destruct H as (tracks & Hr & H).
  destruct tracks as [|track [|t2 tracks]]; simpl in H; try discriminate.
  apply bind_ok in H. destruct H as ([n evs] & Hl & H).
  inversion H; subst r; clear H. simpl.
  assert (Hb : keys_below 0 []) by (intros kv []).
  destruct (otio_loop_exact _ _ _ _ _ _ Hl Hb) as (l & HF & ->).
  exists track, l. split; [exact Hr|]. split; [exact HF | reflexivity].
Qed.

Lemma recorded_all (kvs : list (key * event)) : recorded false kvs = kvs.
Proof.
  unfold recorded. induction kvs as [|kv kvs IH]; simpl; [reflexivity|].
  unfold kept at 1. simpl. rewrite orb_true_r. f_equal. exact IH.
Qed.

(** *** [parse_edl_events] *)

Lemma parse_edl_events_cases (w : world) (path : string) (co : bool) (r : edl) :
  parse_edl_events w path co = Some r ->
  otio_parse_edl_events w path co = Ok r
  \/ regex_parse_edl_events w path co = Ok r.
Proof.
  unfold parse_edl_events.
  destruct (otio_parse_edl_events w path co) as [e|x].
  - intros H; inversion H; auto.
  - destruct x; try discriminate;
      destruct (regex_parse_edl_events w path co) as [e|y];
      intros H; inversion H; auto.
Qed.





(** The same cut read through the OTIO parser: both clips are returned,
    numbered 1 and 2, the first with its colour decision and the default
    saturation. *)
Lemma otio_cut_events :
  exists r,
    parse_edl_events cut_otio_world "/in/cut.edl" false = Some r
    /\ map fst (events r) = [KInt 1; KInt 2]
    /\ map (fun kv => colored (snd kv)) (events r) = [true; false].
Proof.
  eexists. split; [vm_compute; reflexivity|]. split; reflexivity.
Qed.

End Events.

(* ================================================================== *)
(** ** The fields of a colour decision *)

Module Grades.

Import Text Num Re Py Lib Path Collect Props Samples Traversal Events ReFacts.

Lemma floats_raise (m : rmatch) (names : list string) (e : exn) :
  floats m names = Raise e -> e = ValueError.
Proof.
  induction names as [|n names IH]; simpl; [discriminate|].
  destruct (py_float (group m n)); simpl; [|intros H; inversion H; reflexivity].
  destruct (floats m names) as [xs|x]; simpl; [discriminate|].
  intros H. inversion H; subst x. apply IH. reflexivity.
Qed.

Lemma cdl_floats_raise (r : regex) (names : list string) (t : string) (e : exn) :
  cdl_floats r names t = Raise e -> e = ValueError.
Proof.
  unfold cdl_floats. destruct (search r t) as [m|]; [|discriminate].
  destruct (floats m names) as [xs|x] eqn:E; simpl; [discriminate|].
  intros H. inversion H; subst x. exact (floats_raise _ _ _ E).
Qed.

Lemma cdl_floats_none (r : regex) (names : list string) (t : string)
  (x : option (list Q)) :
  cdl_floats r names t = Ok x -> (x = None <-> search r t = None).
Proof.
  unfold cdl_floats. destruct (search r t) as [m|].
  - destruct (floats m names); simpl; intros H; inversion H; split; discriminate.
  - intros H; inversion H; split; reflexivity.
Qed.

(** The saturation entry, as [parse_cdl] computes it from the lower-cased
    text. *)
Lemma parse_cdl_steps (w : world) (path text : string) (c : cdl) :
  read_text w path = Ok text ->
  parse_cdl w path = Ok c ->
  cdl_floats slope_pattern ["sR"; "sG"; "sB"] (lower text) = Ok (cdl_slope c)
  /\ cdl_floats offset_pattern ["oR"; "oG"; "oB"] (lower text) = Ok (cdl_offset c)
  /\ cdl_floats power_pattern ["pR"; "pG"; "pB"] (lower text) = Ok (cdl_power c)
  /\ (cdl_sat c = None <-> search saturation_pattern (lower text) = None)
  /\ cdl_file c = Some path.
Proof.
  intros Hr H. unfold parse_cdl in H. rewrite Hr in H. simpl in H.
  apply bind_ok in H. destruct H as (s & Hs & H).
  apply bind_ok in H. destruct H as (o & Ho & H).
  apply bind_ok in H. destruct H as (p & Hp & H).
  apply bind_ok in H. destruct H as (st & Hst & H).
  inversion H; subst c; clear H. simpl. repeat split; auto.
  - intros ->. destruct (search saturation_pattern (lower text)); [|reflexivity].
    apply bind_ok in Hst. destruct Hst as (q & _ & Hq). discriminate Hq.
  - intros E. rewrite E in Hst. inversion Hst. reflexivity.
Qed.

Lemma parse_cdl_raise (w : world) (path text : string) (e : exn) :
  read_text w path = Ok text ->
  parse_cdl w path = Raise e -> e = ValueError.
Proof.
  intros Hr H. unfold parse_cdl in H. rewrite Hr in H. simpl in H.
  destruct (cdl_floats slope_pattern _ _) as [s|x] eqn:Es; simpl in H;
    [|inversion H; subst x; exact (cdl_floats_raise _ _ _ _ Es)].
  destruct (cdl_floats offset_pattern _ _) as [o|x] eqn:Eo; simpl in H;
    [|inversion H; subst x; exact (cdl_floats_raise _ _ _ _ Eo)].
  destruct (cdl_floats power_pattern _ _) as [p|x] eqn:Ep; simpl in H;
    [|inversion H; subst x; exact (cdl_floats_raise _ _ _ _ Ep)].
  destruct (search saturation_pattern (lower text)) as [m|];
    [|discriminate H].
  destruct (py_float (group m "sat")); simpl in H; [discriminate H|].
  inversion H. reflexivity.
Qed.

(** C2, as the code has it.  On a file that can be read, [parse_cdl] either
    raises [ValueError] (a captured number is malformed) or returns a
    dictionary in which each of slope, offset, power and sat is set exactly
    when its own element is found in the lower-cased text, independently of
    the other three: a dictionary with some entries set and others [None]
    is a possible result. *)
Theorem parse_cdl_fields_independent (w : world) (path text : string) :
  read_text w path = Ok text ->
  parse_cdl w path = Raise ValueError
  \/ exists c,
       parse_cdl w path = Ok c
       /\ (cdl_slope c = None <-> search slope_pattern (lower text) = None)
       /\ (cdl_offset c = None <-> search offset_pattern (lower text) = None)
       /\ (cdl_power c = None <-> search power_pattern (lower text) = None)
       /\ (cdl_sat c = None <-> search saturation_pattern (lower text) = None)
       /\ cdl_file c = Some path.
Proof.
  intros Hr. destruct (parse_cdl w path) as [c|e] eqn:E.
  - right. exists c. split; [reflexivity|].
    destruct (parse_cdl_steps _ _ _ _ Hr E) as (Hs & Ho & Hp & Hst & Hf).
    repeat split; try (apply (cdl_floats_none _ _ _ _ Hs));
      try (apply (cdl_floats_none _ _ _ _ Ho));
      try (apply (cdl_floats_none _ _ _ _ Hp)); try apply Hst; exact Hf.
  - left. rewrite (parse_cdl_raise _ _ _ _ Hr E). reflexivity.
Qed.

Lemma parse_cdl_fields_independent_witness :
  exists c,
    parse_cdl (grade_world slope_only_text) "/in/grade.cc" = Ok c
    /\ (cdl_offset c = None <->
        search offset_pattern (lower slope_only_text) = None).
Proof.
  destruct (parse_cdl_fields_independent (grade_world slope_only_text)
              "/in/grade.cc" slope_only_text) as [H|(c & H & _ & Ho & _)].
  - reflexivity.
  - vm_compute in H. discriminate H.
  - exists c. split; [exact H | exact Ho].
Defined.

(** C2 as stated fails: a text with a slope element only gives a dictionary
    with the slope set and the offset [None], which is neither complete nor
    empty. *)
Lemma partial_decision_returned :
  exists c,
    parse_cdl (grade_world slope_only_text) "/in/grade.cc" = Ok c
    /\ ~ (complete c \/ no_decision c).
Proof.
  eexists. split; [vm_compute; reflexivity|].
  intros [(_ & Ho & _)|(Hs & _)]; [apply Ho; reflexivity | discriminate Hs].
Qed.

(** *** Saturation *)

Lemma edit_entry_sat (e : string) (kv : key * event) (g : color) :
  edit_entry e = Ok kv -> grade (snd kv) = Some g -> sat g = edit_sat e.
Proof.
  unfold edit_entry. intros H Hg.
  apply bind_ok in H. destruct H as (sop & _ & H).
  apply bind_ok in H. destruct H as (n & _ & H).
  inversion H; subst kv; clear H. simpl in Hg.
  destruct sop as [[[s o] p]|]; inversion Hg. reflexivity.
Qed.

Lemma edit_sat_default (e : string) :
  ~ contains e "ASC_SAT" -> edit_sat e = PInt 1.
Proof.
  intros Hn. unfold edit_sat.
  rewrite (search_requires "ASC_SAT" sat_pattern e eq_refl Hn). reflexivity.
Qed.

Lemma clip_event_sat (cl : clip) (ev : event) (g : color) :
  clip_event cl = Ok ev -> grade ev = Some g ->
  exists d, meta_cdl cl = Some d /\ sat g = otio_sat d.
Proof.
  unfold clip_event, nonempty_cdl. intros H Hg.
  destruct (meta_cdl cl) as [d|].
  - exists d. split; [reflexivity|].
    destruct (asc_sop d) as [sop|] eqn:Es; simpl in H.
    + rewrite Es in H. inversion H; subst ev. simpl in Hg. inversion Hg.
      reflexivity.
    + destruct (asc_sat d); simpl in H.
      * rewrite Es in H. discriminate H.
      * inversion H; subst ev. discriminate Hg.
  - inversion H; subst ev. discriminate Hg.
Qed.

Lemma otio_sat_default (d : otio_cdl) : asc_sat d = None -> otio_sat d = PFloat 1.
Proof.
  unfold otio_sat. intros ->. reflexivity.
Qed.

(** C3, as the code has it.  [parse_cdl] on a text without a saturation
    element leaves the sat entry [None]; it supplies no default.  An event
    returned by [parse_edl_events] with a colour decision comes from a clip
    or from an edit block, and when that clip has no asc_sat entry (that
    block no ASC_SAT comment) its sat is one: the float 1.0 from the OTIO
    parser, the integer 1 from the regex parser. *)
Theorem saturation_when_absent (w : world) (path : string) :
  (forall text c,
     read_text w path = Ok text ->
     ~ contains (lower text) "<saturation>" ->
     parse_cdl w path = Ok c ->
     cdl_sat c = None)
  /\ (forall co r kv g,
        parse_edl_events w path co = Some r ->
        In kv (events r) ->
        grade (snd kv) = Some g ->
        (exists track cl d,
           otio_read w path = Ok [track] /\ In cl (clips_of track)
           /\ clip_event cl = Ok (snd kv) /\ meta_cdl cl = Some d
           /\ (asc_sat d = None ->
               sat g = PFloat 1 /\ equals_one (sat g) = true))
        \/ (exists text e,
              read_text w path = Ok text /\ In e (edits_of text)
              /\ edit_entry e = Ok kv
              /\ (~ contains e "ASC_SAT" ->
                  sat g = PInt 1 /\ equals_one (sat g) = true))).
Proof.
  split.
  - intros text c Hr Hn Hp.
    destruct (parse_cdl_steps _ _ _ _ Hr Hp) as (_ & _ & _ & Hst & _).
    apply Hst.
    exact (search_requires "<saturation>" saturation_pattern _ eq_refl Hn).
  - intros co r kv g H Hin Hg.
    destruct (parse_edl_events_cases _ _ _ _ H) as [Ho|Hx].
    + left. destruct (otio_events_spec _ _ _ _ Ho) as (track & Hread & A & _).
      destruct (A kv Hin) as (cl & I & E & _).
      destruct (clip_event_sat _ _ _ E Hg) as (d & Hd & Hs).
      exists track, cl, d. do 4 (split; [assumption|]).
      intros Hnone. rewrite Hs, (otio_sat_default _ Hnone).
      split; reflexivity.
    + right. destruct (regex_events_spec _ _ _ _ Hx) as (text & Hread & A & _).
      destruct (A kv Hin) as (e & I & E & _).
      exists text, e. do 3 (split; [assumption|]).
      intros Hnone.
      rewrite (edit_entry_sat _ _ _ E Hg), (edit_sat_default _ Hnone).
      split; reflexivity.
Qed.

Lemma saturation_when_absent_witness :
  (forall c, parse_cdl (grade_world no_saturation_text) "/in/grade.cc" = Ok c ->
             cdl_sat c = None)
  /\ (forall kv g, In kv (events cut_color_edl) -> grade (snd kv) = Some g ->
                   equals_one (sat g) = true).
Proof.
  split.
  - destruct (saturation_when_absent (grade_world no_saturation_text)
                "/in/grade.cc") as [H _].
    intros c. apply (H no_saturation_text).
    + reflexivity.
    + apply cut_none_not_contains. vm_compute. reflexivity.
  - destruct (saturation_when_absent cut_world "/in/cut.edl") as [_ H].
    intros kv g Hin Hg.
    destruct (H true cut_color_edl kv g) as
      [(track & cl & d & Hread & _)|(text & e & Hread & Hin' & He & Hs)];
      try assumption.
    + vm_compute. reflexivity.
    + vm_compute in Hread. discriminate Hread.
    + apply Hs. inversion Hread; subst text.
      vm_compute in Hin'. destruct Hin' as [<-|[<-|[]]];
        apply cut_none_not_contains; vm_compute; reflexivity.
Defined.

(** C3 as stated fails: for a text with slope, offset and power and no
    saturation element, [parse_cdl] returns a complete dictionary whose sat
    is [None], not 1.0. *)
Lemma missing_saturation_not_one :
  exists c,
    parse_cdl (grade_world no_saturation_text) "/in/grade.cc" = Ok c
    /\ complete c
    /\ ~ (exists v, cdl_sat c = Some v /\ equals_one v = true).
Proof.
  eexists. split; [vm_compute; reflexivity|]. split.
  - repeat split; discriminate.
  - intros (v & Hv & _). discriminate Hv.
Qed.

End Grades.

(* ================================================================== *)
(** ** Failure results of [parse_edl_events] *)

Module Failures.

Import Text Num Re Py Lib Path Collect Props Samples Traversal Events ReFacts.

(** A file the OTIO reader cannot decode gives the failure value. *)
Lemma undecodable_gives_false (w : world) (path : string) (co : bool) :
  otio_read w path = Raise UnicodeDecodeError ->
  parse_edl_events w path co = None.
Proof.
  intros H. unfold parse_edl_events, otio_parse_edl_events. rewrite H.
  reflexivity.
Qed.

(** A text without edit blocks makes the regex parser raise: the variable of
    its loop is read after the loop and was never bound. *)
Lemma no_edits_unbound (w : world) (path text : string) (co : bool) :
  read_text w path = Ok text ->
  edits_of text = [] ->
  exists e, regex_parse_edl_events w path co = Raise e.
Proof.
  intros Hr He. unfold regex_parse_edl_events. rewrite Hr. simpl.
  destruct (search edit_pattern text) as [m|].
  - destruct (entry_number (m_text m)) as [n|x]; simpl.
    + rewrite He. simpl. eauto.
    + eauto.
  - simpl. rewrite He. simpl. eauto.
Qed.

(** So, whenever the OTIO parser does not succeed on such a text, the
    result is the same failure value as for a file that does not decode. *)
Lemma no_edits_gives_false (w : world) (path text : string) (co : bool) :
  read_text w path = Ok text ->
  edits_of text = [] ->
  (forall r, otio_parse_edl_events w path co <> Ok r) ->
  parse_edl_events w path co = None.
Proof.
  intros Hr He Ho. unfold parse_edl_events.
  destruct (otio_parse_edl_events w path co) as [r|x].
  - exfalso. exact (Ho r eq_refl).
  - destruct (no_edits_unbound w path text co Hr He) as (e & E). rewrite E.
    destruct x; reflexivity.
Qed.

(** C10, the code at the failing input.  The file with a title and no event
    decodes, has no edit block, and [parse_edl_events] returns for it the
    failure value it also returns for the file that does not decode: the
    OTIO parser raises [IndexError] on the timeline without tracks and the
    regex parser raises [UnboundLocalError]. *)
Theorem empty_edl_same_as_undecodable :
  read_text header_world "/in/cut.edl" = Ok header_text
  /\ edits_of header_text = []
  /\ otio_parse_edl_events header_world "/in/cut.edl" true = Raise IndexError
  /\ regex_parse_edl_events header_world "/in/cut.edl" true
     = Raise UnboundLocalError
  /\ parse_edl_events header_world "/in/cut.edl" true = None
  /\ read_text binary_world "/in/cut.edl" = Raise UnicodeDecodeError
  /\ parse_edl_events binary_world "/in/cut.edl" true = None.
Proof.
  repeat split; vm_compute; reflexivity.
Qed.

End Failures.

(* ================================================================== *)
(** ** The shot-token patterns on the boundary examples *)

Module Tokens.

Import Text Num Re Py Lib Path Collect Props Samples Traversal Events ReFacts.

(** [shot_pattern] ends in a literal backspace: a text without that
    character has no match, whatever tokens it holds. *)
Lemma shot_pattern_needs_backspace (s : string) :
  ~ contains s (String backspace "") -> search shot_pattern s = None.
Proof.
  apply search_requires. reflexivity.
Qed.

(** On a clip whose markers are joined into such a text the OTIO parser
    finds no shot token. *)
Lemma otio_loc_empty (c : clip) :
  ~ contains (join " " (" " :: markers c)) (String backspace "") ->
  otio_loc c = "".
Proof.
  intros H. unfold otio_loc. destruct (markers c) as [|m ms] eqn:E;
    [reflexivity|].
  unfold group_or_empty. rewrite (shot_pattern_needs_backspace _ H).
  reflexivity.
Qed.

(** The examples on which the regex parser's [loc_pattern] does what the
    docstring says. *)
Lemma loc_pattern_agreeing_examples :
  group_or_empty loc_pattern "LOC" (loc_comment "abc_101_010_010_element")
    = "abc_101_010_010_element"
  /\ search loc_pattern (loc_comment "abc_101") = None
  /\ search loc_pattern (loc_comment "abc_101_010_") = None
  /\ group_or_empty loc_pattern "LOC" (loc_comment "101_010_010")
    = "101_010_010".
Proof.
  repeat split; vm_compute; reflexivity.
Qed.

(** C4, the code at the failing inputs.  [loc_pattern] matches the token
    with a leading underscore and extracts it whole, because its component
    class is the word class, to which the underscore belongs.
    [shot_pattern] matches neither abc_101_010_010_element nor 101_010_010
    in the joined marker names, because it ends in a backspace character;
    it matches when that character follows the token. *)
Theorem shot_token_boundary_examples :
  group_or_empty loc_pattern "LOC" (loc_comment "_abc_101_010")
    = "_abc_101_010"
  /\ search shot_pattern (join " " [" "; "abc_101_010_010_element"]) = None
  /\ search shot_pattern (join " " [" "; "101_010_010"]) = None
  /\ otio_loc (marked_clip "abc_101_010_010_element") = ""
  /\ otio_loc (marked_clip "101_010_010") = ""
  /\ group_or_empty shot_pattern "LOC"
       ("  abc_101_010_010_element" ++ String backspace "")%string
     = "abc_101_010_010_element".
Proof.
  repeat split; vm_compute; reflexivity.
Qed.

End Tokens.

(* ================================================================== *)
(** ** Candidates that cannot be parsed, and letter case *)

Module Matching.

Import Text Num Re Py Lib Path Collect Props Samples Traversal Events ReFacts.

(** *** An EDL never stops the scan *)

Lemma edl_matches_total (source_name item_name color_file : string)
  (evs : list (key * event)) :
  (forall kv, In kv evs -> grade (snd kv) <> None) ->
  forall acc, exists ms,
    edl_matches source_name item_name color_file evs acc = Ok ms.
Proof.
  induction evs as [|[k ev] evs IH]; intros Hc acc; simpl.
  - eauto.
  - assert (Hev : grade ev <> None) by (apply (Hc (k, ev)); left; reflexivity).
    unfold event_cdl. destruct (grade ev) as [g|]; [|congruence]. simpl.
    assert (Hc' : forall kv, In kv evs -> grade (snd kv) <> None)
      by (intros kv Hin; apply Hc; right; exact Hin).
    destruct (loc_priority source_name item_name ev); apply IH; exact Hc'.
Qed.

Lemma color_only_events_colored (w : world) (path : string) (r : edl) :
  parse_edl_events w path true = Some r ->
  forall kv, In kv (events r) -> grade (snd kv) <> None.
Proof.
  intros H kv Hin.
  assert (K : kept true (snd kv) = true).
  { destruct (parse_edl_events_cases _ _ _ _ H) as [Ho|Hr].
    - destruct (otio_events_spec _ _ _ _ Ho) as (track & _ & A & _).
      destruct (A kv Hin) as (cl & _ & _ & K). exact K.
    - destruct (regex_events_spec _ _ _ _ Hr) as (text & _ & A & _).
      destruct (A kv Hin) as (e & _ & _ & K). exact K. }
  unfold kept, colored in K. destruct (grade (snd kv)); [discriminate|].
  discriminate K.
Qed.

(** For an EDL file the body of the loop always completes; a file that
    [parse_edl_events] fails on leaves [matches] as it was. *)
Lemma edl_file_never_raises (w : world) (source_name source_name_no_color
  item_name color_file : string) (acc : list candidate) :
  (exists ms,
     file_matches w source_name source_name_no_color item_name "edl"
       color_file acc = Ok ms)
  /\ (parse_edl_events w color_file true = None ->
      file_matches w source_name source_name_no_color item_name "edl"
        color_file acc = Ok acc).
Proof.
  unfold file_matches. simpl.
  destruct (parse_edl_events w color_file true) as [r|] eqn:E.
  - split; [|discriminate].
    apply edl_matches_total. exact (color_only_events_colored _ _ _ E).
  - split; [eauto | reflexivity].
Qed.

(** *** A grade file that fails to parse stops the scan *)

Section Raise.

Variable w : world.
Variables source_name source_name_no_color item_name : string.

Lemma file_matches_raise (color_ext color_file : string) (p : Z) (e : exn)
  (acc : list candidate) :
  String.eqb color_ext "edl" = false ->
  name_priority source_name source_name_no_color item_name color_file = Some p ->
  parse_cdl w color_file = Raise e ->
  file_matches w source_name source_name_no_color item_name color_ext
    color_file acc = Raise e.
Proof.
  intros Hx Hp Hc. unfold file_matches. rewrite Hx, Hp, Hc. reflexivity.
Qed.

Lemma files_matches_raise (color_ext color_file : string) (p : Z) (e : exn)
  (fs : list string) :
  String.eqb color_ext "edl" = false ->
  name_priority source_name source_name_no_color item_name color_file = Some p ->
  parse_cdl w color_file = Raise e ->
  In color_file fs ->
  forall acc, exists e',
    files_matches w source_name source_name_no_color item_name color_ext fs acc
    = Raise e'.
Proof.
  intros Hx Hp Hc. induction fs as [|f fs IH]; simpl; [tauto|].
  intros Hin acc.
  destruct (file_matches w source_name source_name_no_color item_name
              color_ext f acc) as [acc'|e'] eqn:E; simpl; [|eauto].
  destruct Hin as [->|Hin].
  - rewrite (file_matches_raise _ _ _ _ _ Hx Hp Hc) in E. discriminate E.
  - exact (IH Hin acc').
Qed.

Lemma exts_matches_raise (color_files : list (string * list string))
  (color_ext color_file : string) (p : Z) (e : exn) (fs exts : list string) :
  String.eqb color_ext "edl" = false ->
  name_priority source_name source_name_no_color item_name color_file = Some p ->
  parse_cdl w color_file = Raise e ->
  str_get color_ext color_files = Some fs ->
  In color_file fs ->
  In color_ext exts ->
  forall acc, exists e',
    exts_matches w color_files source_name source_name_no_color item_name
      exts acc = Raise e'.
Proof.
  intros Hx Hp Hc Hg Hf. induction exts as [|x exts IH]; simpl; [tauto|].
  intros Hin acc.
  destruct (match str_get x color_files with
            | Some ext_color_files =>
                files_matches w source_name source_name_no_color item_name x
                  ext_color_files acc
            | None => Ok acc
            end) as [acc'|e'] eqn:E; simpl; [|eauto].
  destruct Hin as [->|Hin].
  - rewrite Hg in E.
    destruct (files_matches_raise _ _ _ _ _ Hx Hp Hc Hf acc) as (e' & E').
    rewrite E' in E. discriminate E.
  - exact (IH Hin acc').
Qed.

End Raise.

(** Whenever a file of a known extension other than edl matches by name and
    [parse_cdl] raises on it, [priority_color_file] ends in an exception,
    whatever the other candidates are. *)
Lemma unparsable_grade_file_raises (w : world)
  (color_files : list (string * list string)) (item_name source_name : string)
  (color_ext color_file : string) (fs : list string) (p : Z) (e : exn) :
  In color_ext COLOR_FILE_EXTS ->
  String.eqb color_ext "edl" = false ->
  str_get color_ext color_files = Some fs ->
  In color_file fs ->
  name_priority (lower source_name) (no_color (lower source_name)) item_name
    color_file = Some p ->
  parse_cdl w color_file = Raise e ->
  exists e', priority_color_file w color_files item_name source_name = Raise e'.
Proof.
  intros Hin Hx Hg Hf Hp Hc. unfold priority_color_file, collect_matches.
  destruct (exts_matches_raise w _ _ _ color_files _ _ _ _ _ _
              Hx Hp Hc Hg Hf Hin []) as (e' & E).
  rewrite E. simpl. eauto.
Qed.

(** C7, the code at the failing inputs.  With shota.ccc readable and
    shota.cc either not decodable or holding a malformed number, the call
    ends in the exception [parse_cdl] raised on shota.cc, although
    shota.ccc had already matched; while an EDL that does not decode is
    skipped and shota.ccc is returned. *)
Theorem cdl_failure_aborts_scan :
  priority_color_file undecodable_cc_world pair_files "shot010" "shota"
    = Raise UnicodeDecodeError
  /\ priority_color_file malformed_cc_world pair_files "shot010" "shota"
    = Raise ValueError
  /\ priority_color_file undecodable_edl_world with_edl_files "shot010" "shota"
    = Ok (Some (1%Z, full_cdl "/in/shota.ccc", "/in/shota.ccc")).
Proof.
  repeat split; vm_compute; reflexivity.
Qed.

(** *** Letter case *)

Lemma lower_char_idem (a : ascii) : lower_char (lower_char a) = lower_char a.
Proof.
  destruct a as [[] [] [] [] [] [] [] []]; reflexivity.
Qed.

Lemma lower_idem (s : string) : lower (lower s) = lower s.
Proof.
  induction s as [|a s IH]; simpl; [reflexivity|].
  rewrite lower_char_idem, IH. reflexivity.
Qed.

Lemma lower_char_slash (a : ascii) :
  Ascii.eqb (lower_char a) "/" = Ascii.eqb a "/".
Proof.
  destruct a as [[] [] [] [] [] [] [] []]; reflexivity.
Qed.

Lemma lower_char_dot (a : ascii) :
  Ascii.eqb (lower_char a) "." = Ascii.eqb a ".".
Proof.
  destruct a as [[] [] [] [] [] [] [] []]; reflexivity.
Qed.

Lemma rcut_lower (c : ascii) (s : string) :
  (forall a, Ascii.eqb (lower_char a) c = Ascii.eqb a c) ->
  rcut c (lower s) =
  match rcut c s with
  | Some (l, r) => Some (lower l, lower r)
  | None => None
  end.
Proof.
  intros Hc. induction s as [|a s IH]; simpl; [reflexivity|].
  rewrite IH. destruct (rcut c s) as [[l r]|]; [reflexivity|].
  rewrite Hc. destruct (Ascii.eqb a c); reflexivity.
Qed.

Lemma basename_lower (p : string) : basename (lower p) = lower (basename p).
Proof.
  unfold basename. rewrite (rcut_lower _ _ lower_char_slash).
  destruct (rcut "/" p) as [[l r]|]; reflexivity.
Qed.

Lemma all_dots_lower (s : string) : all_dots (lower s) = all_dots s.
Proof.
  induction s as [|a s IH]; simpl; [reflexivity|].
  rewrite lower_char_dot, IH. reflexivity.
Qed.

Lemma splitext_root_lower (n : string) :
  splitext_root (lower n) = lower (splitext_root n).
Proof.
  unfold splitext_root. rewrite (rcut_lower _ _ lower_char_dot).
  destruct (rcut "." n) as [[l r]|]; [|reflexivity].
  rewrite all_dots_lower. destruct (all_dots l); reflexivity.
Qed.

Lemma file_stem_lower (f : string) :
  file_stem f = splitext_root (basename (lower f)).
Proof.
  unfold file_stem. rewrite basename_lower, splitext_root_lower. reflexivity.
Qed.

(** The name priority does not depend on the letter case of the file name
    nor, through [collect_matches], on that of the source name. *)
Lemma name_priority_file_case (source_name source_name_no_color item_name
  f1 f2 : string) :
  lower f1 = lower f2 ->
  name_priority source_name source_name_no_color item_name f1
  = name_priority source_name source_name_no_color item_name f2.
Proof.
  intros H. unfold name_priority. rewrite !file_stem_lower, H. reflexivity.
Qed.

Lemma collect_matches_source_case (w : world) (exts : list string)
  (color_files : list (string * list string)) (item_name s1 s2 : string) :
  lower s1 = lower s2 ->
  collect_matches w exts color_files item_name s1
  = collect_matches w exts color_files item_name s2.
Proof.
  intros H. unfold collect_matches. rewrite H. reflexivity.
Qed.

(** *** A shot name with a capital letter matches no file *)

Lemma file_stem_is_lower (f : string) : lower (file_stem f) = file_stem f.
Proof.
  unfold file_stem. apply lower_idem.
Qed.

Lemma capital_shot_name_never_matches (source_name source_name_no_color
  item_name color_file : string) :
  lower item_name <> item_name ->
  name_priority source_name source_name_no_color item_name color_file
  <> Some 8%Z.
Proof.
  intros Hl. unfold name_priority.
  destruct (String.eqb source_name (file_stem color_file)); [discriminate|].
  destruct (String.eqb item_name (file_stem color_file)) eqn:E.
  - apply String.eqb_eq in E. exfalso. apply Hl. rewrite E.
    apply file_stem_is_lower.
  - destruct (String.eqb source_name_no_color (no_color (file_stem color_file)));
      discriminate.
Qed.
(** C8, the code at the failing input.  The shot name is compared as the
    caller gave it with the lower-cased stem: shot01 matches shot01.cdl at
    8 + 3 = 11, the same name in capitals matches nothing. *)
Theorem shot_name_case_matters :
  priority_color_file shot_world shot_files "shot01" "plate_v1"
    = Ok (Some (11%Z, full_cdl "/in/shot01.cdl", "/in/shot01.cdl"))
  /\ priority_color_file shot_world shot_files "SHOT01" "plate_v1" = Ok None
  /\ lower "SHOT01" = lower "shot01".
Proof.
  repeat split; vm_compute; reflexivity.
Qed.

End Matching.

(* ================================================================== *)
(** ** The order in which [get_color_file] scans the packages *)

Module Packages.

Import Text Num Re Py Lib Path Collect Props Samples SortFacts Traversal ReFacts.

(** *** Facts on [remove] and [in] *)

Lemma mem_in (x : string) (l : list string) : mem x l = true <-> In x l.
Proof.
  unfold mem. rewrite existsb_exists. split.
  - intros (y & Hin & E). apply String.eqb_eq in E. subst y. exact Hin.
  - intros Hin. exists x. split; [exact Hin | apply String.eqb_refl].
Qed.




(** *** The package component is part of the source path *)

Lemma cut_spec (sep s l r : string) :
  cut sep s = Some (l, r) -> s = (l ++ sep ++ r)%string.
Proof.
  revert l r. induction s as [|a s IH]; intros l r; simpl.
  - destruct sep; simpl; [|discriminate]. intros H; inversion H. reflexivity.
  - destruct (strip_prefix sep (String a s)) as [rest|] eqn:E.
    + intros H; inversion H; subst. simpl.
      clear IH. revert E. generalize (String a s). clear.
      induction sep as [|b sep IHs]; intros t E; simpl in *.
      * inversion E. reflexivity.
      * destruct t as [|c t]; [discriminate|].
        destruct (Ascii.eqb b c) eqn:Ebc; [|discriminate].
        apply Ascii.eqb_eq in Ebc. subst c. rewrite (IHs _ E). reflexivity.
    + destruct (cut sep s) as [[l' r']|]; [|discriminate].
      intros H; inversion H; subst. simpl. rewrite (IH _ _ eq_refl).
      reflexivity.
Qed.







(** *** The loop stops at the first package that yields a file *)

Lemma scan_packages_first (w : world) (item_name source_name : string)
  (paths : list string) :
  forall last r,
    scan_packages w item_name source_name paths last = Ok r ->
    found last = false ->
    found r = true ->
    exists l1 d l2,
      paths = l1 ++ d :: l2
      /\ package_result w item_name source_name d = Ok r
      /\ Forall (fun d' =>
                   exists r', package_result w item_name source_name d' = Ok r'
                              /\ found r' = false) l1.
Proof.
  induction paths as [|d paths IH]; simpl; intros last r H Hl Hf.
  - inversion H; subst r. congruence.
  - apply bind_ok in H. destruct H as (r0 & Hp & H).
    destruct (found r0) eqn:F.
    + inversion H; subst r0. exists [], d, paths. repeat split; auto.
    + destruct (IH _ _ H F Hf) as (l1 & d1 & l2 & -> & Hd & Hall).
      exists (d :: l1), d1, l2. repeat split; auto.
      constructor; [|exact Hall]. exists r0. auto.
Qed.

(** *** The list the loop goes through *)





End Packages.

(* ================================================================== *)
(** ** What [get_files] lists *)

Module Listing.

Import Text Num Re Py Lib Path Collect Props Notions.

Lemma str_get_add_file (e ext p : string) (files : list (string * list string)) :
  str_get e (add_file ext p files) =
  if String.eqb ext e
  then Some (match str_get ext files with
             | Some ps => ps ++ [p]
             | None => [p; p]
             end)
  else str_get e files.
Proof.
  induction files as [|[k ps] files IH]; simpl.
  - destruct (String.eqb ext e); reflexivity.
  - destruct (String.eqb k ext) eqn:K; simpl.
    + apply String.eqb_eq in K. subst k.
      destruct (String.eqb ext e); reflexivity.
    + rewrite IH. destruct (String.eqb ext e) eqn:E; [|reflexivity].
      apply String.eqb_eq in E. subst e. rewrite K. reflexivity.
Qed.

Lemma listed_twice_snoc_some (l : list string) (p : string) :
  listed_twice (l ++ [p])
  = Some (match listed_twice l with
          | Some ps => ps ++ [p]
          | None => [p; p]
          end).
Proof.
  destruct l as [|f fs]; reflexivity.
Qed.

(** The invariant of the loop of [get_files]: after the paths [seen], each
    extension of [filters] holds the resolved paths of its files, the first
    one twice, and no other key exists. *)
Lemma get_files_loop (filters : list string) (todo : list (string * string)) :
  forall (seen : list (string * string)) (files : list (string * list string)),
    (forall ext,
       str_get ext files =
       if mem ext filters
       then listed_twice (map snd (filter (has_suffix ext) seen))
       else None) ->
    forall ext,
      str_get ext (fold_left (get_files_step filters) todo files) =
      if mem ext filters
      then listed_twice (map snd (filter (has_suffix ext) (seen ++ todo)))
      else None.
Proof.
  induction todo as [|fd todo IH]; intros seen files Hinv ext; simpl.
  - rewrite app_nil_r. apply Hinv.
  - replace (seen ++ fd :: todo) with ((seen ++ [fd]) ++ todo)
      by (rewrite <- app_assoc; reflexivity).
    apply IH. clear IH ext. intros ext.
    unfold get_files_step.
    rewrite filter_app, map_app. simpl. unfold has_suffix at 2.
    destruct (suffix (fst fd)) as [e|] eqn:S.
    + destruct (mem e filters) eqn:M.
      * rewrite str_get_add_file.
        destruct (String.eqb e ext) eqn:E.
        -- apply String.eqb_eq in E. subst e. rewrite M. simpl.
           rewrite listed_twice_snoc_some.
           rewrite (Hinv ext), M. reflexivity.
        -- simpl. rewrite app_nil_r. apply Hinv.
      * destruct (String.eqb e ext) eqn:E.
        -- apply String.eqb_eq in E. subst e. rewrite M, Hinv, M. reflexivity.
        -- simpl. rewrite app_nil_r. apply Hinv.
    + simpl. rewrite app_nil_r. apply Hinv.
Qed.

Lemma get_files_entry (w : world) (package_path : string)
  (filters : list string) (ext : string) :
  str_get ext (get_files w package_path filters) =
  if mem ext filters
  then listed_twice (files_of_ext w package_path ext)
  else None.
Proof.
  unfold get_files, files_of_ext.
  apply (get_files_loop filters (rglob w package_path) [] []).
  intros e. simpl. destruct (mem e filters); reflexivity.
Qed.

(** X1.  [get_files] gives every extension of the filter that has a file the
    resolved paths of its files in the order of the glob, with the first
    path listed twice; an extension without file, or outside the filter, has
    no entry. *)
Theorem get_files_lists (w : world) (package_path : string)
  (filters : list string) (ext : string) :
  str_get ext (get_files w package_path filters) =
  if mem ext filters
  then listed_twice (files_of_ext w package_path ext)
  else None.
Proof.
  apply get_files_entry.
Qed.

End Listing.

(* ================================================================== *)
(** ** What [priority_color_file] can return *)

Module Winner.

Import Text Num Re Py Lib Path Collect Props Notions SortFacts Traversal Events
       ReFacts Grades Listing.

Lemma in_traversal (exts : list string)
  (color_files : list (string * list string)) (ext f : string) :
  In (ext, f) (traversal exts color_files) <->
  In ext exts /\ exists fs, str_get ext color_files = Some fs /\ In f fs.
Proof.
  unfold traversal. rewrite in_flat_map. split.
  - intros (e & He & Hin). destruct (str_get e color_files) as [fs|] eqn:G;
      [|destruct Hin].
    apply in_map_iff in Hin. destruct Hin as (f' & E & Hf).
    inversion E; subst. split; [exact He|]. exists fs. auto.
  - intros (He & fs & G & Hf). exists ext. split; [exact He|].
    rewrite G. apply in_map. exact Hf.
Qed.

Lemma in_concat_Forall2 {A B : Type} (R : A -> list B -> Prop) (l : list A)
  (per : list (list B)) (m : B) :
  Forall2 R l per -> In m (concat per) ->
  exists x ms, In x l /\ R x ms /\ In m ms.
Proof.
  induction 1 as [|x ms l per Hx HF IH]; simpl; [tauto|].
  intros Hin. apply in_app_or in Hin. destruct Hin as [Hin|Hin].
  - exists x, ms. auto.
  - destruct (IH Hin) as (x' & ms' & I & Rx & Im). exists x', ms'. auto.
Qed.

Lemma edl_matches_in (source_name item_name color_file : string)
  (evs : list (key * event)) :
  forall ms m,
    edl_matches source_name item_name color_file evs [] = Ok ms ->
    In m ms ->
    exists kv c p,
      In kv evs /\ event_cdl (snd kv) = Ok c
      /\ loc_priority source_name item_name (snd kv) = Some p
      /\ m = (p, c, color_file).
Proof.
  induction evs as [|[k ev] evs IH]; simpl; intros ms m H Hin.
  - inversion H; subst ms. destruct Hin.
  - apply bind_ok in H. destruct H as (c & Hc & H).
    destruct (loc_priority source_name item_name ev) as [p|] eqn:L.
    + rewrite edl_matches_app in H. apply bind_ok in H.
      destruct H as (new & Hn & E). inversion E; subst ms; clear E.
      simpl in Hin. destruct Hin as [<-|Hin].
      * exists (k, ev), c, p. simpl. auto.
      * destruct (IH _ _ Hn Hin) as (kv & c' & p' & I & Ec & Lp & Em).
        exists kv, c', p'. auto.
    + destruct (IH _ _ H Hin) as (kv & c' & p' & I & Ec & Lp & Em).
      exists kv, c', p'. auto.
Qed.

Lemma name_priority_values (source_name source_name_no_color item_name
  color_file : string) (p : Z) :
  name_priority source_name source_name_no_color item_name color_file = Some p ->
  In p [0; 8; 4]%Z.
Proof.
  unfold name_priority.
  destruct (String.eqb source_name _); [intros H; inversion H; simpl; auto|].
  destruct (String.eqb item_name _); [intros H; inversion H; simpl; auto|].
  destruct (String.eqb source_name_no_color _);
    intros H; inversion H; simpl; auto.
Qed.

Lemma type_priority_values (color_ext : string) :
  In (type_priority color_ext) [0; 1; 3]%Z.
Proof.
  unfold type_priority.
  destruct (String.eqb color_ext "cc"); [simpl; auto|].
  destruct (String.eqb color_ext "ccc"); [simpl; auto|].
  destruct (String.eqb color_ext "cdl"); simpl; auto.
Qed.

Lemma loc_priority_values (source_name item_name : string) (ev : event) (p : Z) :
  loc_priority source_name item_name ev = Some p -> In p edl_priorities.
Proof.
  unfold loc_priority, edl_priorities.
  destruct (String.eqb source_name _); [intros H; inversion H; simpl; auto|].
  destruct (String.eqb item_name _); intros H; inversion H; simpl; auto.
Qed.

Lemma event_cdl_shape (ev : event) (c : cdl) :
  event_cdl ev = Ok c -> cdl_file c = None /\ complete c.
Proof.
  unfold event_cdl. destruct (grade ev) as [g|]; [|discriminate].
  intros H. inversion H; subst c. simpl.
  split; [reflexivity|]. repeat split; discriminate.
Qed.

Lemma parse_cdl_file (w : world) (path : string) (c : cdl) :
  parse_cdl w path = Ok c -> cdl_file c = Some path.
Proof.
  intros H. destruct (read_text w path) as [text|e] eqn:R.
  - destruct (parse_cdl_steps _ _ _ _ R H) as (_ & _ & _ & _ & F). exact F.
  - unfold parse_cdl in H. rewrite R in H. discriminate H.
Qed.

Lemma winner_visit (w : world)
  (color_files : list (string * list string)) (item_name source_name : string)
  (p : Z) (c : cdl) (f : string) :
  priority_color_file w color_files item_name source_name = Ok (Some (p, c, f)) ->
  exists ext fs,
    In ext COLOR_FILE_EXTS /\ str_get ext color_files = Some fs /\ In f fs
    /\ ((ext <> "edl" /\ parse_cdl w f = Ok c /\ cdl_file c = Some f
         /\ In p file_priorities)
        \/ (ext = "edl" /\ In p edl_priorities /\ cdl_file c = None
            /\ complete c
            /\ exists r kv,
                 parse_edl_events w f true = Some r /\ In kv (events r)
                 /\ event_cdl (snd kv) = Ok c)).
Proof.
  intros H. unfold priority_color_file in H. apply bind_ok in H.
  destruct H as (ms & Hm & H). inversion H as [Hb]; clear H.
  rewrite best_first_least in Hb.
  destruct (first_least_split _ _ _ Hb) as (l1 & l2 & El & _).
  unfold collect_matches in Hm. apply exts_matches_concat in Hm.
  destruct Hm as (per & HF & Ems). simpl in Ems.
  assert (Hin : In (p, c, f) (concat per)).
  { rewrite <- Ems, El. apply in_or_app. right. left. reflexivity. }
  destruct (in_concat_Forall2 _ _ _ _ HF Hin) as ([ext f'] & ms' & Iv & Hc & Im).
  simpl in Hc. apply in_traversal in Iv. destruct Iv as (Iext & fs & G & If).
  unfold file_matches in Hc.
  destruct (String.eqb ext "edl") eqn:X; simpl in Hc.
  - apply String.eqb_eq in X. subst ext.
    destruct (parse_edl_events w f' true) as [r|] eqn:P;
      [|inversion Hc; subst ms'; destruct Im].
    destruct (edl_matches_in _ _ _ _ _ _ Hc Im) as (kv & c' & p' & I & Ec & Lp & Em).
    inversion Em; subst p' c' f'. exists "edl", fs.
    do 3 (split; [assumption|]). right.
    destruct (event_cdl_shape _ _ Ec) as (Hf & Hcomp).
    split; [reflexivity|]. split; [exact (loc_priority_values _ _ _ _ Lp)|].
    split; [exact Hf|]. split; [exact Hcomp|]. exists r, kv. auto.
  - destruct (name_priority _ _ _ f') as [b|] eqn:N;
      [|inversion Hc; subst ms'; destruct Im].
    apply bind_ok in Hc. destruct Hc as (c' & Pc & Hc).
    inversion Hc; subst ms'; clear Hc.
    destruct Im as [Em|[]]. inversion Em; subst p c' f'.
    exists ext, fs. do 3 (split; [assumption|]). left.
    split; [intros ->; discriminate X|]. split; [exact Pc|].
    split; [exact (parse_cdl_file _ _ _ Pc)|].
    pose proof (name_priority_values _ _ _ _ _ N) as Hb'.
    pose proof (type_priority_values ext) as Ht.
    unfold file_priorities. simpl in Hb', Ht |- *.
    destruct Hb' as [<-|[<-|[<-|[]]]]; destruct Ht as [<-|[<-|[<-|[]]]];
      simpl; tauto.
Qed.


(** X2.  The triple [priority_color_file] returns is about one of the files it
    was given.  From a file that is not an EDL it carries what [parse_cdl]
    made of that very file and one of the priorities 0, 1, 3, 4, 5, 7, 8, 9,
    11; from an EDL it carries the complete colour decision of one of the
    events [parse_edl_events] returned, without a file entry, and the
    priority 2 or 10. *)
Theorem winner_is_a_candidate (w : world)
  (color_files : list (string * list string)) (item_name source_name : string)
  (p : Z) (c : cdl) (f : string) :
  priority_color_file w color_files item_name source_name = Ok (Some (p, c, f)) ->
  exists ext fs,
    In ext COLOR_FILE_EXTS /\ str_get ext color_files = Some fs /\ In f fs
    /\ ((ext <> "edl" /\ parse_cdl w f = Ok c /\ cdl_file c = Some f
         /\ In p file_priorities)
        \/ (ext = "edl" /\ In p edl_priorities /\ cdl_file c = None
            /\ complete c
            /\ exists r kv,
                 parse_edl_events w f true = Some r /\ In kv (events r)
                 /\ event_cdl (snd kv) = Ok c)).
Proof.
  apply winner_visit.
Qed.

Lemma winner_is_a_candidate_witness :
  exists ext fs,
    In ext COLOR_FILE_EXTS /\ str_get ext Samples.example_files = Some fs
    /\ In "shotA.cc" fs.
Proof.
  destruct (winner_is_a_candidate Samples.example_world Samples.example_files
              "shot01" "shotA_cc" 4%Z (Samples.full_cdl "shotA.cc") "shotA.cc")
    as (ext & fs & H1 & H2 & H3 & _).
  - vm_compute. reflexivity.
  - exists ext, fs. auto.
Defined.

(** *** Files that match nothing are not read *)

Section Unread.

Variable w : world.
Variables source_name source_name_no_color item_name : string.

Lemma files_matches_unread (color_ext : string) (fs : list string)
  (acc : list candidate) :
  String.eqb color_ext "edl" = false ->
  (forall f, In f fs ->
     name_priority source_name source_name_no_color item_name f = None) ->
  files_matches w source_name source_name_no_color item_name color_ext fs acc
  = Ok acc.
Proof.
  intros X. induction fs as [|f fs IH]; simpl; intros Hn; [reflexivity|].
  unfold file_matches. rewrite X. simpl.
  rewrite (Hn f) by (left; reflexivity). simpl.
  apply IH. intros f' Hf. apply Hn. right. exact Hf.
Qed.

Lemma exts_matches_unread (color_files : list (string * list string))
  (exts : list string) (acc : list candidate) :
  (forall ext f, In (ext, f) (traversal exts color_files) ->
     ext <> "edl"
     /\ name_priority source_name source_name_no_color item_name f = None) ->
  exts_matches w color_files source_name source_name_no_color item_name exts acc
  = Ok acc.
Proof.
  induction exts as [|ext exts IH]; simpl; intros Hn; [reflexivity|].
  assert (Hrest : forall e f, In (e, f) (traversal exts color_files) ->
            e <> "edl"
            /\ name_priority source_name source_name_no_color item_name f = None).
  { intros e f Hin. apply Hn. apply in_or_app. right. exact Hin. }
  destruct (str_get ext color_files) as [fs|] eqn:G; simpl.
  - destruct fs as [|f0 fs0] eqn:Efs.
    + simpl. apply IH. exact Hrest.
    + rewrite files_matches_unread.
      * simpl. apply IH. exact Hrest.
      * apply String.eqb_neq.
        apply (Hn ext f0). apply in_or_app. left. simpl. left. reflexivity.
      * intros f Hf. apply (Hn ext f). apply in_or_app. left.
        apply in_map. exact Hf.
  - apply IH. exact Hrest.
Qed.

End Unread.

(** X3.  When no EDL is among the candidates and no file name matches the source
    name, its form without colour tag or the shot name, the result is the
    empty triple in every world: no file is opened, so a candidate that
    cannot be read does no harm. *)
Theorem unrelated_files_not_read (w : world)
  (color_files : list (string * list string)) (item_name source_name : string) :
  (forall ext f, In (ext, f) (traversal COLOR_FILE_EXTS color_files) ->
     ext <> "edl"
     /\ name_priority (lower source_name) (no_color (lower source_name))
          item_name f = None) ->
  priority_color_file w color_files item_name source_name = Ok None.
Proof.
  intros H. unfold priority_color_file, collect_matches.
  rewrite exts_matches_unread by exact H. reflexivity.
Qed.

Lemma unrelated_files_not_read_witness :
  priority_color_file Samples.undecodable_cc_world Samples.pair_files
    "shot010" "other_plate" = Ok None.
Proof.
  apply unrelated_files_not_read. intros ext f Hin.
  vm_compute in Hin.
  destruct Hin as [E|[E|[]]]; inversion E; subst; split;
    try discriminate; vm_compute; reflexivity.
Defined.

End Winner.

(* ================================================================== *)
(** ** The repeated first file of a listing *)

Module Repeats.

Import Text Num Re Py Lib Path Collect Props Notions SortFacts Traversal Listing.

Section Pick.

Context {A : Type} (key : A -> Z).

Lemma first_least_app (a b : list A) :
  first_least key (a ++ b) = pick key (first_least key a) (first_least key b).
Proof.
  induction a as [|x a IH]; simpl.
  - destruct (first_least key b); reflexivity.
  - rewrite IH.
    destruct (first_least key a) as [m|], (first_least key b) as [n|]; simpl;
      repeat match goal with
             | |- context [(?u <=? ?v)%Z] =>
                 let E := fresh "E" in destruct (u <=? v)%Z eqn:E; simpl
             end;
      try reflexivity; exfalso;
      repeat match goal with
             | H : (_ <=? _)%Z = true |- _ => apply Z.leb_le in H
             | H : (_ <=? _)%Z = false |- _ => apply Z.leb_gt in H
             end; lia.
Qed.

Lemma pick_absorb (a b : option A) :
  pick key a (pick key a b) = pick key a b.
Proof.
  destruct a as [x|], b as [y|]; simpl; try reflexivity.
  - destruct (key x <=? key y)%Z eqn:E; simpl; rewrite ?E, ?Z.leb_refl;
      reflexivity.
  - rewrite Z.leb_refl. reflexivity.
Qed.

Lemma first_least_repeat (c rest : list A) :
  first_least key (c ++ c ++ rest) = first_least key (c ++ rest).
Proof.
  rewrite !first_least_app. apply pick_absorb.
Qed.

End Pick.

Section Loops.

Variable w : world.
Variables source_name source_name_no_color item_name : string.

Lemma files_matches_app (color_ext : string) (fs : list string)
  (acc : list candidate) :
  files_matches w source_name source_name_no_color item_name color_ext fs acc =
  (new <- files_matches w source_name source_name_no_color item_name
            color_ext fs [] ;;
   Ok (acc ++ new)).
Proof.
  revert acc. induction fs as [|f fs IH]; intros acc; simpl.
  - rewrite app_nil_r. reflexivity.
  - rewrite file_matches_app.
    rewrite (file_matches_app w source_name source_name_no_color item_name
               color_ext f []).
    destruct (file_matches w source_name source_name_no_color item_name
                color_ext f []) as [cf|e]; simpl; [|reflexivity].
    rewrite IH. rewrite (IH cf).
    destruct (files_matches w source_name source_name_no_color item_name
                color_ext fs []) as [new|e]; simpl; [|reflexivity].
    rewrite app_assoc. reflexivity.
Qed.

(** Visiting the first file of a list twice changes neither the exception
    nor the best match. *)
Lemma repeated_first_file (color_ext f : string) (fs : list string) :
  same_answer
    (files_matches w source_name source_name_no_color item_name color_ext
       (f :: f :: fs) [])
    (files_matches w source_name source_name_no_color item_name color_ext
       (f :: fs) []).
Proof.
  simpl.
  rewrite (file_matches_app w source_name source_name_no_color item_name
             color_ext f []).
  destruct (file_matches w source_name source_name_no_color item_name
              color_ext f []) as [cf|e] eqn:Ef; simpl; [|reflexivity].
  rewrite (file_matches_app w source_name source_name_no_color item_name
             color_ext f cf). rewrite Ef. simpl.
  rewrite (files_matches_app color_ext fs (cf ++ cf)).
  rewrite (files_matches_app color_ext fs cf).
  destruct (files_matches w source_name source_name_no_color item_name
              color_ext fs []) as [rest|e]; simpl; [|reflexivity].
  rewrite <- app_assoc. apply first_least_repeat.
Qed.

Lemma exts_matches_same (d1 d2 : list (string * list string))
  (exts : list string) :
  (forall ext, In ext exts ->
     same_answer
       (ext_result w source_name source_name_no_color item_name d1 ext)
       (ext_result w source_name source_name_no_color item_name d2 ext)) ->
  forall acc1 acc2,
    first_least priority_of acc1 = first_least priority_of acc2 ->
    same_answer
      (exts_matches w d1 source_name source_name_no_color item_name exts acc1)
      (exts_matches w d2 source_name source_name_no_color item_name exts acc2).
Proof.
  induction exts as [|ext exts IH]; simpl; intros He acc1 acc2 Hacc.
  - exact Hacc.
  - pose proof (He ext (or_introl eq_refl)) as H0. unfold ext_result in H0.
    assert (Hrest : forall e, In e exts ->
              same_answer
                (ext_result w source_name source_name_no_color item_name d1 e)
                (ext_result w source_name source_name_no_color item_name d2 e))
      by (intros e Hin; apply He; right; exact Hin).
    assert (Step : forall (r1 r2 : result (list candidate)),
              same_answer r1 r2 ->
              same_answer
                (acc' <- (new <- r1 ;; Ok (acc1 ++ new)) ;;
                 exts_matches w d1 source_name source_name_no_color item_name
                   exts acc')
                (acc' <- (new <- r2 ;; Ok (acc2 ++ new)) ;;
                 exts_matches w d2 source_name source_name_no_color item_name
                   exts acc')).
    { intros [l1|e1] [l2|e2] Hr; simpl in *; try contradiction; [|exact Hr].
      apply IH; [exact Hrest|]. rewrite !first_least_app, Hacc, Hr.
      reflexivity. }
    destruct (str_get ext d1) as [fs1|], (str_get ext d2) as [fs2|].
    + rewrite (files_matches_app ext fs1 acc1), (files_matches_app ext fs2 acc2).
      apply Step. exact H0.
    + rewrite (files_matches_app ext fs1 acc1).
      replace (Ok acc2) with (new <- Ok [] ;; Ok (acc2 ++ new))
        by (simpl; rewrite app_nil_r; reflexivity).
      apply Step. exact H0.
    + rewrite (files_matches_app ext fs2 acc2).
      replace (Ok acc1) with (new <- Ok [] ;; Ok (acc1 ++ new))
        by (simpl; rewrite app_nil_r; reflexivity).
      apply Step. exact H0.
    + apply IH; assumption.
Qed.

End Loops.

Lemma str_get_plain_files (w : world) (package_path : string)
  (filters : list string) (ext : string) :
  str_get ext (plain_files w package_path filters) =
  if mem ext filters then Some (files_of_ext w package_path ext) else None.
Proof.
  unfold plain_files, mem. induction filters as [|e filters IH]; simpl;
    [reflexivity|].
  rewrite (String.eqb_sym ext e).
  destruct (String.eqb e ext) eqn:E; simpl; [|exact IH].
  apply String.eqb_eq in E. subst e. reflexivity.
Qed.

(** X4.  The first file of every extension is visited twice, since [get_files]
    lists it twice; the answer of [priority_color_file] on the listing of a
    package (the triple, the empty triple or the exception) is nevertheless
    the one it gives on the listing with every file once. *)
Theorem repeated_file_harmless (w : world)
  (package_path item_name source_name : string) :
  priority_color_file w (get_files w package_path COLOR_FILE_EXTS)
    item_name source_name
  = priority_color_file w (plain_files w package_path COLOR_FILE_EXTS)
      item_name source_name.
Proof.
  unfold priority_color_file, collect_matches.
  pose proof (exts_matches_same w (lower source_name)
                (no_color (lower source_name)) item_name
                (get_files w package_path COLOR_FILE_EXTS)
                (plain_files w package_path COLOR_FILE_EXTS)
                COLOR_FILE_EXTS) as H.
  assert (He : forall ext, In ext COLOR_FILE_EXTS ->
            same_answer
              (ext_result w (lower source_name) (no_color (lower source_name))
                 item_name (get_files w package_path COLOR_FILE_EXTS) ext)
              (ext_result w (lower source_name) (no_color (lower source_name))
                 item_name (plain_files w package_path COLOR_FILE_EXTS) ext)).
  { intros ext Hin. unfold ext_result.
    rewrite get_files_entry, str_get_plain_files.
    destruct (mem ext COLOR_FILE_EXTS); [|reflexivity].
    destruct (files_of_ext w package_path ext) as [|f fs]; simpl listed_twice.
    - reflexivity.
    - apply repeated_first_file. }
  specialize (H He [] [] eq_refl). unfold same_answer in H.
  destruct (exts_matches w (get_files w package_path COLOR_FILE_EXTS) _ _ _ _ [])
    as [l1|e1];
    destruct (exts_matches w (plain_files w package_path COLOR_FILE_EXTS) _ _ _ _ [])
      as [l2|e2]; simpl; try contradiction.
  - rewrite !best_first_least, H. reflexivity.
  - rewrite H. reflexivity.
Qed.

End Repeats.

(* ================================================================== *)
(** ** The lookup over the packages *)

Module Lookups.

Import Text Num Re Py Lib Path Collect Props Notions Samples Cases.
Import SortFacts Traversal ReFacts Events Matching Packages Listing Winner.

Lemma bind_raise {A B : Type} (m : result A) (f : A -> result B) (e : exn) :
  (x <- m ;; f x) = Raise e ->
  m = Raise e \/ exists a, m = Ok a /\ f a = Raise e.
Proof.
  destruct m as [a|e']; simpl; intros H; [right; eauto | left; congruence].
Qed.

(** *** Media outside an incoming directory *)

(** X5.  A source path that does not contain /incoming/ is not looked up at
    all: [get_color_file] returns the empty triple in every world, whatever
    the names. *)
Theorem no_incoming_no_lookup (w : world) (source_path item_name
  source_name : string) :
  ~ contains source_path "/incoming/" ->
  get_color_file w source_path item_name source_name = Ok None.
Proof.
  intros Hn. unfold get_color_file, package_order, incoming_split_1.
  rewrite (search_requires "/incoming/" incoming_pattern source_path);
    [reflexivity | reflexivity | exact Hn].
Qed.

Lemma no_incoming_no_lookup_witness :
  get_color_file graded_world library_source "shot010" "shota" = Ok None.
Proof.
  apply (no_incoming_no_lookup graded_world library_source "shot010" "shota").
  apply cut_none_not_contains. vm_compute. reflexivity.
Defined.

(** *** Exceptions *)

Section Raised.

Variable w : world.
Variables source_name source_name_no_color item_name : string.

Lemma edl_matches_raise (color_file : string) (evs : list (key * event))
  (e : exn) :
  forall acc,
    edl_matches source_name item_name color_file evs acc = Raise e ->
    exists kv, In kv evs /\ grade (snd kv) = None.
Proof.
  induction evs as [|[k ev] evs IH]; intros acc H; simpl in H; [discriminate|].
  unfold event_cdl in H. destruct (grade ev) as [g|] eqn:G; simpl in H.
  - destruct (loc_priority source_name item_name ev);
      destruct (IH _ H) as (kv & I & Hg); exists kv; split; auto; right; exact I.
  - exists (k, ev). split; [left; reflexivity | exact G].
Qed.

Lemma file_matches_raised (color_ext color_file : string)
  (acc : list candidate) (e : exn) :
  file_matches w source_name source_name_no_color item_name color_ext
    color_file acc = Raise e ->
  color_ext <> "edl"
  /\ (exists p, name_priority source_name source_name_no_color item_name
                  color_file = Some p)
  /\ parse_cdl w color_file = Raise e.
Proof.
  unfold file_matches. destruct (String.eqb color_ext "edl") eqn:X; simpl.
  - destruct (parse_edl_events w color_file true) as [r|] eqn:P; [|discriminate].
    intros H. apply edl_matches_raise in H. destruct H as (kv & I & G).
    exfalso. exact (color_only_events_colored _ _ _ P kv I G).
  - destruct (name_priority _ _ _ color_file) as [p|]; [|discriminate].
    intros H. apply bind_raise in H. destruct H as [H|(c & _ & H)];
      [|discriminate].
    split; [intros ->; discriminate X|]. split; [eauto | exact H].
Qed.

Lemma files_matches_raised (color_ext : string) (fs : list string) (e : exn) :
  forall acc,
    files_matches w source_name source_name_no_color item_name color_ext fs acc
      = Raise e ->
    exists f, In f fs
      /\ color_ext <> "edl"
      /\ (exists p, name_priority source_name source_name_no_color item_name
                      f = Some p)
      /\ parse_cdl w f = Raise e.
Proof.
  induction fs as [|f fs IH]; intros acc H; simpl in H; [discriminate|].
  apply bind_raise in H. destruct H as [H|(acc' & _ & H)].
  - exists f. split; [left; reflexivity|]. exact (file_matches_raised _ _ _ _ H).
  - destruct (IH _ H) as (f' & I & R). exists f'. split; [right; exact I | exact R].
Qed.

Lemma exts_matches_raised (color_files : list (string * list string))
  (exts : list string) (e : exn) :
  forall acc,
    exts_matches w color_files source_name source_name_no_color item_name
      exts acc = Raise e ->
    exists ext fs f,
      In ext exts /\ str_get ext color_files = Some fs /\ In f fs
      /\ ext <> "edl"
      /\ (exists p, name_priority source_name source_name_no_color item_name
                      f = Some p)
      /\ parse_cdl w f = Raise e.
Proof.
  induction exts as [|x exts IH]; intros acc H; simpl in H; [discriminate|].
  apply bind_raise in H. destruct H as [H|(acc' & _ & H)].
  - destruct (str_get x color_files) as [fs|] eqn:G; [|discriminate].
    destruct (files_matches_raised _ _ _ _ H) as (f & I & R).
    exists x, fs, f. split; [left; reflexivity|]. split; [exact G|].
    split; [exact I | exact R].
  - destruct (IH _ H) as (ext & fs & f & I & R).
    exists ext, fs, f. split; [right; exact I | exact R].
Qed.

End Raised.

Lemma parse_cdl_raise_kinds (w : world) (path : string) (e : exn) :
  parse_cdl w path = Raise e ->
  read_text w path = Raise e \/ e = ValueError.
Proof.
  intros H. destruct (read_text w path) as [text|x] eqn:R.
  - right. exact (Grades.parse_cdl_raise _ _ _ _ R H).
  - left. unfold parse_cdl in H. rewrite R in H. simpl in H. congruence.
Qed.

(** X6.  The only exception [priority_color_file] ends in is one that
    [parse_cdl] raised on a file that is not an EDL and whose name matched:
    the exception of reading that file, or a [ValueError] for a malformed
    number in it.  An EDL, however broken, never makes it fail. *)
Theorem failure_comes_from_a_grade_file (w : world)
  (color_files : list (string * list string)) (item_name source_name : string)
  (e : exn) :
  priority_color_file w color_files item_name source_name = Raise e ->
  exists ext fs f,
    In ext COLOR_FILE_EXTS /\ str_get ext color_files = Some fs /\ In f fs
    /\ ext <> "edl"
    /\ (exists p, name_priority (lower source_name)
                    (no_color (lower source_name)) item_name f = Some p)
    /\ parse_cdl w f = Raise e
    /\ (read_text w f = Raise e \/ e = ValueError).
Proof.
  unfold priority_color_file, collect_matches. intros H.
  apply bind_raise in H. destruct H as [H|(ms & _ & H)]; [|discriminate].
  destruct (exts_matches_raised _ _ _ _ _ _ _ _ H)
    as (ext & fs & f & H1 & H2 & H3 & H4 & H5 & H6).
  exists ext, fs, f. do 5 (split; [assumption|]).
  split; [exact H6 | exact (parse_cdl_raise_kinds _ _ _ H6)].
Qed.

Lemma failure_comes_from_a_grade_file_witness :
  exists ext fs f,
    In ext COLOR_FILE_EXTS /\ str_get ext pair_files = Some fs /\ In f fs
    /\ ext <> "edl"
    /\ parse_cdl malformed_cc_world f = Raise ValueError.
Proof.
  destruct (failure_comes_from_a_grade_file malformed_cc_world pair_files
              "shot010" "shota" ValueError)
    as (ext & fs & f & H1 & H2 & H3 & H4 & _ & H6 & _).
  - vm_compute. reflexivity.
  - exists ext, fs, f. auto.
Defined.

(** *** The scan of the packages *)

Lemma scan_packages_raise (w : world) (item_name source_name : string)
  (l1 : list string) (d : string) (l2 : list string) (e : exn) :
  Forall (fun d' => exists r', package_result w item_name source_name d' = Ok r'
                               /\ found r' = false) l1 ->
  package_result w item_name source_name d = Raise e ->
  forall last,
    scan_packages w item_name source_name (l1 ++ d :: l2) last = Raise e.
Proof.
  intros Hall Hd. induction Hall as [|d' l1 (r' & Hr & Hf) _ IH];
    intros last; simpl.
  - unfold package_result in Hd. rewrite Hd. reflexivity.
  - unfold package_result in Hr. rewrite Hr. simpl. rewrite Hf. apply IH.
Qed.

Lemma listed_twice_in (l fs : list string) (f : string) :
  listed_twice l = Some fs -> (In f fs <-> In f l).
Proof.
  destruct l as [|x l]; simpl; [discriminate|].
  intros H; inversion H; subst fs. simpl. tauto.
Qed.

Lemma get_files_in (w : world) (package_path ext f : string) :
  In ext COLOR_FILE_EXTS ->
  In f (files_of_ext w package_path ext) ->
  exists fs, str_get ext (get_files w package_path COLOR_FILE_EXTS) = Some fs
             /\ In f fs.
Proof.
  intros He Hf. rewrite get_files_entry.
  apply mem_in in He. rewrite He.
  destruct (files_of_ext w package_path ext) as [|x l] eqn:E; [destruct Hf|].
  simpl. eexists. split; [reflexivity|]. simpl. simpl in Hf. tauto.
Qed.

Lemma get_files_from (w : world) (package_path ext f : string)
  (fs : list string) :
  str_get ext (get_files w package_path COLOR_FILE_EXTS) = Some fs ->
  In f fs -> In f (files_of_ext w package_path ext).
Proof.
  rewrite get_files_entry. destruct (mem ext COLOR_FILE_EXTS); [|discriminate].
  intros H I. exact (proj1 (listed_twice_in _ _ f H) I).
Qed.

(** X7.  A grade file that cannot be parsed stops the whole lookup.  When
    the packages scanned before [d] are searched without result and [d]
    holds, among the files of an extension other than edl, one whose name
    matches and on which [parse_cdl] raises, [get_color_file] ends in an
    exception: the later packages are not searched. *)
Theorem unparsable_file_stops_lookup (w : world) (source_path item_name
  source_name : string) (l1 : list string) (d : string) (l2 : list string)
  (ext f : string) (p : Z) (e : exn) :
  package_order w source_path = Ok (Some (l1 ++ d :: l2)) ->
  Forall (fun d' => exists r', package_result w item_name source_name d' = Ok r'
                               /\ found r' = false) l1 ->
  In ext COLOR_FILE_EXTS -> ext <> "edl" ->
  In f (files_of_ext w d ext) ->
  name_priority (lower source_name) (no_color (lower source_name)) item_name f
    = Some p ->
  parse_cdl w f = Raise e ->
  exists e', get_color_file w source_path item_name source_name = Raise e'.
Proof.
  intros Ho Hall He Hx Hf Hp Hc.
  destruct (get_files_in _ _ _ _ He Hf) as (fs & G & I).
  assert (X : String.eqb ext "edl" = false).
  { destruct (String.eqb ext "edl") eqn:E; [|reflexivity].
    apply String.eqb_eq in E. contradiction. }
  destruct (unparsable_grade_file_raises w _ item_name source_name _ _ _ _ _
              He X G I Hp Hc) as (e' & R).
  exists e'. unfold get_color_file. rewrite Ho. simpl.
  apply scan_packages_raise; assumption.
Qed.

Lemma unparsable_file_stops_lookup_witness :
  exists e', get_color_file spoiled_world nested_source "shot010" "shota"
             = Raise e'.
Proof.
  apply (unparsable_file_stops_lookup spoiled_world nested_source "shot010"
           "shota" [] "/proj/show/incoming/20240101"
           ["/proj/show/incoming/20240202"; "/proj/show/incoming/20240303"]
           "ccc" old_grade 0%Z ValueError).
  - vm_compute. reflexivity.
  - constructor.
  - vm_compute. tauto.
  - discriminate.
  - vm_compute. tauto.
  - vm_compute. reflexivity.
  - vm_compute. reflexivity.
Defined.

Lemma returned_listed (w : world) (source_path item_name
  source_name : string) (p : Z) (c : cdl) (f : string) :
  get_color_file w source_path item_name source_name = Ok (Some (p, c, f)) ->
  f <> "" ->
  exists l1 d l2 ext,
    package_order w source_path = Ok (Some (l1 ++ d :: l2))
    /\ In ext COLOR_FILE_EXTS
    /\ In f (files_of_ext w d ext)
    /\ Forall (fun d' => exists r', package_result w item_name source_name d'
                                    = Ok r' /\ found r' = false) l1.
Proof.
  intros H Hf. unfold get_color_file in H. apply bind_ok in H.
  destruct H as (order & Ho & H). destruct order as [order|]; [|discriminate].
  assert (F : found (Some (p, c, f)) = true).
  { simpl. unfold file_of. simpl. destruct (String.eqb f "") eqn:E;
      [apply String.eqb_eq in E; contradiction | reflexivity]. }
  destruct (scan_packages_first _ _ _ _ _ _ H eq_refl F)
    as (l1 & d & l2 & -> & Hd & Hall).
  unfold package_result in Hd.
  destruct (winner_visit _ _ _ _ _ _ _ Hd) as (ext & fs & He & G & I & _).
  exists l1, d, l2, ext. split; [exact Ho|]. split; [exact He|].
  split; [exact (get_files_from _ _ _ _ _ G I) | exact Hall].
Qed.


(** X8.  The file [get_color_file] returns was found by the glob under one
    of the scanned package directories, with one of the known suffixes, and
    no package scanned before that one gave a file. *)
Theorem returned_file_is_listed (w : world) (source_path item_name
  source_name : string) (p : Z) (c : cdl) (f : string) :
  get_color_file w source_path item_name source_name = Ok (Some (p, c, f)) ->
  f <> "" ->
  exists l1 d l2 ext,
    package_order w source_path = Ok (Some (l1 ++ d :: l2))
    /\ In ext COLOR_FILE_EXTS
    /\ In f (files_of_ext w d ext)
    /\ Forall (fun d' => exists r', package_result w item_name source_name d'
                                    = Ok r' /\ found r' = false) l1.
Proof.
  apply returned_listed.
Qed.

Lemma returned_file_is_listed_witness :
  exists l1 d l2 ext,
    package_order graded_world nested_source = Ok (Some (l1 ++ d :: l2))
    /\ In ext COLOR_FILE_EXTS
    /\ In old_grade (files_of_ext graded_world d ext).
Proof.
  destruct (returned_file_is_listed graded_world nested_source "shot010"
              "shota" 1%Z (full_cdl old_grade) old_grade)
    as (l1 & d & l2 & ext & H1 & H2 & H3 & _).
  - vm_compute. reflexivity.
  - discriminate.
  - exists l1, d, l2, ext. auto.
Defined.

(** *** A shot name with capital letters *)

Lemma capital_item_never_loc (source_name item_name : string) (ev : event) :
  lower item_name <> item_name ->
  loc_priority source_name item_name ev <> Some 10%Z.
Proof.
  intros Hl. unfold loc_priority.
  destruct (String.eqb source_name (lower (LOC ev))); [discriminate|].
  destruct (String.eqb item_name (lower (LOC ev))) eqn:E; [|discriminate].
  apply String.eqb_eq in E. exfalso. apply Hl. rewrite E. apply lower_idem.
Qed.

(** X9.  A shot name that is not all lower case never matches: no file name
    and no locator is ever equal to it, so whatever
    [priority_color_file] returns was matched on the source name, with one of
    the priorities 0, 1, 2, 3, 4, 5, 7. *)
Theorem capital_shot_name_is_ignored (w : world)
  (color_files : list (string * list string)) (item_name source_name : string)
  (p : Z) (c : cdl) (f : string) :
  lower item_name <> item_name ->
  priority_color_file w color_files item_name source_name = Ok (Some (p, c, f)) ->
  In p source_priorities.
Proof.
  intros Hl H. unfold priority_color_file in H. apply bind_ok in H.
  destruct H as (ms & Hm & H). inversion H as [Hb]; clear H.
  rewrite best_first_least in Hb.
  destruct (first_least_split _ _ _ Hb) as (l1 & l2 & El & _).
  unfold collect_matches in Hm. apply exts_matches_concat in Hm.
  destruct Hm as (per & HF & Ems). simpl in Ems.
  assert (Hin : In (p, c, f) (concat per)).
  { rewrite <- Ems, El. apply in_or_app. right. left. reflexivity. }
  destruct (in_concat_Forall2 _ _ _ _ HF Hin) as ([ext f'] & ms' & Iv & Hc & Im).
  simpl in Hc. unfold file_matches in Hc.
  destruct (String.eqb ext "edl") eqn:X; simpl in Hc.
  - destruct (parse_edl_events w f' true) as [r|] eqn:P;
      [|inversion Hc; subst ms'; destruct Im].
    destruct (edl_matches_in _ _ _ _ _ _ Hc Im) as (kv & c' & p' & I & Ec & Lp & Em).
    inversion Em; subst p' c' f'.
    pose proof (capital_item_never_loc (lower source_name) _ (snd kv) Hl) as N.
    destruct (loc_priority_values _ _ _ _ Lp) as [<-|[<-|[]]].
    + unfold source_priorities. simpl. tauto.
    + contradiction.
  - destruct (name_priority _ _ _ f') as [b|] eqn:N;
      [|inversion Hc; subst ms'; destruct Im].
    apply bind_ok in Hc. destruct Hc as (c' & Pc & Hc).
    inversion Hc; subst ms'; clear Hc.
    destruct Im as [Em|[]]. inversion Em; subst p c' f'.
    pose proof (capital_shot_name_never_matches (lower source_name)
                  (no_color (lower source_name)) item_name f Hl) as N8.
    rewrite N in N8.
    pose proof (name_priority_values _ _ _ _ _ N) as Hb'.
    pose proof (type_priority_values ext) as Ht.
    unfold source_priorities. simpl in Hb', Ht |- *.
    destruct Hb' as [<-|[<-|[<-|[]]]]; destruct Ht as [<-|[<-|[<-|[]]]];
      simpl; try tauto; exfalso; apply N8; reflexivity.
Qed.

Lemma capital_shot_name_is_ignored_witness :
  In 4%Z source_priorities.
Proof.
  apply (capital_shot_name_is_ignored example_world example_files
           "SHOT01" "shotA_cc" 4%Z (full_cdl "shotA.cc") "shotA.cc").
  - vm_compute. discriminate.
  - vm_compute. reflexivity.
Defined.

End Lookups.

(* ================================================================== *)
(** ** Entry numbers and keys of the parsed events *)

Module Numbering.

Import Text Num Re Py Lib Path Collect Props Notions Samples Cases Dialog.
Import SortFacts Traversal ReFacts Events Matching.

(** *** The regex parser *)

Lemma scan_match_at (r : regex) (after : string) :
  forall before m,
    scan r before after = Some m ->
    exists b a, match_at r b a = Some m.
Proof.
  induction after as [|x after IH]; intros before m H; simpl in H.
  - destruct (match_at r before "") as [y|] eqn:E; [|discriminate].
    inversion H; subst y. eauto.
  - destruct (match_at r before (String x after)) as [y|] eqn:E.
    + inversion H; subst y. eauto.
    + exact (IH _ _ H).
Qed.

(** The text of a match of the edit pattern is its group edit: the
    assertions around the group take no text. *)
Lemma edit_match_text (b a : string) (m : rmatch) :
  match_at edit_pattern b a = Some m -> group m "edit" = m_text m.
Proof.
  unfold match_at. intros H.
  destruct (run edit_pattern (Cursor b a []) Some) as [c1|] eqn:R;
    [|discriminate].
  inversion H; subst m; clear H. unfold group. simpl.
  apply run_sound in R. destruct R as (c' & S & K). inversion K; subst c'.
  simpl in S. destruct S as (c2 & (_ & ->) & c3 & (c4 & _ & ->) & (_ & ->)).
  simpl. reflexivity.
Qed.

Lemma finditer_head (r : regex) (s : string) (m : rmatch) :
  search r s = Some m -> exists rest, finditer r s = m :: rest.
Proof.
  unfold search, finditer. simpl. intros ->.
  destruct (m_text m); eauto.
Qed.

Lemma finditer_none (r : regex) (s : string) :
  search r s = None -> finditer r s = [].
Proof.
  unfold search, finditer. simpl. intros ->. reflexivity.
Qed.

Lemma find_from_groups (r : regex) (fuel : nat) :
  forall before after m,
    In m (find_from fuel r before after) ->
    exists b a, match_at r b a = Some m.
Proof.
  induction fuel as [|fuel IH]; intros before after m H; simpl in H; [destruct H|].
  destruct (scan r before after) as [m0|] eqn:E; [|destruct H].
  destruct (m_text m0) eqn:T.
  - destruct H as [<-|[]]. exact (scan_match_at _ _ _ _ E).
  - destruct H as [<-|H]; [exact (scan_match_at _ _ _ _ E) | exact (IH _ _ _ H)].
Qed.

Lemma not_int_key {V : Type} (d : list (key * V)) (n : Z) :
  (forall kv, In kv d -> exists s, fst kv = KStr s) ->
  dict_get (KInt n) d = None.
Proof.
  induction d as [|[k v] d IH]; simpl; intros H; [reflexivity|].
  destruct (H (k, v) (or_introl eq_refl)) as (s & E). simpl in E. subst k.
  simpl. apply IH. intros kv I. apply H. right. exact I.
Qed.

Lemma not_str_key {V : Type} (d : list (key * V)) (s : string) :
  (forall kv, In kv d -> exists n, fst kv = KInt n) ->
  dict_get (KStr s) d = None.
Proof.
  induction d as [|[k v] d IH]; simpl; intros H; [reflexivity|].
  destruct (H (k, v) (or_introl eq_refl)) as (n & E). simpl in E. subst k.
  simpl. apply IH. intros kv I. apply H. right. exact I.
Qed.

Lemma edit_entry_key (e : string) (kv : key * event) :
  edit_entry e = Ok kv ->
  exists n, entry_number e = Ok n /\ fst kv = KStr (py_str_of_int n).
Proof.
  unfold edit_entry. intros H.
  apply bind_ok in H. destruct H as (sop & _ & H).
  apply bind_ok in H. destruct H as (n & Hn & H).
  inversion H; subst kv. exists n. split; [exact Hn | reflexivity].
Qed.

Lemma last_cons {A : Type} (l : list A) :
  forall x d, last (x :: l) d = last l x.
Proof.
  induction l as [|y l IH]; intros x d; [reflexivity|].
  change (last (x :: y :: l) d) with (last (y :: l) d).
  rewrite (IH y d), (IH y x). reflexivity.
Qed.

Lemma rev_head_last {A : Type} (x : A) (l : list A) :
  List.rev (x :: l) = last l x :: List.rev (removelast (x :: l)).
Proof.
  assert (N : x :: l <> []) by discriminate.
  rewrite (app_removelast_last x N) at 1.
  rewrite rev_unit, last_cons. reflexivity.
Qed.

Lemma regex_numbering (w : world) (path : string) (co : bool) (r : edl) :
  regex_parse_edl_events w path co = Ok r ->
  exists text first rest,
    read_text w path = Ok text
    /\ edits_of text = first :: rest
    /\ entry_number first = Ok (first_entry r)
    /\ entry_number (last rest first) = Ok (last_entry r)
    /\ (forall kv, In kv (events r) ->
          exists e n, In e (edits_of text) /\ entry_number e = Ok n
                      /\ fst kv = KStr (py_str_of_int n))
    /\ (forall n, dict_get (KInt n) (events r) = None).
Proof.
  intros H.
  destruct (regex_events_spec _ _ _ _ H) as (text & Hr & A & _).
  assert (Keys : forall kv, In kv (events r) ->
            exists e n, In e (edits_of text) /\ entry_number e = Ok n
                        /\ fst kv = KStr (py_str_of_int n)).
  { intros kv I. destruct (A kv I) as (e & Ie & Ee & _).
    destruct (edit_entry_key _ _ Ee) as (n & Hn & Hk). eauto. }
  unfold regex_parse_edl_events in H. rewrite Hr in H. simpl in H.
  apply bind_ok in H. destruct H as (first & Hf & H).
  apply bind_ok in H. destruct H as (evs & _ & H).
  apply bind_ok in H. destruct H as (final & Hl & H).
  inversion H; subst r; clear H. simpl in *.
  destruct (search edit_pattern text) as [m|] eqn:S.
  - destruct (finditer_head _ _ _ S) as (ms & Hms).
    exists text, (group m "edit"), (map (fun m => group m "edit") ms).
    assert (Ed : edits_of text
                 = group m "edit" :: map (fun m => group m "edit") ms)
      by (unfold edits_of; rewrite Hms; reflexivity).
    split; [exact Hr|]. split; [exact Ed|].
    split.
    { unfold search in S. destruct (scan_match_at _ _ _ _ S) as (b & a & M).
      rewrite (edit_match_text _ _ _ M). exact Hf. }
    split.
    { rewrite Ed in Hl. rewrite rev_head_last in Hl. exact Hl. }
    split; [exact Keys|].
    intros n. apply not_int_key. intros kv I.
    destruct (Keys kv I) as (e & k & _ & _ & E). eauto.
  - unfold edits_of in Hl. rewrite (finditer_none _ _ S) in Hl.
    simpl in Hl. discriminate Hl.
Qed.

(** X10.  When [regex_parse_edl_events] returns, the text has at least one
    edit block; first_entry is the number of the first block and last_entry
    that of the last one, whether or not they are recorded; every key of
    the events is the [str] of the number of a block, so that no [int] is a
    key. *)
Theorem regex_result_numbering (w : world) (path : string) (co : bool)
  (r : edl) :
  regex_parse_edl_events w path co = Ok r ->
  exists text first rest,
    read_text w path = Ok text
    /\ edits_of text = first :: rest
    /\ entry_number first = Ok (first_entry r)
    /\ entry_number (last rest first) = Ok (last_entry r)
    /\ (forall kv, In kv (events r) ->
          exists e n, In e (edits_of text) /\ entry_number e = Ok n
                      /\ fst kv = KStr (py_str_of_int n))
    /\ (forall n, dict_get (KInt n) (events r) = None).
Proof.
  apply regex_numbering.
Qed.

Lemma regex_result_numbering_witness :
  first_entry cut_full_edl = 1%Z /\ last_entry cut_full_edl = 2%Z
  /\ dict_get (KInt 1) (events cut_full_edl) = None.
Proof.
  destruct (regex_result_numbering cut_world "/in/cut.edl" false cut_full_edl)
    as (text & first & rest & _ & _ & _ & _ & _ & H).
  - vm_compute. reflexivity.
  - split; [reflexivity|]. split; [reflexivity | exact (H 1%Z)].
Defined.

(** *** The OTIO parser *)

Lemma number_from_in (l : list event) :
  forall n k ev,
    In (k, ev) (number_from n l) ->
    exists i, k = KInt (n + 1 + Z.of_nat i) /\ nth_error l i = Some ev.
Proof.
  induction l as [|x l IH]; intros n k ev H; simpl in H; [destruct H|].
  destruct H as [H|H].
  - inversion H; subst. exists 0%nat. split; [f_equal; lia | reflexivity].
  - destruct (IH _ _ _ H) as (i & -> & Hi). exists (S i).
    split; [f_equal; lia | exact Hi].
Qed.

Lemma number_from_keys (l : list event) :
  forall n,
    map fst (number_from n l)
    = map (fun i => KInt (n + 1 + Z.of_nat i)) (seq 0 (List.length l)).
Proof.
  induction l as [|x l IH]; intros n; simpl; [reflexivity|].
  f_equal; [f_equal; lia|].
  rewrite IH, <- seq_shift, map_map. apply map_ext. intros i. f_equal. lia.
Qed.

Lemma Forall2_nth_r {A B : Type} (R : A -> B -> Prop) (l1 : list A)
  (l2 : list B) :
  Forall2 R l1 l2 ->
  forall i y, nth_error l2 i = Some y ->
              exists x, nth_error l1 i = Some x /\ R x y.
Proof.
  induction 1 as [|a b l1 l2 Hab _ IH]; intros i y Hi.
  - destruct i; discriminate.
  - destruct i as [|i]; simpl in Hi.
    + inversion Hi; subst. exists a. split; [reflexivity | exact Hab].
    + exact (IH _ _ Hi).
Qed.

Lemma Forall2_length_eq {A B : Type} (R : A -> B -> Prop) (l1 : list A)
  (l2 : list B) : Forall2 R l1 l2 -> List.length l1 = List.length l2.
Proof.
  induction 1; simpl; congruence.
Qed.

(** X11.  When [otio_parse_edl_events] returns, the timeline has one track;
    first_entry is 1 and last_entry is the number of clips of the track,
    those left out by [color_edits_only] included; every key is the [int]
    position of a clip among the clips (other children are not counted) and
    the event is the one that clip stands for; without the filter the keys
    are exactly 1 to last_entry, in order; no [str] is a key. *)
Theorem otio_result_numbering (w : world) (path : string) (co : bool)
  (r : edl) :
  otio_parse_edl_events w path co = Ok r ->
  exists track,
    otio_read w path = Ok [track]
    /\ first_entry r = 1%Z
    /\ last_entry r = Z.of_nat (List.length (clips_of track))
    /\ (forall k ev, In (k, ev) (events r) ->
          exists i cl,
            k = KInt (1 + Z.of_nat i)
            /\ nth_error (clips_of track) i = Some cl
            /\ clip_event cl = Ok ev)
    /\ (co = false ->
        map fst (events r)
        = map (fun i => KInt (1 + Z.of_nat i))
              (seq 0 (List.length (clips_of track))))
    /\ (forall s, dict_get (KStr s) (events r) = None).
Proof.
  intros H.
  destruct (otio_events_exact _ _ _ _ H) as (track & l & Hr & HF & E).
  destruct (otio_events_spec _ _ _ _ H) as (track' & Hr' & _ & _ & Hl).
  assert (track' = track) by congruence. subst track'.
  exists track. split; [exact Hr|].
  assert (F : first_entry r = 1%Z).
  { unfold otio_parse_edl_events in H. rewrite Hr in H. simpl in H.
    apply bind_ok in H. destruct H as (st & _ & H). inversion H. reflexivity. }
  split; [exact F|]. split; [exact Hl|].
  assert (K : forall k ev, In (k, ev) (events r) ->
            exists i cl,
              k = KInt (1 + Z.of_nat i)
              /\ nth_error (clips_of track) i = Some cl
              /\ clip_event cl = Ok ev).
  { intros k ev I. rewrite E in I. unfold recorded in I.
    apply filter_In in I. destruct I as (I & _).
    destruct (number_from_in _ _ _ _ I) as (i & -> & Hi).
    destruct (Forall2_nth_r _ _ _ HF _ _ Hi) as (cl & Hc & Hev).
    exists i, cl. split; [f_equal; lia|]. split; assumption. }
  split; [exact K|]. split.
  - intros ->. rewrite E, recorded_all, number_from_keys.
    rewrite (Forall2_length_eq _ _ _ HF). apply map_ext. intros i. f_equal.
  - intros s. apply not_str_key. intros [k ev] I.
    destruct (K k ev I) as (i & cl & -> & _). simpl. eauto.
Qed.

Lemma otio_result_numbering_witness :
  first_entry cut_otio_color_edl = 1%Z
  /\ last_entry cut_otio_color_edl = 2%Z
  /\ List.length (events cut_otio_color_edl) = 1%nat.
Proof.
  destruct (otio_result_numbering cut_otio_world "/in/cut.edl" true
              cut_otio_color_edl) as (track & Hr & F & L & _).
  - vm_compute. reflexivity.
  - split; [exact F|]. split; [|reflexivity].
    rewrite L. vm_compute in Hr. inversion Hr. reflexivity.
Defined.

(** *** The entry shown by the dialog *)

(** X12.  The dialog parses an EDL with [parse_edl_events] and its default
    filter, and looks the event up under the [int] of the spin box.  After
    the regex parser every such lookup is a [KeyError], the keys being
    [str]; a lookup that succeeds is on a result of the OTIO parser, and
    the event found has a colour decision, so that the branch for an event
    without slope is taken only for an empty slope. *)
Theorem entry_lookup (w : world) (path : string) (r : edl) :
  parse_edl_events w path true = Some r ->
  (regex_parse_edl_events w path true = Ok r ->
   forall n, set_edl_info (Some r) n = Raise KeyError)
  /\ (forall n v,
        set_edl_info (Some r) n = Ok (Some v) ->
        otio_parse_edl_events w path true = Ok r
        /\ exists ev g,
             dict_get (KInt n) (events r) = Some ev
             /\ grade ev = Some g
             /\ (sops v = None -> slope g = [])).
Proof.
  intros H. split.
  - intros Hx n. unfold set_edl_info.
    destruct (regex_numbering _ _ _ _ Hx) as (_ & _ & _ & _ & _ & _ & _ & _ & K).
    rewrite K. reflexivity.
  - intros n v Hv. unfold set_edl_info in Hv.
    destruct (dict_get (KInt n) (events r)) as [ev|] eqn:G; [|discriminate].
    simpl in Hv. inversion Hv; subst v; clear Hv. split.
    + destruct (parse_edl_events_cases _ _ _ _ H) as [Ho|Hx]; [exact Ho|].
      destruct (regex_numbering _ _ _ _ Hx) as (_ & _ & _ & _ & _ & _ & _ & _ & K).
      rewrite K in G. discriminate G.
    + pose proof (color_only_events_colored _ _ _ H (KInt n, ev)
                    (dict_get_in _ _ _ G)) as C. simpl in C.
      destruct (grade ev) as [g|] eqn:Gr; [|congruence].
      exists ev, g. split; [reflexivity|]. split; [exact Gr|]. simpl.
      destruct (slope g); [reflexivity | discriminate].
Qed.

Lemma entry_lookup_witness :
  set_edl_info (Some cut_color_edl) 1 = Raise KeyError.
Proof.
  destruct (entry_lookup cut_world "/in/cut.edl" cut_color_edl) as [H _].
  - vm_compute. reflexivity.
  - apply H. vm_compute. reflexivity.
Defined.

End Numbering.

(* ================================================================== *)
(** ** The dialog and [process] *)

Module Shared.

Import Text Num Re Py Lib Path Collect Props Notions Samples Cases Dialog.
Import Sessions ReFacts Packages.

(** *** Dictionaries with text keys *)

Section StrDict.

Context {V : Type}.

Lemma str_get_set_same (k : string) (v : V) (d : list (string * V)) :
  str_get k (str_set k v d) = Some v.
Proof.
  induction d as [|[k' v'] d IH]; simpl.
  - rewrite String.eqb_refl. reflexivity.
  - destruct (String.eqb k' k) eqn:E; simpl; rewrite E; [reflexivity | exact IH].
Qed.

Lemma str_get_set_other (k k0 : string) (v : V) (d : list (string * V)) :
  k0 <> k -> str_get k0 (str_set k v d) = str_get k0 d.
Proof.
  intros N. induction d as [|[k' v'] d IH]; simpl.
  - destruct (String.eqb k k0) eqn:E; [|reflexivity].
    apply String.eqb_eq in E. congruence.
  - destruct (String.eqb k' k) eqn:E; simpl.
    + apply String.eqb_eq in E. subst k'.
      destruct (String.eqb k k0) eqn:E0; [|reflexivity].
      apply String.eqb_eq in E0. congruence.
    + rewrite IH. reflexivity.
Qed.

Lemma str_set_not_empty (k : string) (v : V) (d : list (string * V)) :
  str_set k v d <> [].
Proof.
  destruct d as [|[k' v'] d]; simpl; [discriminate|].
  destruct (String.eqb k' k); discriminate.
Qed.

End StrDict.

Lemma is_empty_set (k : string) (v : info_value) (d : info) :
  is_empty (str_set k v d) = false.
Proof.
  pose proof (str_set_not_empty k v d) as N.
  destruct (str_set k v d); [congruence | reflexivity].
Qed.

(** *** What a handler does to the two dictionaries *)

Lemma data_of_store (k : string) (v : info_value) (st : state) :
  data_of (store k v st) = str_set k v (data_of st).
Proof.
  unfold store, data_of. destruct st as [cls [o g]]; simpl.
  destruct o; reflexivity.
Qed.

Lemma store_own (k : string) (v : info_value) (st : state) :
  own_data (snd (store k v st))
  = match own_data (snd st) with
    | Some d => Some (str_set k v d)
    | None => None
    end.
Proof.
  unfold store. destruct st as [cls [o g]]; simpl. destruct o; reflexivity.
Qed.

Lemma store_class (k : string) (v : info_value) (st : state) :
  fst (store k v st)
  = match own_data (snd st) with
    | Some _ => fst st
    | None => str_set k v (fst st)
    end.
Proof.
  unfold store. destruct st as [cls [o g]]; simpl. destruct o; reflexivity.
Qed.

Lemma store_flag (k : string) (v : info_value) (st : state) :
  ignore_grade (snd (store k v st)) = ignore_grade (snd st).
Proof.
  unfold store. destruct st as [cls [o g]]; simpl. destruct o; reflexivity.
Qed.

Lemma check_and_accept_cases (w : world) (f : form) (st st' : state)
  (s : signal) :
  check_and_accept w f st = (st', s) ->
  (st' = st /\ s = Open)
  \/ (st' = set_data f st
      /\ checked w (file_path_input f)
      /\ (s = Open
          \/ (s = Accepted
              /\ (last_field (file_path_input f) = "edl" ->
                  slope_r_input f <> "NA")))).
Proof.
  unfold check_and_accept.
  destruct (isfile w (file_path_input f)) eqn:I; cbn [negb];
    [|intros H; inversion H; auto].
  destruct (matches_start show_incoming_pattern (file_path_input f)) eqn:M;
    cbn [negb]; [|intros H; inversion H; auto].
  destruct (mem (last_field (file_path_input f)) COLOR_FILE_EXTS) eqn:X;
    cbn [negb]; [|intros H; inversion H; auto].
  assert (C : checked w (file_path_input f)).
  { split; [exact I|]. split; [exact M|]. apply mem_in. exact X. }
  destruct (String.eqb (last_field (file_path_input f)) "edl") eqn:E;
    cbn [andb].
  - unfold no_color_data. destruct (String.eqb (slope_r_input f) "NA") eqn:N;
      intros H; inversion H; subst; right; split; auto; split; auto.
    right. split; [reflexivity|]. intros _ Z. rewrite Z in N. discriminate N.
  - intros H; inversion H; subst. right. split; auto. split; auto.
    right. split; [reflexivity|]. intros Z. rewrite Z in E. discriminate E.
Qed.

(** The class dictionary is written only by the press that accepts a dialog
    which never assigned a dictionary of its own; an accepted dialog has a
    dictionary that is not empty. *)
Lemma handle_class (w : world) (p : press) (st st' : state) (s : signal) :
  handle w p st = (st', s) ->
  (fst st' = fst st \/ (s = Accepted /\ own_data (snd st') = None))
  /\ (s = Accepted -> is_empty (data_of st') = false).
Proof.
  destruct p as [f| | | |]; simpl.
  - intros H. destruct (check_and_accept_cases _ _ _ _ _ H)
      as [(-> & ->)|(-> & _ & [->|(-> & _)])].
    + split; [left; reflexivity | discriminate].
    + split; [left; reflexivity | discriminate].
    + split; [left; reflexivity|]. intros _.
      unfold data_of, set_data. simpl. apply is_empty_set.
  - unfold blank_grade. intros H. inversion H; subst; clear H. split.
    + rewrite !store_class, !store_own.
      destruct (own_data (snd st)) as [d|] eqn:O;
        [left; reflexivity | right; split; reflexivity].
    + intros _. rewrite data_of_store. apply is_empty_set.
  - unfold set_ignore. intros H. inversion H; subst; clear H. split.
    + rewrite store_class, store_own. simpl.
      destruct (own_data (snd st)) as [d|] eqn:O;
        [left; reflexivity | right; split; reflexivity].
    + intros _. rewrite data_of_store. apply is_empty_set.
  - unfold cancel. intros H. inversion H; subst; clear H. simpl.
    split; [left; reflexivity | discriminate].
  - intros H. inversion H; subst; clear H.
    split; [left; reflexivity | discriminate].
Qed.

Lemma exec_class (w : world) (presses : list press) :
  forall st st' b,
    exec w st presses = Some (st', b) ->
    (fst st' = fst st \/ (b = true /\ own_data (snd st') = None))
    /\ (b = true -> is_empty (data_of st') = false).
Proof.
  induction presses as [|p presses IH]; intros st st' b H; simpl in H;
    [discriminate|].
  destruct (handle w p st) as [st1 s] eqn:Hh.
  destruct (handle_class _ _ _ _ _ Hh) as (C & N).
  destruct s.
  - destruct (IH _ _ _ H) as (C' & N'). split; [|exact N'].
    destruct C as [C|(C & _)]; [|discriminate].
    destruct C' as [C'|C']; [left; congruence | right; exact C'].
  - inversion H; subst st1 b; clear H. split; [|intros _; apply N; reflexivity].
    destruct C as [C|(_ & C)]; [left; exact C | right; split; [reflexivity | exact C]].
  - inversion H; subst st1 b; clear H. split; [|discriminate].
    destruct C as [C|(C & _)]; [left; exact C | discriminate].
Qed.

(** *** The outcomes of [process] *)

Lemma ask_outcomes (w : world) (cls cls' : info) (presses : list press)
  (out : result grade_ref) :
  ask w cls presses = Some (cls', out) ->
  (out = Ok ClassData \/ cls' = cls)
  /\ (forall e, out = Raise e ->
        e = Exception
        /\ exists st, exec w (cls, new_dialog) presses = Some (st, false))
  /\ (forall r, out = Ok r ->
        deref cls' r <> []
        /\ exists st, exec w (cls, new_dialog) presses = Some (st, true)
                      /\ r = dialog_data st).
Proof.
  unfold ask. destruct (exec w (cls, new_dialog) presses) as [[st b]|] eqn:E;
    [|discriminate].
  destruct (exec_class _ _ _ _ _ E) as (C & N). simpl in C.
  destruct b; simpl.
  - assert (D : deref (fst st) (dialog_data st) = data_of st).
    { unfold dialog_data, data_of. destruct (own_data (snd st)); reflexivity. }
    rewrite D, (N eq_refl). intros H. inversion H; subst cls' out; clear H.
    split; [|split].
    + destruct C as [C|(_ & C)]; [right; exact C|].
      left. unfold dialog_data. rewrite C. reflexivity.
    + intros e He. discriminate He.
    + intros r Hr. inversion Hr; subst r. split.
      * rewrite D. intros Z. pose proof (N eq_refl) as N'.
        rewrite Z in N'. discriminate N'.
      * exists st. split; reflexivity.
  - intros H. inversion H; subst cls' out; clear H. split; [|split].
    + right. destruct C as [C|(C & _)]; [exact C | discriminate].
    + intros e He. inversion He; subst e. split; [reflexivity|].
      exists st. reflexivity.
    + intros r Hr. discriminate Hr.
Qed.

Lemma found_info_not_empty (c : cdl) (f : string) : found_info c f <> [].
Proof.
  unfold found_info. apply str_set_not_empty.
Qed.

(** X13.  What [process] ends in.  An exception of the lookup is passed
    on and no dialog is shown; a file found is stored without a dialog;
    the dialog is shown exactly when the lookup returns no file, and then
    the exception for a cancelled collection is raised exactly when the
    dialog is rejected, an accepted dialog always giving a dictionary that
    is not empty.  The dictionary of the dialog class is left as it was
    unless it is itself what is stored as the shot grade. *)
Theorem process_outcomes (w : world) (cls : info) (p : plate)
  (presses : list press) (cls' : info) (out : result grade_ref) :
  process w cls p presses = Some (cls', out) ->
  (out = Ok ClassData \/ cls' = cls)
  /\ (forall e, out = Raise e ->
        lookup w p = Raise e
        \/ (e = Exception
            /\ (exists r, lookup w p = Ok r /\ found r = false)
            /\ exists st, exec w (cls, new_dialog) presses = Some (st, false)))
  /\ (forall r, out = Ok r ->
        deref cls' r <> []
        /\ ((exists pr c f,
               lookup w p = Ok (Some (pr, c, f)) /\ f <> ""
               /\ r = Own (found_info c f))
            \/ ((exists r0, lookup w p = Ok r0 /\ found r0 = false)
                /\ exists st,
                     exec w (cls, new_dialog) presses = Some (st, true)
                     /\ r = dialog_data st))).
Proof.
  unfold process. destruct (lookup w p) as [r0|e0] eqn:L.
  - assert (A : found r0 = false ->
                ask w cls presses = Some (cls', out) ->
                (out = Ok ClassData \/ cls' = cls)
                /\ (forall e, out = Raise e ->
                      Ok r0 = Raise e
                      \/ (e = Exception
                          /\ (exists r, Ok r0 = Ok r /\ found r = false)
                          /\ exists st,
                               exec w (cls, new_dialog) presses
                               = Some (st, false)))
                /\ (forall r, out = Ok r ->
                      deref cls' r <> []
                      /\ ((exists pr c f,
                             Ok r0 = Ok (Some (pr, c, f)) /\ f <> ""
                             /\ r = Own (found_info c f))
                          \/ ((exists r1, Ok r0 = Ok r1 /\ found r1 = false)
                              /\ exists st,
                                   exec w (cls, new_dialog) presses
                                   = Some (st, true)
                                   /\ r = dialog_data st)))).
    { intros F H. destruct (ask_outcomes _ _ _ _ _ H) as (C & R & O).
      split; [exact C|]. split.
      - intros e He. right. destruct (R e He) as (-> & X).
        split; [reflexivity|]. split; [eauto | exact X].
      - intros r Hr. destruct (O r Hr) as (N & X). split; [exact N|].
        right. split; [eauto | exact X]. }
    destruct r0 as [[[pr c] f]|]; [|apply A; reflexivity].
    destruct (String.eqb f "") eqn:E; simpl.
    + apply A. simpl. unfold file_of. simpl. rewrite E. reflexivity.
    + intros H. inversion H; subst cls' out; clear H.
      split; [right; reflexivity|]. split; [intros e He; discriminate He|].
      intros r Hr. inversion Hr; subst r; clear Hr. simpl.
      split; [apply found_info_not_empty|]. left. exists pr, c, f.
      split; [reflexivity|]. split; [|reflexivity].
      intros ->. discriminate E.
  - intros H. inversion H; subst cls' out; clear H.
    split; [right; reflexivity|]. split.
    + intros e He. inversion He; subst e. left. reflexivity.
    + intros r Hr. discriminate Hr.
Qed.

Lemma process_outcomes_witness :
  exists d, process graded_world [] nested_plate [] = Some ([], Ok (Own d))
            /\ d <> [].
Proof.
  destruct (process_outcomes graded_world [] nested_plate [] []
              (Ok (Own (found_info (full_cdl old_grade) old_grade))))
    as (_ & _ & H).
  - vm_compute. reflexivity.
  - destruct (H _ eq_refl) as (N & _). eexists. split; [|exact N].
    vm_compute. reflexivity.
Defined.

(** *** One dictionary for every plate *)

Lemma process_ask (w : world) (cls : info) (p : plate) (presses : list press)
  (r : option candidate) :
  lookup w p = Ok r -> found r = false ->
  process w cls p presses = ask w cls presses.
Proof.
  intros L F. unfold process. rewrite L.
  destruct r as [[[pr c] f]|]; [|reflexivity].
  simpl in F. unfold file_of in F. simpl in F.
  destruct (String.eqb f ""); [reflexivity | discriminate F].
Qed.

(** X14.  The shot grades of plates settled with the Blank Grade and the
    Ignore Grade buttons are one dictionary, that of the dialog class.
    When no file is found for two plates, the first is given a blank
    grade and the second is ignored, both hold the class dictionary: the
    grade of the first plate, not ignored when it was stored, reads as
    ignored once the second plate is done, and the grade of the second
    plate carries the blank grade, path and type chosen for the first. *)
Theorem blank_then_ignore_share (w : world) (cls : info) (p1 p2 : plate)
  (r1 r2 : option candidate) :
  lookup w p1 = Ok r1 -> found r1 = false ->
  lookup w p2 = Ok r2 -> found r2 = false ->
  exists cls1 cls2,
    process w cls p1 [PressBlank] = Some (cls1, Ok ClassData)
    /\ str_get "ignore" (deref cls1 ClassData) = Some (IBool false)
    /\ process w cls1 p2 [PressIgnore] = Some (cls2, Ok ClassData)
    /\ str_get "ignore" (deref cls2 ClassData) = Some (IBool true)
    /\ str_get "cdl" (deref cls2 ClassData) = Some blank_cdl
    /\ str_get "path" (deref cls2 ClassData) = Some (IStr "")
    /\ str_get "type" (deref cls2 ClassData) = Some (IStr "ccc").
Proof.
  intros L1 F1 L2 F2.
  set (cls1 := str_set "type" (IStr "ccc")
                 (str_set "ignore" (IBool false)
                    (str_set "path" (IStr "")
                       (str_set "cdl" blank_cdl cls)))).
  exists cls1, (str_set "ignore" (IBool true) cls1).
  assert (N1 : is_empty cls1 = false) by apply is_empty_set.
  split.
  { rewrite (process_ask _ _ _ _ _ L1 F1). unfold ask. simpl.
    fold cls1. rewrite N1. reflexivity. }
  split.
  { simpl. unfold cls1.
    rewrite str_get_set_other by discriminate. apply str_get_set_same. }
  split.
  { rewrite (process_ask _ _ _ _ _ L2 F2). unfold ask. simpl.
    rewrite is_empty_set. reflexivity. }
  simpl. split; [apply str_get_set_same|].
  unfold cls1.
  split.
  { repeat (rewrite str_get_set_other by discriminate).
    apply str_get_set_same. }
  split.
  { repeat (rewrite str_get_set_other by discriminate).
    apply str_get_set_same. }
  rewrite str_get_set_other by discriminate. apply str_get_set_same.
Qed.

Lemma blank_then_ignore_share_witness :
  exists cls1 cls2,
    process graded_world [] library_plate [PressBlank]
      = Some (cls1, Ok ClassData)
    /\ process graded_world cls1 library_plate [PressIgnore]
      = Some (cls2, Ok ClassData)
    /\ str_get "ignore" cls2 = Some (IBool true).
Proof.
  destruct (blank_then_ignore_share graded_world [] library_plate
              library_plate None None)
    as (cls1 & cls2 & H1 & _ & H2 & H3 & _);
    try (vm_compute; reflexivity).
  exists cls1, cls2. split; [exact H1|]. split; [exact H2 | exact H3].
Defined.

(** *** What the Accept button lets through *)

(** The dictionary [set_data] stores. *)
Lemma set_data_own (f : form) (st : state) :
  exists d,
    own_data (snd (set_data f st)) = Some d
    /\ str_get "path" d = Some (IStr (file_path_input f))
    /\ str_get "type" d = Some (IStr (last_field (file_path_input f)))
    /\ str_get "ignore" d = Some (IBool (ignore_grade (snd st)))
    /\ (last_field (file_path_input f) = "edl" ->
        str_get "cdl" d = Some (form_cdl f)).
Proof.
  unfold set_data. eexists. split; [reflexivity|].
  destruct (String.eqb (last_field (file_path_input f)) "edl") eqn:E.
  - repeat split; try reflexivity.
  - repeat split; try reflexivity.
    intros X. rewrite X in E. discriminate E.
Qed.

Lemma set_data_sound (w : world) (f : form) (st : state) :
  ignore_grade (snd st) = false ->
  checked w (file_path_input f) ->
  sound_state w (set_data f st).
Proof.
  intros G C. split; [exact G|].
  intros d Hd. destruct (set_data_own f st) as (d' & Hd' & P & T & _ & K).
  assert (d' = d) by congruence. subst d'.
  intros f0 Hp _. rewrite P in Hp. inversion Hp; subst f0.
  split; [exact C|]. split; [exact T|]. intros X. exists f. exact (K X).
Qed.

Lemma accepted_sound (w : world) (presses : list press) :
  forall st st',
    sound_state w st ->
    exec w st presses = Some (st', true) ->
    forall d f,
      own_data (snd st') = Some d ->
      str_get "path" d = Some (IStr f) -> f <> "" ->
      checked w f
      /\ str_get "type" d = Some (IStr (last_field f))
      /\ (last_field f = "edl" ->
          str_get "ignore" d = Some (IBool false) ->
          exists fm, str_get "cdl" d = Some (form_cdl fm)
                     /\ slope_r_input fm <> "NA").
Proof.
  induction presses as [|p presses IH]; intros st st' S H; simpl in H;
    [discriminate|].
  destruct (handle w p st) as [st1 s] eqn:Hh. destruct S as (G & S).
  destruct p as [fm| | | |]; simpl in Hh.
  - destruct (check_and_accept_cases _ _ _ _ _ Hh)
      as [(-> & ->)|(-> & C & [->|(-> & N)])].
    + apply (IH _ _ (conj G S) H).
    + apply (IH _ _ (set_data_sound _ _ _ G C) H).
    + inversion H; subst st'; clear H. intros d f Hd Hp Hf.
      destruct (set_data_own fm st) as (d' & Hd' & P & T & Ig & K).
      assert (d' = d) by congruence. subst d'.
      rewrite P in Hp. inversion Hp; subst f.
      split; [exact C|]. split; [exact T|]. intros X _.
      exists fm. split; [exact (K X) | exact (N X)].
  - unfold blank_grade in Hh. inversion Hh; subst st1 s; clear Hh.
    inversion H; subst st'; clear H. intros d f Hd Hp Hf. exfalso.
    rewrite !store_own in Hd.
    destruct (own_data (snd st)) as [d0|]; [|discriminate].
    inversion Hd; subst d; clear Hd.
    rewrite str_get_set_other in Hp by discriminate.
    rewrite str_get_set_other in Hp by discriminate.
    rewrite str_get_set_same in Hp. inversion Hp. congruence.
  - unfold set_ignore in Hh. inversion Hh; subst st1 s; clear Hh.
    inversion H; subst st'; clear H. intros d f Hd Hp Hf.
    rewrite store_own in Hd. simpl in Hd.
    destruct (own_data (snd st)) as [d0|] eqn:O; [|discriminate].
    inversion Hd; subst d; clear Hd.
    rewrite str_get_set_other in Hp by discriminate.
    destruct (S d0 eq_refl f Hp Hf) as (C & T & _).
    split; [exact C|]. split.
    + rewrite str_get_set_other by discriminate. exact T.
    + intros _ Ig. rewrite str_get_set_same in Ig. discriminate Ig.
  - unfold cancel in Hh. inversion Hh; subst st1 s. discriminate H.
  - inversion Hh; subst st1 s. discriminate H.
Qed.

(** X15.  What the Accept button lets through.  When the dialog is
    accepted with a dictionary of its own that names a file, that file
    exists, its path starts with /proj/, any text without line break and
    /incoming, its last dot is followed by one of the known extensions,
    and that extension is the type stored; if the type is edl and the
    grade is not ignored, the cdl stored is the one read from the inputs,
    and its first slope text is not NA. *)
Theorem accepted_file_is_checked (w : world) (cls : info)
  (presses : list press) (st : state) (d : info) (f : string) :
  exec w (cls, new_dialog) presses = Some (st, true) ->
  own_data (snd st) = Some d ->
  str_get "path" d = Some (IStr f) -> f <> "" ->
  isfile w f = true
  /\ matches_start show_incoming_pattern f = true
  /\ In (last_field f) COLOR_FILE_EXTS
  /\ str_get "type" d = Some (IStr (last_field f))
  /\ (last_field f = "edl" ->
      str_get "ignore" d = Some (IBool false) ->
      exists fm, str_get "cdl" d = Some (form_cdl fm)
                 /\ slope_r_input fm <> "NA").
Proof.
  intros H Hd Hp Hf.
  assert (S : sound_state w (cls, new_dialog)).
  { split; [reflexivity|]. intros d0 Hd0. discriminate Hd0. }
  destruct (accepted_sound _ _ _ _ S H d f Hd Hp Hf) as ((I & M & X) & T & K).
  auto.
Qed.

Lemma accepted_file_is_checked_witness :
  isfile graded_world old_grade = true
  /\ matches_start show_incoming_pattern old_grade = true.
Proof.
  destruct (accepted_file_is_checked graded_world []
              [PressAccept grade_form]
              ([], Dlg (Some picked_data) false) picked_data old_grade)
    as (I & M & _).
  - vm_compute. reflexivity.
  - reflexivity.
  - reflexivity.
  - discriminate.
  - split; [exact I | exact M].
Defined.

End Shared.

(* ================================================================== *)
(** ** Overlapping track items *)

Module Overlaps.

Import Items.

Ltac flatten_bools :=
  repeat match goal with
         | H : _ && _ = true |- _ => apply andb_prop in H; destruct H
         | H : _ || _ = true |- _ => apply orb_prop in H; destruct H
         | H : (_ <=? _)%Z = true |- _ => apply Z.leb_le in H
         | H : (_ >=? _)%Z = true |- _ => apply Z.geb_le in H
         | H : (_ <? _)%Z = true |- _ => apply Z.ltb_lt in H
         | H : (_ >? _)%Z = true |- _ => apply Z.gtb_lt in H
         end.

Lemma overlap_iff (a b : track_item) :
  is_overlapping a b false = true <->
  (timelineIn a <= timelineIn b /\ timelineOut b <= timelineOut a)%Z
  \/ (timelineIn b <= timelineIn a /\ timelineOut a <= timelineOut b)%Z
  \/ (timelineIn a < timelineOut b /\ timelineOut b <= timelineOut a)%Z
  \/ (timelineIn a <= timelineIn b /\ timelineIn b < timelineOut a)%Z.
Proof.
  unfold is_overlapping. split.
  - intros H. flatten_bools; lia.
  - intros H. rewrite !orb_true_iff, !andb_true_iff.
    rewrite !Z.leb_le, !Z.geb_le, !Z.ltb_lt, !Z.gtb_lt. lia.
Qed.

Lemma strict_iff (a b : track_item) :
  is_overlapping a b true = true <->
  (timelineIn a <= timelineIn b /\ timelineOut b <= timelineOut a)%Z.
Proof.
  unfold is_overlapping. rewrite andb_true_iff, Z.leb_le, Z.geb_le. tauto.
Qed.

Lemma bool_eq_iff (x y : bool) : (x = true <-> y = true) -> x = y.
Proof.
  destruct x, y; intros [H1 H2]; try reflexivity;
    [symmetry; apply H1; reflexivity | apply H2; reflexivity].
Qed.

(** X16.  Without [strict], [is_overlapping] does not depend on the order
    of its two items, and it holds whenever the strict test does; the
    strict test holds both ways only for items with the same range.  For
    items that end no earlier than they start, two items overlap exactly
    when each starts before the other ends, or one lies within the other:
    items that only share an end frame, each longer than one frame, do not
    overlap. *)
Theorem is_overlapping_facts (a b : track_item) :
  is_overlapping a b false = is_overlapping b a false
  /\ (is_overlapping a b true = true -> is_overlapping a b false = true)
  /\ (is_overlapping a b true = true -> is_overlapping b a true = true ->
      timelineIn a = timelineIn b /\ timelineOut a = timelineOut b)
  /\ ((timelineIn a <= timelineOut a)%Z -> (timelineIn b <= timelineOut b)%Z ->
      (is_overlapping a b false = true <->
       (timelineIn a < timelineOut b /\ timelineIn b < timelineOut a)%Z
       \/ (timelineIn b <= timelineIn a /\ timelineOut a <= timelineOut b)%Z
       \/ (timelineIn a <= timelineIn b /\ timelineOut b <= timelineOut a)%Z))
  /\ ((timelineIn a < timelineOut a)%Z -> (timelineIn b < timelineOut b)%Z ->
      timelineOut a = timelineIn b ->
      is_overlapping a b false = false /\ is_overlapping b a false = false).
Proof.
  split; [|split; [|split; [|split]]].
  - apply bool_eq_iff. rewrite !overlap_iff. lia.
  - rewrite strict_iff, overlap_iff. lia.
  - rewrite !strict_iff. lia.
  - intros Ha Hb. rewrite overlap_iff. lia.
  - intros Ha Hb E.
    destruct (is_overlapping a b false) eqn:X, (is_overlapping b a false) eqn:Y;
      try (apply overlap_iff in X); try (apply overlap_iff in Y);
      try lia; auto.
Qed.

Lemma is_overlapping_facts_witness :
  is_overlapping (TrackItem 5 10) (TrackItem 10 12) false = false
  /\ is_overlapping (TrackItem 10 12) (TrackItem 5 10) false = false.
Proof.
  destruct (is_overlapping_facts (TrackItem 5 10) (TrackItem 10 12))
    as (_ & _ & _ & _ & H).
  apply H; simpl; lia.
Defined.

End Overlaps.

(* ================================================================== *)
(** ** Names split at the client version *)

Module Versions.

Import Text Num Re Py Lib Path Props Items.
Import ReFacts Packages.

(** *** The text of a match *)

Lemma rev_onto_rev (s acc : string) : rev_onto s acc = (rev s ++ acc)%string.
Proof.
  revert acc. induction s as [|a s IH]; intros acc; [reflexivity|].
  unfold rev. simpl. rewrite (IH (String a acc)), (IH (String a "")).
  rewrite append_assoc. reflexivity.
Qed.

Lemma rev_rev (s : string) : rev (rev s) = s.
Proof.
  unfold rev. rewrite rev_onto_append. simpl. apply append_empty_r.
Qed.

Lemma length_append (a b : string) :
  String.length (a ++ b) = (String.length a + String.length b)%nat.
Proof.
  induction a as [|x a IH]; simpl; [reflexivity | rewrite IH; reflexivity].
Qed.

Lemma take_append (a b : string) : take (String.length a) (a ++ b) = a.
Proof.
  induction a as [|x a IH]; simpl; [destruct b; reflexivity|].
  rewrite IH. reflexivity.
Qed.

Lemma rev_length (s : string) : String.length (rev s) = String.length s.
Proof.
  assert (G : forall t acc, String.length (rev_onto t acc)
                            = (String.length t + String.length acc)%nat).
  { induction t as [|a t IH]; intros acc; simpl; [reflexivity|].
    rewrite IH. simpl. lia. }
  unfold rev. rewrite G. simpl. lia.
Qed.

Lemma consumed_text (c0 c1 : cursor) (s : string) :
  seen c1 = rev_onto s (seen c0) -> consumed c0 c1 = s.
Proof.
  intros E. unfold consumed. rewrite E, rev_onto_rev, length_append, rev_length.
  replace (String.length s + String.length (seen c0) - String.length (seen c0))%nat
    with (String.length (rev s)) by (rewrite rev_length; lia).
  rewrite take_append. apply rev_rev.
Qed.

(** A match at a position: the pattern takes the matcher over the text of
    the match, and what follows it is the rest of the subject. *)
Lemma match_at_text (r : regex) (before after : string) (m : rmatch) :
  match_at r before after = Some m ->
  exists c',
    sem r (Cursor before after []) c'
    /\ m_before m = before
    /\ after = (m_text m ++ m_after m)%string
    /\ todo c' = m_after m.
Proof.
  unfold match_at. intros H.
  destruct (run r (Cursor before after []) Some) as [c1|] eqn:R; [|discriminate].
  inversion H; subst m; clear H. simpl.
  apply run_sound in R. destruct R as (c' & S & K). inversion K; subst c'.
  exists c1. split; [exact S|]. split; [reflexivity|].
  destruct (sem_further _ _ _ S) as (s & T & E). simpl in T, E.
  rewrite (consumed_text (Cursor before after []) c1 s E).
  split; [exact T | reflexivity].
Qed.

Lemma scan_text (r : regex) (after : string) :
  forall before m,
    scan r before after = Some m ->
    exists skipped c',
      after = (skipped ++ m_text m ++ m_after m)%string
      /\ sem r (Cursor (rev_onto skipped before) (m_text m ++ m_after m) []) c'
      /\ todo c' = m_after m.
Proof.
  induction after as [|a after IH]; intros before m H; simpl in H.
  - destruct (match_at r before "") as [x|] eqn:E; [|discriminate].
    inversion H; subst x. destruct (match_at_text _ _ _ _ E) as (c' & S & _ & T & D).
    exists ""%string, c'. simpl. rewrite <- T. auto.
  - destruct (match_at r before (String a after)) as [x|] eqn:E.
    + inversion H; subst x.
      destruct (match_at_text _ _ _ _ E) as (c' & S & _ & T & D).
      exists ""%string, c'. simpl. rewrite <- T. auto.
    + destruct (IH _ _ H) as (skipped & c' & -> & S & D).
      exists (String a skipped), c'. auto.
Qed.

(** *** Runs of digits *)

Lemma iter_digits (n : nat) :
  forall c c',
    iter (sem (Chars is_digit)) n c c' ->
    exists ds, todo c = (ds ++ todo c')%string
               /\ String.length ds = n /\ all_digits ds = true.
Proof.
  induction n as [|n IH]; intros c c' H; simpl in H.
  - subst c'. exists ""%string. auto.
  - destruct H as (c1 & (a & rest & E & P & ->) & It).
    destruct (IH _ _ It) as (ds & T & L & D). simpl in T.
    exists (String a ds). simpl. rewrite E, T, P, L, D. auto.
Qed.

(** The text of a match of the version pattern. *)
Lemma version_text (c c' : cursor) :
  sem version_pattern c c' ->
  exists a v ds,
    todo c = (String a (String v ds) ++ todo c')%string
    /\ version_mark a = true /\ letter_v v = true /\ isdigit ds = true.
Proof.
  simpl. intros (c1 & (a & r1 & E1 & P1 & ->) & c2 & (v & r2 & E2 & P2 & ->)
                 & n & Ln & _ & It).
  destruct (iter_digits _ _ _ It) as (ds & T & L & D). simpl in E2, T.
  exists a, v, ds. simpl. rewrite E1, E2, T.
  split; [reflexivity|]. split; [exact P1|]. split; [exact P2|].
  destruct ds as [|d ds]; [simpl in L; lia | exact D].
Qed.

Lemma append_cancel_r (a b c : string) :
  (a ++ c)%string = (b ++ c)%string -> a = b.
Proof.
  intros H.
  assert (L : String.length a = String.length b).
  { assert (X : String.length (a ++ c) = String.length (b ++ c))
      by (rewrite H; reflexivity).
    rewrite !length_append in X. lia. }
  revert b H L. induction a as [|x a IH]; intros [|y b] H L;
    simpl in L; try discriminate; [reflexivity|].
  simpl in H. inversion H. f_equal. apply IH; [assumption | lia].
Qed.

(** *** [str.split] *)

Lemma cut_shorter (sep s l r : string) :
  sep <> ""%string -> cut sep s = Some (l, r) ->
  (String.length r < String.length s)%nat.
Proof.
  intros N H. rewrite (cut_spec _ _ _ _ H), !length_append.
  destruct sep; [congruence | simpl; lia].
Qed.

Lemma split_on_join (sep : string) (N : sep <> ""%string) (fuel : nat) :
  forall s, (String.length s <= fuel)%nat ->
            join sep (split_on sep s fuel) = s.
Proof.
  induction fuel as [|fuel IH]; intros s L; simpl.
  - reflexivity.
  - destruct (cut sep s) as [[l r]|] eqn:E; [|reflexivity].
    pose proof (cut_shorter _ _ _ _ N E) as Sh.
    assert (J : join sep (l :: split_on sep r fuel)
                = (l ++ sep ++ join sep (split_on sep r fuel))%string).
    { destruct fuel; simpl; [reflexivity|].
      destruct (cut sep r) as [[l' r']|]; reflexivity. }
    rewrite J, IH by lia. symmetry. exact (cut_spec _ _ _ _ E).
Qed.

Lemma split_join (s sep : string) :
  sep <> ""%string -> join sep (split s sep) = s.
Proof.
  intros N. unfold split. apply split_on_join; [exact N | lia].
Qed.

Lemma split_two (s sep : string) :
  sep <> ""%string -> contains s sep -> (2 <= List.length (split s sep))%nat.
Proof.
  intros N C. unfold split.
  assert (L : (0 < String.length s)%nat).
  { destruct C as (a & b & ->). rewrite !length_append.
    destruct sep; [congruence | simpl; lia]. }
  destruct (String.length s) as [|fuel]; [lia|]. simpl.
  apply contains_cut in C. destruct (cut sep s) as [[l r]|]; [|congruence].
  simpl. destruct fuel; simpl; [lia|].
  destruct (cut sep r) as [[l' r']|]; simpl; lia.
Qed.

(** *** The function and its caller *)

Lemma findall_head (r : regex) (s : string) :
  match search r s with
  | Some m => exists rest, findall r s = m_text m :: rest
  | None => findall r s = []
  end.
Proof.
  unfold findall, search, finditer. simpl.
  destruct (scan r "" s) as [m|]; [|reflexivity].
  destruct (m_text m) eqn:T; simpl; rewrite ?T; eauto.
Qed.

Lemma split_by_version (s : string) :
  (split_by_client_version s = None <-> search version_pattern s = None)
  /\ (split_name s = TypeError <-> search version_pattern s = None)
  /\ (forall parts,
        split_by_client_version s = Some parts ->
        exists a v ds,
          version_mark a = true /\ letter_v v = true /\ isdigit ds = true
          /\ contains s (String a (String v ds))
          /\ parts = split s (String a (String v ds))
          /\ join (String a (String v ds)) parts = s
          /\ (2 <= List.length parts)%nat).
Proof.
  assert (A : split_by_client_version s = None
              <-> search version_pattern s = None).
  { unfold split_by_client_version.
    pose proof (findall_head version_pattern s) as F.
    destruct (search version_pattern s) as [m|].
    - destruct F as (rest & ->). split; discriminate.
    - rewrite F. split; reflexivity. }
  split; [exact A|]. split.
  - rewrite <- A. unfold split_name.
    destruct (split_by_client_version s) as [[|p parts]|];
      [split; discriminate| |split; reflexivity].
    destruct (String.eqb p ""); split; discriminate.
  - intros parts H. unfold split_by_client_version in H.
    pose proof (findall_head version_pattern s) as F.
    destruct (search version_pattern s) as [m|] eqn:S;
      [|rewrite F in H; discriminate H].
    destruct F as (rest & F). rewrite F in H. inversion H; subst parts; clear H.
    unfold search in S. destruct (scan_text _ _ _ _ S) as (sk & c' & E & Sm & D).
    destruct (version_text _ _ Sm) as (a & v & ds & T & Pa & Pv & Pd).
    rewrite D in T.
    apply (append_cancel_r (m_text m) (String a (String v ds))) in T.
    exists a, v, ds. split; [exact Pa|]. split; [exact Pv|]. split; [exact Pd|].
    assert (C : contains s (String a (String v ds))).
    { exists sk, (m_after m). rewrite <- T. exact E. }
    rewrite T. split; [exact C|]. split; [reflexivity|].
    split; [apply split_join; discriminate | apply split_two; [discriminate | exact C]].
Qed.



(** A name without the letter v has no version mark. *)
Lemma no_v_no_version (s : string) :
  ~ contains s "v" -> ~ contains s "V" -> search version_pattern s = None.
Proof.
  intros Hv HV. destruct (search version_pattern s) as [m|] eqn:S;
    [|reflexivity]. exfalso.
  unfold search in S. destruct (scan_text _ _ _ _ S) as (sk & c' & E & Sm & D).
  destruct (version_text _ _ Sm) as (a & v & ds & T & _ & Pv & _).
  rewrite D in T.
  apply (append_cancel_r (m_text m) (String a (String v ds))) in T.
  unfold letter_v, lower_char in Pv.
  assert (X : v = "v"%char \/ v = "V"%char).
  { destruct v as [[] [] [] [] [] [] [] []]; try discriminate Pv; auto. }
  rewrite T in E.
  destruct X as [-> | ->]; [apply Hv | apply HV];
    exists (sk ++ String a "")%string, (ds ++ m_after m)%string;
    rewrite E, append_assoc; reflexivity.
Qed.

(** X18.  A name that contains no letter v, in either case, has no version
    mark: [split_by_client_version] returns [None] and the expression of
    the caller raises a [TypeError]. *)
Theorem name_without_version_fails (s : string) :
  ~ contains s "v" -> ~ contains s "V" ->
  split_by_client_version s = None /\ split_name s = TypeError.
Proof.
  intros Hv HV. pose proof (no_v_no_version s Hv HV) as N.
  destruct (split_by_version s) as (A & B & _).
  split; [apply A, N | apply B, N].
Qed.

Lemma name_without_version_fails_witness :
  split_name "plate_main" = TypeError.
Proof.
  apply (name_without_version_fails "plate_main");
    apply cut_none_not_contains; vm_compute; reflexivity.
Defined.

End Versions.

(* ================================================================== *)
(** ** Hierarchy and framing of an instance *)

Module Instances.

Import Text Num Re Py Lib Path Dialog Items.
Import Sessions Shared.

(** X19.  The parents [create_ayon_instance] derives from the hierarchy
    environment, through [get_hierarchy_data] and [get_hierarchy_parents],
    are the episode when the environment has one, then the sequence when it
    has one, then the folder, which is always there and always last: asset
    with an asset type, shots without.  The shot and the track are never
    among them. *)
Theorem parents_of_hierarchy (hierarchy_env : list (string * string))
  (track_name : string) :
  get_hierarchy_parents (get_hierarchy_data hierarchy_env track_name)
  = parent_if "episode" (str_get "EPISODE" hierarchy_env)
    ++ parent_if "sequence" (str_get "SEQ" hierarchy_env)
    ++ [Parent "folder" (folder_of hierarchy_env)].
Proof.
  unfold get_hierarchy_data, get_entity_hierarchy, folder_of, set_if, parent_if.
  destruct (str_get "EPISODE" hierarchy_env) as [e|];
    destruct (str_get "SEQ" hierarchy_env) as [s|];
    destruct (str_get "SHOT" hierarchy_env) as [a|];
    destruct (str_get "ASSET_TYPE" hierarchy_env) as [t|];
    repeat match goal with
           | |- context [truthy ?x] => destruct (truthy x)
           end;
    reflexivity.
Qed.

(** *** [set_framing_info] *)

Lemma str_set_same {V : Type} (k : string) (v : V) (d : list (string * V)) :
  str_get k d = Some v -> str_set k v d = d.
Proof.
  induction d as [|[k' v'] d IH]; simpl; [discriminate|].
  destruct (String.eqb k' k) eqn:E.
  - intros H. inversion H. reflexivity.
  - intros H. rewrite (IH H). reflexivity.
Qed.

Lemma int_of_int (n : Z) : int_of (PInt n) = Ok n.
Proof. reflexivity. Qed.

(** X20.  When [set_framing_info] returns, cut_in and the two handles are
    integers, cut_out is cut_in plus the duration of the item less one, and
    every other entry is as it was; applied again to its result it returns
    the same dictionary. *)
Theorem set_framing_info_settles (cut_info cut_info' : list (string * value))
  (t : framed_item) :
  set_framing_info cut_info t = Ok cut_info' ->
  exists cut_in head tail,
    str_get "cut_in" cut_info' = Some (PInt cut_in)
    /\ str_get "head_handles" cut_info' = Some (PInt head)
    /\ str_get "tail_handles" cut_info' = Some (PInt tail)
    /\ str_get "cut_out" cut_info'
       = Some (PInt (cut_in + duration t - 1))
    /\ (forall k, k <> "cut_in" -> k <> "head_handles" ->
                  k <> "tail_handles" -> k <> "cut_out" ->
                  str_get k cut_info' = str_get k cut_info)
    /\ set_framing_info cut_info' t = Ok cut_info'.
Proof.
  unfold set_framing_info, item. intros H.
  destruct (str_get "cut_in" cut_info) as [v|] eqn:G; [|discriminate H].
  simpl in H. destruct (int_of v) as [cut_in|] eqn:I; [|discriminate H].
  simpl in H.
  set (c1 := str_set "cut_in" (PInt cut_in) cut_info) in *.
  assert (R1 : str_get "cut_range" c1 = str_get "cut_range" cut_info)
    by (apply str_get_set_other; discriminate).
  set (range := match str_get "cut_range" c1 with
                | Some v => v
                | None => PStr "True"
                end) in *.
  assert (Done : forall c2 head tail,
            str_get "cut_in" c2 = Some (PInt cut_in) ->
            str_get "head_handles" c2 = Some (PInt head) ->
            str_get "tail_handles" c2 = Some (PInt tail) ->
            str_get "cut_range" c2 = str_get "cut_range" c1 ->
            (if is_str range "False"
             then head = truncate (handleInLength t)
                  /\ tail = truncate (handleOutLength t)
             else True) ->
            (forall k, k <> "cut_in" -> k <> "head_handles" ->
                       k <> "tail_handles" -> k <> "cut_out" ->
                       str_get k c2 = str_get k cut_info) ->
            cut_info' = str_set "cut_out" (PInt (cut_in + duration t - 1)) c2 ->
            exists cut_in0 head0 tail0,
              str_get "cut_in" cut_info' = Some (PInt cut_in0)
              /\ str_get "head_handles" cut_info' = Some (PInt head0)
              /\ str_get "tail_handles" cut_info' = Some (PInt tail0)
              /\ str_get "cut_out" cut_info'
                 = Some (PInt (cut_in0 + duration t - 1))
              /\ (forall k, k <> "cut_in" -> k <> "head_handles" ->
                            k <> "tail_handles" -> k <> "cut_out" ->
                            str_get k cut_info' = str_get k cut_info)
              /\ set_framing_info cut_info' t = Ok cut_info').
  { intros c2 head tail Ci Hh Ht Rg Br Ot ->.
    set (c3 := str_set "cut_out" (PInt (cut_in + duration t - 1)) c2).
    assert (Ci3 : str_get "cut_in" c3 = Some (PInt cut_in))
      by (unfold c3; rewrite str_get_set_other by discriminate; exact Ci).
    assert (Hh3 : str_get "head_handles" c3 = Some (PInt head))
      by (unfold c3; rewrite str_get_set_other by discriminate; exact Hh).
    assert (Ht3 : str_get "tail_handles" c3 = Some (PInt tail))
      by (unfold c3; rewrite str_get_set_other by discriminate; exact Ht).
    assert (Co3 : str_get "cut_out" c3 = Some (PInt (cut_in + duration t - 1)))
      by (unfold c3; apply str_get_set_same).
    assert (Rg3 : str_get "cut_range" c3 = str_get "cut_range" c1)
      by (unfold c3; rewrite str_get_set_other by discriminate; exact Rg).
    exists cut_in, head, tail. do 4 (split; [assumption|]). split.
    - intros k K1 K2 K3 K4. unfold c3.
      rewrite str_get_set_other by exact K4. apply Ot; assumption.
    - unfold set_framing_info, item. rewrite Ci3. simpl.
      rewrite (str_set_same _ _ _ Ci3), Rg3. fold range.
      destruct (is_str range "False").
      + destruct Br as (-> & ->).
        rewrite (str_set_same _ _ _ Hh3), (str_set_same _ _ _ Ht3). simpl.
        rewrite (str_set_same _ _ _ Co3). reflexivity.
      + rewrite Hh3. simpl. rewrite (str_set_same _ _ _ Hh3), Ht3. simpl.
        rewrite (str_set_same _ _ _ Ht3). simpl.
        rewrite (str_set_same _ _ _ Co3). reflexivity. }
  assert (Ci1 : str_get "cut_in" c1 = Some (PInt cut_in))
    by (unfold c1; apply str_get_set_same).
  assert (Ot1 : forall k, k <> "cut_in" -> str_get k c1 = str_get k cut_info)
    by (intros k K; unfold c1; apply str_get_set_other; exact K).
  destruct (is_str range "False") eqn:B.
  - simpl in H. injection H as E. symmetry in E.
    apply (Done (str_set "tail_handles" (PInt (truncate (handleOutLength t)))
                   (str_set "head_handles"
                      (PInt (truncate (handleInLength t))) c1))
                (truncate (handleInLength t)) (truncate (handleOutLength t))).
    + rewrite !str_get_set_other by discriminate. exact Ci1.
    + rewrite str_get_set_other by discriminate. apply str_get_set_same.
    + apply str_get_set_same.
    + rewrite !str_get_set_other by discriminate. reflexivity.
    + split; reflexivity.
    + intros k K1 K2 K3 K4. rewrite !str_get_set_other by assumption.
      apply Ot1, K1.
    + exact E.
  - destruct (str_get "head_handles" c1) as [h|] eqn:Gh; [|discriminate H].
    simpl in H. destruct (int_of h) as [head|] eqn:Ih; [|discriminate H].
    simpl in H.
    set (c2 := str_set "head_handles" (PInt head) c1) in *.
    destruct (str_get "tail_handles" c2) as [tl|] eqn:Gt; [|discriminate H].
    simpl in H. destruct (int_of tl) as [tail|] eqn:It; [|discriminate H].
    simpl in H. injection H as E. symmetry in E.
    apply (Done (str_set "tail_handles" (PInt tail) c2) head tail).
    + unfold c2. rewrite !str_get_set_other by discriminate. exact Ci1.
    + unfold c2. rewrite str_get_set_other by discriminate.
      apply str_get_set_same.
    + apply str_get_set_same.
    + unfold c2. rewrite !str_get_set_other by discriminate. reflexivity.
    + exact Logic.I.
    + intros k K1 K2 K3 K4. unfold c2.
      rewrite !str_get_set_other by assumption. apply Ot1, K1.
    + exact E.
Qed.

Lemma set_framing_info_settles_witness :
  exists cut_in,
    str_get "cut_in" framed_tag = Some (PInt cut_in)
    /\ str_get "cut_out" framed_tag = Some (PInt (cut_in + 48 - 1)).
Proof.
  destruct (set_framing_info_settles plain_tag framed_tag
              (FramedItem (17 # 2) 8 48))
    as (cut_in & head & tail & H1 & _ & _ & H4 & _).
  - vm_compute. reflexivity.
  - exists cut_in. split; [exact H1 | exact H4].
Defined.

End Instances.

(* ================================================================== *)
(** ** Edit blocks with the same number *)

Module Duplicates.

Import Text Num Re Py Lib Path Collect Props Notions Samples Cases.
Import Traversal Events.

Lemma dict_get_set {V : Type} (k k0 : key) (v : V) (d : list (key * V)) :
  dict_get k (dict_set k0 v d)
  = if key_eqb k0 k then Some v else dict_get k d.
Proof.
  induction d as [|[k' v'] d IH]; simpl; [reflexivity|].
  destruct (key_eqb k' k0) eqn:E; simpl.
  - apply key_eqb_eq in E. subst k'. destruct (key_eqb k0 k); reflexivity.
  - rewrite IH. destruct (key_eqb k' k) eqn:E1; [|reflexivity].
    destruct (key_eqb k0 k) eqn:E2; [|reflexivity].
    apply key_eqb_eq in E1, E2. subst k' k0.
    rewrite key_eqb_refl in E. discriminate E.
Qed.

Lemma dict_get_app {V : Type} (k : key) (a b : list (key * V)) :
  dict_get k (a ++ b)
  = match dict_get k a with
    | Some v => Some v
    | None => dict_get k b
    end.
Proof.
  induction a as [|[k' v'] a IH]; simpl; [reflexivity|].
  destruct (key_eqb k' k); [reflexivity | exact IH].
Qed.

Lemma dict_get_fold (k : key) (l : list (key * event)) :
  forall d,
    dict_get k (fold_left (fun d kv => dict_set (fst kv) (snd kv) d) l d)
    = match dict_get k (List.rev l) with
      | Some v => Some v
      | None => dict_get k d
      end.
Proof.
  induction l as [|[k0 v0] l IH]; intros d; simpl; [reflexivity|].
  rewrite IH, dict_get_app, dict_get_set. simpl.
  destruct (dict_get k (List.rev l)); [reflexivity|].
  destruct (key_eqb k0 k); reflexivity.
Qed.

Lemma edit_loop_fold (co : bool) (edits : list string) :
  forall evs evs',
    edit_loop co evs edits = Ok evs' ->
    exists kvs,
      Forall2 (fun e kv => edit_entry e = Ok kv) edits kvs
      /\ evs' = fold_left (fun d kv => dict_set (fst kv) (snd kv) d)
                  (recorded co kvs) evs.
Proof.
  induction edits as [|e edits IH]; simpl; intros evs evs' H.
  - inversion H; subst evs'. exists []. split; [constructor | reflexivity].
  - apply bind_ok in H. destruct H as (evs1 & Hs & Hl).
    rewrite edit_step_entry in Hs. apply bind_ok in Hs.
    destruct Hs as (kv0 & He & Hk).
    destruct (IH _ _ Hl) as (kvs & HF & ->).
    exists (kv0 :: kvs). split; [constructor; assumption|].
    unfold recorded. simpl.
    destruct (kept co (snd kv0)); inversion Hk; subst evs1; reflexivity.
Qed.

(** X21.  The events [regex_parse_edl_events] returns are the recorded
    blocks stored one after the other under the text of their number: when
    several recorded blocks carry the same number, the event kept under it
    is that of the last of them, whatever the earlier ones held. *)
Theorem last_block_of_a_number_wins (w : world) (path : string) (co : bool)
  (r : edl) :
  regex_parse_edl_events w path co = Ok r ->
  exists text kvs,
    read_text w path = Ok text
    /\ Forall2 (fun e kv => edit_entry e = Ok kv) (edits_of text) kvs
    /\ events r = as_dict (recorded co kvs)
    /\ forall k, dict_get k (events r)
                 = dict_get k (List.rev (recorded co kvs)).
Proof.
  unfold regex_parse_edl_events. intros H.
  apply bind_ok in H. destruct H as (text & Hr & H).
  apply bind_ok in H. destruct H as (first & _ & H).
  apply bind_ok in H. destruct H as (evs & Hl & H).
  apply bind_ok in H. destruct H as (final & _ & H).
  inversion H; subst r; clear H. simpl.
  destruct (edit_loop_fold _ _ _ _ Hl) as (kvs & HF & ->).
  exists text, kvs. split; [exact Hr|]. split; [exact HF|].
  split; [reflexivity|]. intros k. rewrite dict_get_fold. simpl.
  destruct (dict_get k (List.rev (recorded co kvs))); reflexivity.
Qed.

Lemma last_block_of_a_number_wins_witness :
  exists kvs, events twice_edl = as_dict (recorded false kvs)
              /\ List.length kvs = 2%nat
              /\ List.length (events twice_edl) = 1%nat.
Proof.
  destruct (last_block_of_a_number_wins twice_world "/in/cut.edl" false
              twice_edl) as (text & kvs & Hr & HF & E & _).
  - vm_compute. reflexivity.
  - exists kvs. split; [exact E|]. split; [|reflexivity].
    vm_compute in Hr. inversion Hr; subst text.
    apply Forall2_length in HF. rewrite <- HF. vm_compute. reflexivity.
Defined.

End Duplicates.

(* ================================================================== *)
(** ** The sequence pattern of a file name *)

Module Sequences.

Import Text Num Re Py Lib Path Props Items.
Import ReFacts Packages Numbering Versions.

(** *** Runs of one class of characters *)




(** *** The groups of a match *)



(** *** The three ways the pattern matches *)


(** *** The name that is kept *)



(** *** The digits of the padding *)



Lemma all_digits_app (a b : string) :
  all_digits (a ++ b) = all_digits a && all_digits b.
Proof.
  induction a as [|x a IH]; simpl; [reflexivity|].
  rewrite IH, andb_assoc. reflexivity.
Qed.













(** *** The function *)



End Sequences.

(* ================================================================== *)
(** ** The type stored for a file that was found *)

Module Types.

Import Text Num Re Py Lib Path Collect Props Notions Samples Cases Dialog.
Import Sessions ReFacts Packages Lookups Shared.

Lemma rcut_spec (c : ascii) (s l r : string) :
  rcut c s = Some (l, r) -> s = (l ++ String c r)%string.
Proof.
  revert l. induction s as [|a s IH]; intros l H; simpl in H; [discriminate|].
  destruct (rcut c s) as [[l' r']|] eqn:E.
  - inversion H; subst. simpl. rewrite (IH l' eq_refl). reflexivity.
  - destruct (Ascii.eqb a c) eqn:Ea; [|discriminate].
    apply Ascii.eqb_eq in Ea. inversion H; subst. reflexivity.
Qed.

Lemma rcut_app (c : ascii) (a b l r : string) :
  rcut c b = Some (l, r) -> rcut c (a ++ b) = Some ((a ++ l)%string, r).
Proof.
  intros H. induction a as [|x a IH]; simpl; [exact H|].
  rewrite IH. reflexivity.
Qed.

(** The suffix of a path is what follows its last full stop. *)
Lemma suffix_last_field (p ext : string) :
  suffix p = Some ext -> last_field p = ext.
Proof.
  unfold suffix, last_field, basename.
  destruct (rcut "/" p) as [[d b]|] eqn:E.
  - destruct (rcut "." b) as [[l r]|] eqn:Eb; [|discriminate].
    destruct l as [|x l]; [discriminate|].
    destruct r as [|y r]; [discriminate|].
    intros H. inversion H; subst ext.
    rewrite (rcut_spec _ _ _ _ E).
    change (d ++ String "/" b)%string with (d ++ String "/" "" ++ b)%string.
    rewrite <- append_assoc, (rcut_app _ _ _ _ _ Eb). reflexivity.
  - destruct (rcut "." p) as [[l r]|]; [|discriminate].
    destruct l as [|x l]; [discriminate|].
    destruct r as [|y r]; [discriminate|].
    intros H. inversion H. reflexivity.
Qed.

Lemma in_files_of_ext (w : world) (package_path ext f : string) :
  In f (files_of_ext w package_path ext) <->
  exists found, In found (rglob w package_path)
                /\ suffix (fst found) = Some ext /\ snd found = f.
Proof.
  unfold files_of_ext. rewrite in_map_iff. split.
  - intros (x & E & I). apply filter_In in I. destruct I as (I & S).
    exists x. split; [exact I|]. split; [|exact E].
    unfold has_suffix in S. destruct (suffix (fst x)) as [e0|]; [|discriminate].
    apply String.eqb_eq in S. subst. reflexivity.
  - intros (x & I & S & E). exists x. split; [exact E|].
    apply filter_In. split; [exact I|]. unfold has_suffix. rewrite S.
    apply String.eqb_refl.
Qed.

(** X23.  When no path found under the packages is a symbolic link, each
    being its own resolved form, the dictionary [process] stores for a file
    the lookup found names that file as path, one of the known extensions
    as type and ignore as false, and has a cdl entry exactly when the type
    is edl: what [parse_cdl] read from a file of another type is not
    stored. *)
Theorem found_file_type (w : world) (cls : info) (p : plate)
  (presses : list press) (pr : Z) (c : cdl) (f : string) :
  (forall d found, In found (rglob w d) -> snd found = fst found) ->
  lookup w p = Ok (Some (pr, c, f)) -> f <> "" ->
  exists d,
    process w cls p presses = Some (cls, Ok (Own d))
    /\ str_get "path" d = Some (IStr f)
    /\ str_get "ignore" d = Some (IBool false)
    /\ exists ext,
         In ext COLOR_FILE_EXTS
         /\ str_get "type" d = Some (IStr ext)
         /\ (ext = "edl" -> str_get "cdl" d = Some (IParsed c))
         /\ (ext <> "edl" -> str_get "cdl" d = None).
Proof.
  intros Plain L Hf.
  assert (G : get_color_file w (source_path p) (item_name p) (source_name p)
              = Ok (Some (pr, c, f))).
  { unfold lookup in L.
    destruct (matches_start show_incoming_pattern (source_path p));
      [exact L | discriminate L]. }
  destruct (returned_listed _ _ _ _ _ _ _ G Hf)
    as (l1 & d0 & l2 & ext & _ & He & Hin & _).
  apply in_files_of_ext in Hin. destruct Hin as (fd & I & S & E).
  rewrite (Plain _ _ I) in E. rewrite E in S.
  pose proof (suffix_last_field _ _ S) as Lf.
  exists (found_info c f). split.
  { unfold process. rewrite L.
    destruct (String.eqb f "") eqn:X; [|reflexivity].
    apply String.eqb_eq in X. contradiction. }
  unfold found_info. rewrite Lf. clear Lf S.
  destruct (String.eqb ext "edl") eqn:X.
  - apply String.eqb_eq in X. subst ext.
    split; [reflexivity|]. split; [reflexivity|]. exists "edl".
    split; [exact He|]. split; [reflexivity|].
    split; [reflexivity | congruence].
  - split; [reflexivity|]. split; [reflexivity|]. exists ext.
    split; [exact He|]. split; [reflexivity|].
    split; [|reflexivity]. intros ->. discriminate X.
Qed.

Lemma found_file_type_witness :
  exists d,
    process graded_world [] nested_plate [] = Some ([], Ok (Own d))
    /\ str_get "type" d = Some (IStr "ccc")
    /\ str_get "cdl" d = None.
Proof.
  destruct (found_file_type graded_world [] nested_plate [] 1%Z
              (full_cdl old_grade) old_grade)
    as (d & P & _ & _ & ext & _ & T & _ & N).
  - intros d found. unfold graded_world, delivery_of, listing_from. simpl.
    rewrite in_map_iff. intros (x & <- & _). reflexivity.
  - vm_compute. reflexivity.
  - discriminate.
  - assert (V : process graded_world [] nested_plate []
                = Some ([], Ok (Own (found_info (full_cdl old_grade) old_grade))))
      by (vm_compute; reflexivity).
    rewrite V in P. inversion P; subst d.
    vm_compute in T. inversion T; subst ext.
    eexists. split; [exact V|].
    split; [vm_compute; reflexivity | apply N; discriminate].
Defined.

End Types.
